(** * Smart pointers: UniquePtr, SharedPtr, WeakPtr and their ReferenceCounter

    A shallow embedding of [smartpointers.h].  Handles are C++ variables: each
    lives at an address of its own (what [this] and [&right] compare), and the
    heap holds the counter blocks and the owned objects.  Every member function
    is a computation over that store; a computation either returns or hits
    undefined behaviour (a null dereference, a use after free, a double free). *)

From stdpp Require Import gmap.
From Stdlib Require Import ZArith Lia.

Local Open Scope Z_scope.

(** ** Addresses and machine integers *)

(** A raw pointer ([T*] or [ReferenceCounter*]); [0] is the null pointer. *)
Abbreviation ptr := N (only parsing).
Abbreviation nullptr := 0%N.

(** The address of a handle variable. *)
Abbreviation handle := positive (only parsing).

(** [size_t] is a 64-bit unsigned integer: arithmetic wraps around. *)
Definition wrap (z : Z) : Z := z mod 2 ^ 64.

(** ** Data *)

Record ReferenceCounter := { count : Z; weak : Z }.

Module UniquePtr.
Record t := { object : ptr }.
End UniquePtr.

Module SharedPtr.
Record t := { object : ptr; reference : ptr }.
End SharedPtr.

Module WeakPtr.
Record t := { pointer : ptr; reference : ptr }.
End WeakPtr.

(** What the program does to the heap that an observer can count. *)
Inductive event :=
  | DeleteObject (p : ptr)
  | DeleteCounter (r : ptr).

Global Instance event_eq_dec : EqDecision event.
Proof. solve_decision. Defined.

(** The store: the live handle variables of each kind, the allocated counter
    blocks, the live objects, and the deallocations so far (latest first). *)
Record state := {
  uniques : gmap handle UniquePtr.t;
  shareds : gmap handle SharedPtr.t;
  weaks : gmap handle WeakPtr.t;
  counters : gmap ptr ReferenceCounter;
  objects : gset ptr;
  trace : list event
}.

Definition init : state :=
  {| uniques := ∅; shareds := ∅; weaks := ∅; counters := ∅; objects := ∅; trace := [] |}.

Definition with_uniques (m : gmap handle UniquePtr.t) (st : state) : state :=
  {| uniques := m; shareds := shareds st; weaks := weaks st;
     counters := counters st; objects := objects st; trace := trace st |}.
Definition with_shareds (m : gmap handle SharedPtr.t) (st : state) : state :=
  {| uniques := uniques st; shareds := m; weaks := weaks st;
     counters := counters st; objects := objects st; trace := trace st |}.
Definition with_weaks (m : gmap handle WeakPtr.t) (st : state) : state :=
  {| uniques := uniques st; shareds := shareds st; weaks := m;
     counters := counters st; objects := objects st; trace := trace st |}.
Definition with_counters (m : gmap ptr ReferenceCounter) (st : state) : state :=
  {| uniques := uniques st; shareds := shareds st; weaks := weaks st;
     counters := m; objects := objects st; trace := trace st |}.

(** ** Computations *)

Inductive fault :=
  | NullDeref       (* member access through a null pointer *)
  | UseAfterFree    (* access to a counter block that is not allocated *)
  | DoubleFree      (* delete of something that is not allocated *)
  | BadHandle.      (* the client names a variable that does not exist, or declares one twice *)

Inductive result (A : Type) :=
  | Ok (a : A)
  | Fault (f : fault).
Arguments Ok {A} a.
Arguments Fault {A} f.

Definition M (A : Type) : Type := state → result (A * state).

Definition ret {A} (a : A) : M A := λ st, Ok (a, st).
Definition bind {A B} (m : M A) (k : A → M B) : M B :=
  λ st, match m st with
        | Ok (a, st') => k a st'
        | Fault f => Fault f
        end.

Notation "'let*' x ':=' m 'in' k" := (bind m (λ x, k))
  (at level 10, x name, m at level 100, k at level 200).
Notation "m >> k" := (bind m (λ _, k))
  (at level 100, k at level 200, right associativity).

(** Run a computation for its effect on the store. *)
Definition exec {A} (m : M A) (st : state) : result state :=
  match m st with
  | Ok (_, st') => Ok st'
  | Fault f => Fault f
  end.

(** ** The heap *)

(** [new ReferenceCounter{}] returns some address that is not null and not in
    use; which one is up to the allocator. *)
Class Allocator := {
  new_address : gset ptr → ptr;
  new_address_fresh : ∀ X : gset ptr, new_address X ≠ nullptr ∧ new_address X ∉ X
}.

(** An allocator to run examples with. *)
Definition bump (X : gset ptr) : ptr := fresh ({[nullptr]} ∪ X).

Definition bump_allocator : Allocator.
Proof.
  refine {| new_address := bump |}.
  intros X. unfold bump. pose proof (is_fresh ({[nullptr]} ∪ X)) as Hfresh.
  split; [intros E; apply Hfresh; rewrite E |]; set_solver.
Defined.

Definition load_counter (r : ptr) : M ReferenceCounter := λ st,
  if decide (r = nullptr) then Fault NullDeref
  else match counters st !! r with
       | Some rc => Ok (rc, st)
       | None => Fault UseAfterFree
       end.

Definition store_counter (r : ptr) (rc : ReferenceCounter) : M unit := λ st,
  Ok (tt, with_counters (<[r := rc]> (counters st)) st).

(** [new ReferenceCounter{}]: the constructor sets both counts to 0. *)
Definition new_ReferenceCounter `{Allocator} : M ptr := λ st,
  let r := new_address (dom (counters st)) in
  Ok (r, with_counters (<[r := {| count := 0; weak := 0 |}]> (counters st)) st).

(** [delete reference] *)
Definition delete_counter (r : ptr) : M unit := λ st,
  if decide (r = nullptr) then Ok (tt, st)
  else match counters st !! r with
       | Some _ =>
           Ok (tt, {| uniques := uniques st; shareds := shareds st; weaks := weaks st;
                      counters := delete r (counters st); objects := objects st;
                      trace := DeleteCounter r :: trace st |})
       | None => Fault DoubleFree
       end.

(** [delete object]; deleting the null pointer does nothing. *)
Definition delete_object (p : ptr) : M unit := λ st,
  if decide (p = nullptr) then Ok (tt, st)
  else if decide (p ∈ objects st) then
    Ok (tt, {| uniques := uniques st; shareds := shareds st; weaks := weaks st;
               counters := counters st; objects := objects st ∖ {[p]};
               trace := DeleteObject p :: trace st |})
  else Fault DoubleFree.

(** A raw pointer handed to a handle by the client points to a live object
    (the client's [new T]); the null pointer points to nothing. *)
Definition client_object (p : ptr) : M unit := λ st,
  if decide (p = nullptr) then Ok (tt, st)
  else Ok (tt, {| uniques := uniques st; shareds := shareds st; weaks := weaks st;
                  counters := counters st; objects := {[p]} ∪ objects st;
                  trace := trace st |}).

(** ** ReferenceCounter *)

Definition ReferenceCounter_add (this : ptr) : M unit :=
  let* rc := load_counter this in
  store_counter this {| count := wrap (count rc + 1); weak := weak rc |}.

Definition ReferenceCounter_remove (this : ptr) : M Z :=
  let* rc := load_counter this in
  let c := wrap (count rc - 1) in
  store_counter this {| count := c; weak := weak rc |} >>
  ret c.

Definition ReferenceCounter_get (this : ptr) : M Z :=
  let* rc := load_counter this in ret (count rc).

Definition ReferenceCounter_addWeak (this : ptr) : M unit :=
  let* rc := load_counter this in
  store_counter this {| count := count rc; weak := wrap (weak rc + 1) |}.

Definition ReferenceCounter_removeWeak (this : ptr) : M Z :=
  let* rc := load_counter this in
  let w := wrap (weak rc - 1) in
  store_counter this {| count := count rc; weak := w |} >>
  ret w.

Definition ReferenceCounter_getWeak (this : ptr) : M Z :=
  let* rc := load_counter this in ret (weak rc).

(** ** Handle variables *)

Definition get_unique (h : handle) : M UniquePtr.t := λ st,
  match uniques st !! h with
  | Some u => Ok (u, st)
  | None => Fault BadHandle
  end.
Definition put_unique (h : handle) (u : UniquePtr.t) : M unit := λ st,
  Ok (tt, with_uniques (<[h := u]> (uniques st)) st).
(** A constructor runs on a variable that does not exist yet. *)
Definition declare_unique (h : handle) (u : UniquePtr.t) : M unit := λ st,
  match uniques st !! h with
  | None => Ok (tt, with_uniques (<[h := u]> (uniques st)) st)
  | Some _ => Fault BadHandle
  end.
(** After its destructor a variable is gone. *)
Definition retire_unique (h : handle) : M unit := λ st,
  Ok (tt, with_uniques (delete h (uniques st)) st).

Definition get_shared (h : handle) : M SharedPtr.t := λ st,
  match shareds st !! h with
  | Some sp => Ok (sp, st)
  | None => Fault BadHandle
  end.
Definition put_shared (h : handle) (sp : SharedPtr.t) : M unit := λ st,
  Ok (tt, with_shareds (<[h := sp]> (shareds st)) st).
Definition declare_shared (h : handle) (sp : SharedPtr.t) : M unit := λ st,
  match shareds st !! h with
  | None => Ok (tt, with_shareds (<[h := sp]> (shareds st)) st)
  | Some _ => Fault BadHandle
  end.
Definition retire_shared (h : handle) : M unit := λ st,
  Ok (tt, with_shareds (delete h (shareds st)) st).

Definition get_weak (h : handle) : M WeakPtr.t := λ st,
  match weaks st !! h with
  | Some wp => Ok (wp, st)
  | None => Fault BadHandle
  end.
Definition put_weak (h : handle) (wp : WeakPtr.t) : M unit := λ st,
  Ok (tt, with_weaks (<[h := wp]> (weaks st)) st).
Definition declare_weak (h : handle) (wp : WeakPtr.t) : M unit := λ st,
  match weaks st !! h with
  | None => Ok (tt, with_weaks (<[h := wp]> (weaks st)) st)
  | Some _ => Fault BadHandle
  end.
Definition retire_weak (h : handle) : M unit := λ st,
  Ok (tt, with_weaks (delete h (weaks st)) st).

(** Reads and writes of single fields, [h.object] and [h.object = o]. *)
Definition unique_object (h : handle) : M ptr :=
  let* u := get_unique h in ret (UniquePtr.object u).
Definition set_unique_object (h : handle) (o : ptr) : M unit :=
  get_unique h >> put_unique h {| UniquePtr.object := o |}.

Definition shared_object (h : handle) : M ptr :=
  let* sp := get_shared h in ret (SharedPtr.object sp).
Definition shared_reference (h : handle) : M ptr :=
  let* sp := get_shared h in ret (SharedPtr.reference sp).
Definition set_shared_object (h : handle) (o : ptr) : M unit :=
  let* sp := get_shared h in
  put_shared h {| SharedPtr.object := o; SharedPtr.reference := SharedPtr.reference sp |}.
Definition set_shared_reference (h : handle) (r : ptr) : M unit :=
  let* sp := get_shared h in
  put_shared h {| SharedPtr.object := SharedPtr.object sp; SharedPtr.reference := r |}.

Definition weak_pointer (h : handle) : M ptr :=
  let* wp := get_weak h in ret (WeakPtr.pointer wp).
Definition weak_reference (h : handle) : M ptr :=
  let* wp := get_weak h in ret (WeakPtr.reference wp).
Definition set_weak_pointer (h : handle) (o : ptr) : M unit :=
  let* wp := get_weak h in
  put_weak h {| WeakPtr.pointer := o; WeakPtr.reference := WeakPtr.reference wp |}.
Definition set_weak_reference (h : handle) (r : ptr) : M unit :=
  let* wp := get_weak h in
  put_weak h {| WeakPtr.pointer := WeakPtr.pointer wp; WeakPtr.reference := r |}.

(** ** UniquePtr *)

(** [UniquePtr()] *)
Definition UniquePtr_ctor (this : handle) : M unit :=
  declare_unique this {| UniquePtr.object := nullptr |}.

(** [UniquePtr(T *right)] *)
Definition UniquePtr_ctor_ptr (this : handle) (right : ptr) : M unit :=
  client_object right >>
  declare_unique this {| UniquePtr.object := right |}.

(** [UniquePtr(UniquePtr &&right)] *)
Definition UniquePtr_ctor_move (this right : handle) : M unit :=
  let* o := unique_object right in
  declare_unique this {| UniquePtr.object := o |} >>
  set_unique_object right nullptr.

(** [operator=(UniquePtr &&right)] *)
Definition UniquePtr_move_assign (this right : handle) : M unit :=
  let* o := unique_object this in
  (if decide (o ≠ nullptr) then delete_object o else ret tt) >>
  let* o' := unique_object right in
  set_unique_object this o' >>
  set_unique_object right nullptr.

(** [~UniquePtr()] *)
Definition UniquePtr_dtor (this : handle) : M unit :=
  let* o := unique_object this in
  delete_object o >>
  retire_unique this.

Definition UniquePtr_get (this : handle) : M ptr := unique_object this.

Definition UniquePtr_release (this : handle) : M ptr :=
  let* copy := unique_object this in
  set_unique_object this nullptr >>
  ret copy.

Definition UniquePtr_reset (this : handle) (pointer : ptr) : M unit :=
  client_object pointer >>
  let* o := unique_object this in
  (if decide (o ≠ nullptr) then delete_object o else ret tt) >>
  set_unique_object this pointer.

Definition UniquePtr_swap (this other : handle) : M unit :=
  let* temp := unique_object other in
  let* o := unique_object this in
  set_unique_object other o >>
  set_unique_object this temp.

(** ** SharedPtr *)

Definition SharedPtr_deleter (this : handle) : M unit :=
  let* sp := get_shared this in
  if decide (SharedPtr.object sp ≠ nullptr) then
    let* c := ReferenceCounter_remove (SharedPtr.reference sp) in
    if decide (c = 0) then
      delete_object (SharedPtr.object sp) >>
      let* w := ReferenceCounter_getWeak (SharedPtr.reference sp) in
      if decide (w = 0) then delete_counter (SharedPtr.reference sp) else ret tt
    else ret tt
  else ret tt.

(** [SharedPtr()] *)
Definition SharedPtr_ctor (this : handle) : M unit :=
  declare_shared this {| SharedPtr.object := nullptr; SharedPtr.reference := nullptr |}.

(** [SharedPtr(T *pointer)] *)
Definition SharedPtr_ctor_ptr `{Allocator} (this : handle) (pointer : ptr) : M unit :=
  client_object pointer >>
  let* r := new_ReferenceCounter in
  declare_shared this {| SharedPtr.object := pointer; SharedPtr.reference := r |} >>
  let* r' := shared_reference this in
  ReferenceCounter_add r'.

(** [SharedPtr(const SharedPtr &right)] *)
Definition SharedPtr_ctor_copy (this right : handle) : M unit :=
  let* sp := get_shared right in
  declare_shared this {| SharedPtr.object := SharedPtr.object sp;
                         SharedPtr.reference := SharedPtr.reference sp |} >>
  let* r := shared_reference this in
  if decide (r ≠ nullptr) then ReferenceCounter_add r else ret tt.

(** [SharedPtr(const WeakPtr &right)] *)
Definition SharedPtr_ctor_weak (this right : handle) : M unit :=
  let* wp := get_weak right in
  declare_shared this {| SharedPtr.object := WeakPtr.pointer wp;
                         SharedPtr.reference := WeakPtr.reference wp |} >>
  let* r := shared_reference this in
  if decide (r ≠ nullptr) then ReferenceCounter_add r else ret tt.

(** [SharedPtr(SharedPtr &&right)] *)
Definition SharedPtr_ctor_move (this right : handle) : M unit :=
  let* sp := get_shared right in
  declare_shared this {| SharedPtr.object := SharedPtr.object sp;
                         SharedPtr.reference := SharedPtr.reference sp |} >>
  set_shared_object right nullptr >>
  set_shared_reference right nullptr.

(** [~SharedPtr()] *)
Definition SharedPtr_dtor (this : handle) : M unit :=
  SharedPtr_deleter this >>
  retire_shared this.

(** [operator=(const SharedPtr &right)] *)
Definition SharedPtr_assign (this right : handle) : M unit :=
  if decide (this = right) then get_shared this >> ret tt
  else
    SharedPtr_deleter this >>
    let* o := shared_object right in
    set_shared_object this o >>
    let* r := shared_reference right in
    set_shared_reference this r >>
    let* r' := shared_reference this in
    ReferenceCounter_add r'.

(** [operator=(SharedPtr &&right)] *)
Definition SharedPtr_move_assign (this right : handle) : M unit :=
  if decide (this = right) then get_shared this >> ret tt
  else
    SharedPtr_deleter this >>
    let* o := shared_object right in
    set_shared_object this o >>
    let* r := shared_reference right in
    set_shared_reference this r >>
    set_shared_object right nullptr >>
    set_shared_reference right nullptr.

Definition SharedPtr_get (this : handle) : M ptr := shared_object this.

Definition SharedPtr_use_count (this : handle) : M Z :=
  let* r := shared_reference this in
  if decide (r ≠ nullptr) then ReferenceCounter_get r else ret 0.

(** [reset(U *pointer)] *)
Definition SharedPtr_reset_ptr `{Allocator} (this : handle) (pointer : ptr) : M unit :=
  client_object pointer >>
  SharedPtr_deleter this >>
  if decide (pointer ≠ nullptr) then
    set_shared_object this pointer >>
    let* r := new_ReferenceCounter in
    set_shared_reference this r >>
    let* r' := shared_reference this in
    ReferenceCounter_add r'
  else
    set_shared_object this nullptr >>
    set_shared_reference this nullptr.

(** [reset()] *)
Definition SharedPtr_reset (this : handle) : M unit :=
  SharedPtr_deleter this >>
  set_shared_object this nullptr >>
  set_shared_reference this nullptr.

Definition SharedPtr_swap (this other : handle) : M unit :=
  let* temp := shared_object other in
  let* o := shared_object this in
  set_shared_object other o >>
  set_shared_object this temp >>
  let* ref := shared_reference other in
  let* r := shared_reference this in
  set_shared_reference other r >>
  set_shared_reference this ref.

(** ** WeakPtr *)

(** The conjunction is evaluated left to right and stops at the first false
    conjunct: [removeWeak] runs only when [reference] is not null and the
    strong count is zero. *)
Definition WeakPtr_deleter (this : handle) : M unit :=
  let* wp := get_weak this in
  if decide (WeakPtr.reference wp ≠ nullptr) then
    let* c := ReferenceCounter_get (WeakPtr.reference wp) in
    if decide (c = 0) then
      let* w := ReferenceCounter_removeWeak (WeakPtr.reference wp) in
      if decide (w = 0) then delete_counter (WeakPtr.reference wp) else ret tt
    else ret tt
  else ret tt.

(** [WeakPtr()] *)
Definition WeakPtr_ctor (this : handle) : M unit :=
  declare_weak this {| WeakPtr.pointer := nullptr; WeakPtr.reference := nullptr |}.

(** [WeakPtr(const SharedPtr &from)] *)
Definition WeakPtr_ctor_shared (this from : handle) : M unit :=
  let* sp := get_shared from in
  declare_weak this {| WeakPtr.pointer := SharedPtr.object sp;
                       WeakPtr.reference := SharedPtr.reference sp |} >>
  let* r := weak_reference this in
  ReferenceCounter_addWeak r.

(** [WeakPtr(const WeakPtr &right)] *)
Definition WeakPtr_ctor_copy (this right : handle) : M unit :=
  let* wp := get_weak right in
  declare_weak this {| WeakPtr.pointer := WeakPtr.pointer wp;
                       WeakPtr.reference := WeakPtr.reference wp |} >>
  let* r := weak_reference this in
  ReferenceCounter_addWeak r.

(** [WeakPtr(WeakPtr &&right)] *)
Definition WeakPtr_ctor_move (this right : handle) : M unit :=
  let* wp := get_weak right in
  declare_weak this {| WeakPtr.pointer := WeakPtr.pointer wp;
                       WeakPtr.reference := WeakPtr.reference wp |} >>
  set_weak_pointer right nullptr >>
  set_weak_reference right nullptr.

(** [~WeakPtr()] *)
Definition WeakPtr_dtor (this : handle) : M unit :=
  WeakPtr_deleter this >>
  retire_weak this.

(** [operator=(const WeakPtr &right)] *)
Definition WeakPtr_assign (this right : handle) : M unit :=
  if decide (this = right) then get_weak this >> ret tt
  else
    WeakPtr_deleter this >>
    let* p := weak_pointer right in
    set_weak_pointer this p >>
    let* r := weak_reference right in
    set_weak_reference this r >>
    let* r' := weak_reference this in
    ReferenceCounter_addWeak r'.

(** [operator=(const SharedPtr &right)] *)
Definition WeakPtr_assign_shared (this right : handle) : M unit :=
  WeakPtr_deleter this >>
  let* p := shared_object right in
  set_weak_pointer this p >>
  let* r := shared_reference right in
  set_weak_reference this r >>
  let* r' := weak_reference this in
  ReferenceCounter_addWeak r'.

(** [operator=(WeakPtr &&right)] *)
Definition WeakPtr_move_assign (this right : handle) : M unit :=
  if decide (this = right) then get_weak this >> ret tt
  else
    WeakPtr_deleter this >>
    let* p := weak_pointer right in
    set_weak_pointer this p >>
    let* r := weak_reference right in
    set_weak_reference this r >>
    set_weak_pointer right nullptr >>
    set_weak_reference right nullptr.

Definition WeakPtr_use_count (this : handle) : M Z :=
  let* r := weak_reference this in
  if decide (r ≠ nullptr) then ReferenceCounter_get r else ret 0.

Definition WeakPtr_expired (this : handle) : M bool :=
  let* c := WeakPtr_use_count this in
  ret (bool_decide (c = 0)).

(** [lock()]; the returned handle is the variable [result]. *)
Definition WeakPtr_lock (this result : handle) : M unit :=
  let* e := WeakPtr_expired this in
  if e then SharedPtr_ctor result else SharedPtr_ctor_weak result this.

Definition WeakPtr_reset (this : handle) : M unit :=
  WeakPtr_deleter this >>
  set_weak_pointer this nullptr >>
  set_weak_reference this nullptr.

Definition WeakPtr_swap (this other : handle) : M unit :=
  let* temp := weak_pointer other in
  let* p := weak_pointer this in
  set_weak_pointer other p >>
  set_weak_pointer this temp >>
  let* ref := weak_reference other in
  let* r := weak_reference this in
  set_weak_reference other r >>
  set_weak_reference this ref.

(** ** Client programs *)

(** One statement of a client: a declaration, a member call, or the end of a
    variable's lifetime. *)
Inductive op :=
  | UNew (u : handle)                    (* UniquePtr<T> u; *)
  | UNewPtr (u : handle) (p : ptr)       (* UniquePtr<T> u(p); *)
  | UNewMove (u v : handle)              (* UniquePtr<T> u(std::move(v)); *)
  | UMoveAssign (u v : handle)           (* u = std::move(v); *)
  | URelease (u : handle)                (* u.release(); *)
  | UReset (u : handle) (p : ptr)        (* u.reset(p); *)
  | USwap (u v : handle)                 (* u.swap(v); *)
  | UDelete (u : handle)                 (* u goes out of scope *)
  | SNew (a : handle)                    (* SharedPtr<T> a; *)
  | SNewPtr (a : handle) (p : ptr)       (* SharedPtr<T> a(p); *)
  | SNewCopy (a b : handle)              (* SharedPtr<T> a(b); *)
  | SNewWeak (a w : handle)              (* SharedPtr<T> a(w); *)
  | SNewMove (a b : handle)              (* SharedPtr<T> a(std::move(b)); *)
  | SAssign (a b : handle)               (* a = b; *)
  | SMoveAssign (a b : handle)           (* a = std::move(b); *)
  | SReset (a : handle)                  (* a.reset(); *)
  | SResetPtr (a : handle) (p : ptr)     (* a.reset(p); *)
  | SSwap (a b : handle)                 (* a.swap(b); *)
  | SDelete (a : handle)                 (* a goes out of scope *)
  | WNew (w : handle)                    (* WeakPtr<T> w; *)
  | WNewShared (w a : handle)            (* WeakPtr<T> w(a); *)
  | WNewCopy (w v : handle)              (* WeakPtr<T> w(v); *)
  | WNewMove (w v : handle)              (* WeakPtr<T> w(std::move(v)); *)
  | WAssign (w v : handle)               (* w = v; *)
  | WAssignShared (w a : handle)         (* w = a; *)
  | WMoveAssign (w v : handle)           (* w = std::move(v); *)
  | WLock (w a : handle)                 (* SharedPtr<T> a = w.lock(); *)
  | WReset (w : handle)                  (* w.reset(); *)
  | WSwap (w v : handle)                 (* w.swap(v); *)
  | WDelete (w : handle).                (* w goes out of scope *)

Definition step `{Allocator} (o : op) : state → result state :=
  match o with
  | UNew u => exec (UniquePtr_ctor u)
  | UNewPtr u p => exec (UniquePtr_ctor_ptr u p)
  | UNewMove u v => exec (UniquePtr_ctor_move u v)
  | UMoveAssign u v => exec (UniquePtr_move_assign u v)
  | URelease u => exec (UniquePtr_release u)
  | UReset u p => exec (UniquePtr_reset u p)
  | USwap u v => exec (UniquePtr_swap u v)
  | UDelete u => exec (UniquePtr_dtor u)
  | SNew a => exec (SharedPtr_ctor a)
  | SNewPtr a p => exec (SharedPtr_ctor_ptr a p)
  | SNewCopy a b => exec (SharedPtr_ctor_copy a b)
  | SNewWeak a w => exec (SharedPtr_ctor_weak a w)
  | SNewMove a b => exec (SharedPtr_ctor_move a b)
  | SAssign a b => exec (SharedPtr_assign a b)
  | SMoveAssign a b => exec (SharedPtr_move_assign a b)
  | SReset a => exec (SharedPtr_reset a)
  | SResetPtr a p => exec (SharedPtr_reset_ptr a p)
  | SSwap a b => exec (SharedPtr_swap a b)
  | SDelete a => exec (SharedPtr_dtor a)
  | WNew w => exec (WeakPtr_ctor w)
  | WNewShared w a => exec (WeakPtr_ctor_shared w a)
  | WNewCopy w v => exec (WeakPtr_ctor_copy w v)
  | WNewMove w v => exec (WeakPtr_ctor_move w v)
  | WAssign w v => exec (WeakPtr_assign w v)
  | WAssignShared w a => exec (WeakPtr_assign_shared w a)
  | WMoveAssign w v => exec (WeakPtr_move_assign w v)
  | WLock w a => exec (WeakPtr_lock w a)
  | WReset w => exec (WeakPtr_reset w)
  | WSwap w v => exec (WeakPtr_swap w v)
  | WDelete w => exec (WeakPtr_dtor w)
  end.

Fixpoint run `{Allocator} (os : list op) (st : state) : result state :=
  match os with
  | [] => Ok st
  | o :: os' =>
      match step o st with
      | Ok st' => run os' st'
      | Fault f => Fault f
      end
  end.

(** What a client reads off a handle. *)
Definition read {A} (m : M A) (st : state) : option A :=
  match m st with
  | Ok (a, _) => Some a
  | Fault _ => None
  end.

(** ** Counting handles *)

Definition indicator (P : Prop) `{Decision P} : Z := if decide P then 1 else 0.

(** The number of variables in a store whose value satisfies [P]. *)
Definition tally {V} (P : V → Prop) `{∀ v, Decision (P v)} (m : gmap handle V) : Z :=
  Z.of_nat (size (filter (λ kv, P kv.2) m)).

(** Live SharedPtr variables that share the counter block [r]. *)
Definition sharing (st : state) (r : ptr) : Z :=
  tally (λ sp, SharedPtr.reference sp = r) (shareds st).

(** Live SharedPtr variables whose object is [p]. *)
Definition owners (st : state) (p : ptr) : Z :=
  tally (λ sp, SharedPtr.object sp = p) (shareds st).

(** How often [e] has happened. *)
Definition occurrences (e : event) (st : state) : nat :=
  count_occ event_eq_dec (trace st) e.

(** SharedPtr and WeakPtr variables on block [r], split by whether they carry
    an object pointer. *)
Definition strong_owners (st : state) (r : ptr) : Z :=
  tally (λ sp, SharedPtr.reference sp = r ∧ SharedPtr.object sp ≠ nullptr) (shareds st).
Definition strong_idle (st : state) (r : ptr) : Z :=
  tally (λ sp, SharedPtr.reference sp = r ∧ SharedPtr.object sp = nullptr) (shareds st).
Definition weak_owners (st : state) (r : ptr) : Z :=
  tally (λ wp, WeakPtr.reference wp = r ∧ WeakPtr.pointer wp ≠ nullptr) (weaks st).
Definition weak_idle (st : state) (r : ptr) : Z :=
  tally (λ wp, WeakPtr.reference wp = r ∧ WeakPtr.pointer wp = nullptr) (weaks st).

(** ** The counting invariant

    What holds of every counter block in every state a client can reach, as
    long as no count exceeds [N].  A block that some variable refers to is
    allocated, and its weak count is at least the number of WeakPtr variables
    on it.  If the variables on the block carry an object, the strong count is
    the number of SharedPtr variables on it; a block made by [SharedPtr(nullptr)]
    is never released, and its strong count only stays positive. *)
Definition block_ok (N : Z) (st : state) (r : ptr) : Prop :=
  if decide (r = nullptr) then strong_owners st r = 0 ∧ weak_owners st r = 0
  else
    0 < strong_owners st r + strong_idle st r + weak_owners st r + weak_idle st r →
    ∃ rc, counters st !! r = Some rc ∧
          0 ≤ count rc ≤ N ∧
          weak_owners st r + weak_idle st r ≤ weak rc ≤ N ∧
          ((strong_idle st r + weak_idle st r = 0 ∧ count rc = strong_owners st r) ∨
           (strong_owners st r + weak_owners st r = 0 ∧ 1 ≤ count rc)).

Definition consistent (N : Z) (st : state) : Prop := ∀ r, block_ok N st r.

(** ** Tracking one object

    SharedPtr variables that disagree on "my object is [X]" and "my block is [r]". *)
Definition mismatched (st : state) (X r : ptr) : Z :=
  tally (λ sp, (SharedPtr.object sp = X ∧ SharedPtr.reference sp ≠ r) ∨
               (SharedPtr.object sp ≠ X ∧ SharedPtr.reference sp = r)) (shareds st).

(** The state of an object [X] that was handed to a SharedPtr once: while some
    variable owns it, it is live, it has not been deleted, and its owners are
    the variables on one block whose strong count is their number; afterwards
    it is gone and has been deleted once. *)
Definition tracked (N : Z) (X : ptr) (st : state) : Prop :=
  0 ≤ owners st X ≤ N ∧
  if decide (owners st X = 0) then
    (X ∉ objects st) ∧ occurrences (DeleteObject X) st = 1%nat
  else
    X ∈ objects st ∧ occurrences (DeleteObject X) st = 0%nat ∧
    ∃ r rc, r ≠ nullptr ∧ counters st !! r = Some rc ∧
            count rc = owners st X ∧ mismatched st X r = 0.

(** The statements of a client that only uses SharedPtr. *)
Definition shared_op (o : op) : bool :=
  match o with
  | SNew _ | SNewPtr _ _ | SNewCopy _ _ | SNewMove _ _ | SAssign _ _
  | SMoveAssign _ _ | SReset _ | SResetPtr _ _ | SSwap _ _ | SDelete _ => true
  | _ => false
  end.

(** The raw pointer a statement hands over to a handle, if any. *)
Definition adopted (o : op) : option ptr :=
  match o with
  | UNewPtr _ p | UReset _ p | SNewPtr _ p | SResetPtr _ p => Some p
  | _ => None
  end.

(** ** What a SharedPtr client owes the library

    A declaration names a new variable, every other statement names live
    variables; a raw pointer handed over is null or an object that no handle
    owns yet (here: one that is not live before the statement); and the source of a
    copy assignment has a block, because [operator=] calls [reference->add()]
    without testing the pointer. *)
Definition ready (o : op) (st : state) : Prop :=
  match o with
  | SNew a => shareds st !! a = None
  | SNewPtr a p => shareds st !! a = None ∧ (p ≠ nullptr → p ∉ objects st)
  | SNewCopy a b | SNewMove a b => shareds st !! a = None ∧ is_Some (shareds st !! b)
  | SAssign a b =>
      is_Some (shareds st !! a) ∧
      ∃ sp, shareds st !! b = Some sp ∧ (a = b ∨ SharedPtr.reference sp ≠ nullptr)
  | SMoveAssign a b | SSwap a b => is_Some (shareds st !! a) ∧ is_Some (shareds st !! b)
  | SReset a | SDelete a => is_Some (shareds st !! a)
  | SResetPtr a p => is_Some (shareds st !! a) ∧ (p ≠ nullptr → p ∉ objects st)
  | _ => False
  end.

(** Every statement is ready when the program gets to it. *)
Fixpoint obeys `{Allocator} (os : list op) (st : state) : Prop :=
  match os with
  | [] => True
  | o :: os' =>
      ready o st ∧
      match step o st with
      | Ok st' => obeys os' st'
      | Fault _ => True
      end
  end.

(** Every object that a SharedPtr holds is live, and the variables that hold
    the same object are on the same block. *)
Definition owned_live (st : state) : Prop :=
  ∀ h sp, shareds st !! h = Some sp →
          SharedPtr.object sp ≠ nullptr → SharedPtr.object sp ∈ objects st.

Definition one_block (st : state) : Prop :=
  ∀ h1 h2 sp1 sp2,
    shareds st !! h1 = Some sp1 → shareds st !! h2 = Some sp2 →
    SharedPtr.object sp1 ≠ nullptr → SharedPtr.object sp1 = SharedPtr.object sp2 →
    SharedPtr.reference sp1 = SharedPtr.reference sp2.

Definition sound (st : state) : Prop := owned_live st ∧ one_block st.

(** No SharedPtr holds [p]. *)
Definition unowned (p : ptr) (st : state) : Prop :=
  ∀ h sp, shareds st !! h = Some sp → SharedPtr.object sp ≠ p.

(** ** Statements as sequences of elementary moves

    Every SharedPtr and WeakPtr statement is a sequence of a few moves, each of
    which keeps the counts and the variables in step. *)
Definition empty_shared : SharedPtr.t :=
  {| SharedPtr.object := nullptr; SharedPtr.reference := nullptr |}.
Definition empty_weak : WeakPtr.t :=
  {| WeakPtr.pointer := nullptr; WeakPtr.reference := nullptr |}.

(** The four ways [SharedPtr::deleter] returns. *)
Inductive shared_released (this : handle) (st : state) : state → Prop :=
  | released_nothing sp :
      shareds st !! this = Some sp →
      SharedPtr.object sp = nullptr →
      shared_released this st st
  | released_share sp rc :
      shareds st !! this = Some sp →
      SharedPtr.object sp ≠ nullptr →
      SharedPtr.reference sp ≠ nullptr →
      counters st !! SharedPtr.reference sp = Some rc →
      wrap (count rc - 1) ≠ 0 →
      shared_released this st
        (with_counters
           (<[SharedPtr.reference sp := {| count := wrap (count rc - 1); weak := weak rc |}]>
              (counters st)) st)
  | released_object sp rc :
      shareds st !! this = Some sp →
      SharedPtr.object sp ≠ nullptr →
      SharedPtr.reference sp ≠ nullptr →
      counters st !! SharedPtr.reference sp = Some rc →
      wrap (count rc - 1) = 0 →
      SharedPtr.object sp ∈ objects st →
      weak rc ≠ 0 →
      shared_released this st
        {| uniques := uniques st; shareds := shareds st; weaks := weaks st;
           counters := <[SharedPtr.reference sp := {| count := 0; weak := weak rc |}]>
                         (counters st);
           objects := objects st ∖ {[SharedPtr.object sp]};
           trace := DeleteObject (SharedPtr.object sp) :: trace st |}
  | released_block sp rc :
      shareds st !! this = Some sp →
      SharedPtr.object sp ≠ nullptr →
      SharedPtr.reference sp ≠ nullptr →
      counters st !! SharedPtr.reference sp = Some rc →
      wrap (count rc - 1) = 0 →
      SharedPtr.object sp ∈ objects st →
      weak rc = 0 →
      shared_released this st
        {| uniques := uniques st; shareds := shareds st; weaks := weaks st;
           counters := delete (SharedPtr.reference sp) (counters st);
           objects := objects st ∖ {[SharedPtr.object sp]};
           trace := DeleteCounter (SharedPtr.reference sp)
                    :: DeleteObject (SharedPtr.object sp) :: trace st |}.

(** The three ways [WeakPtr::deleter] returns. *)
Inductive weak_released (this : handle) (st : state) : state → Prop :=
  | wreleased_nothing wp :
      weaks st !! this = Some wp →
      WeakPtr.reference wp = nullptr ∨
        (∃ rc, counters st !! WeakPtr.reference wp = Some rc ∧ count rc ≠ 0) →
      weak_released this st st
  | wreleased_share wp rc :
      weaks st !! this = Some wp →
      WeakPtr.reference wp ≠ nullptr →
      counters st !! WeakPtr.reference wp = Some rc →
      count rc = 0 →
      wrap (weak rc - 1) ≠ 0 →
      weak_released this st
        (with_counters
           (<[WeakPtr.reference wp := {| count := count rc; weak := wrap (weak rc - 1) |}]>
              (counters st)) st)
  | wreleased_block wp rc :
      weaks st !! this = Some wp →
      WeakPtr.reference wp ≠ nullptr →
      counters st !! WeakPtr.reference wp = Some rc →
      count rc = 0 →
      wrap (weak rc - 1) = 0 →
      weak_released this st
        {| uniques := uniques st; shareds := shareds st; weaks := weaks st;
           counters := delete (WeakPtr.reference wp) (counters st);
           objects := objects st;
           trace := DeleteCounter (WeakPtr.reference wp) :: trace st |}.

Inductive atom :=
  | Live (p : ptr)             (* the client's object at p is live *)
  | Enter (h : handle)         (* a new empty SharedPtr *)
  | Retire (h : handle)          (* an empty SharedPtr goes away *)
  | Release (h : handle)         (* deleter, then the fields are nulled *)
  | Acquire (h s : handle)       (* empty h takes a share of s's block *)
  | Alias (h s : handle)         (* empty h copies s, which has no block *)
  | Promote (h w : handle)       (* empty h takes a share of WeakPtr w's block *)
  | AliasWeak (h w : handle)     (* empty h copies WeakPtr w, which has no block *)
  | Steal (h s : handle)         (* empty h takes over s, s becomes empty *)
  | Adopt (h : handle) (p : ptr) (* empty h gets p and a fresh block *)
  | Exchange (a b : handle)
  | EnterWeak (w : handle)
  | RetireWeak (w : handle)
  | ReleaseWeak (w : handle)
  | Observe (w s : handle)      (* empty w registers on SharedPtr s's block *)
  | CopyWeak (w v : handle)         (* empty w registers on WeakPtr v's block *)
  | StealWeak (w v : handle)
  | ExchangeWeak (w v : handle).

(** Moves that increment a count. *)
Definition weight (a : atom) : Z :=
  match a with
  | Acquire _ _ | Promote _ _ | Adopt _ _ | Observe _ _ | CopyWeak _ _ => 1
  | _ => 0
  end.

Inductive atom_step `{Allocator} : atom → state → state → Prop :=
  | do_client p st st' :
      client_object p st = Ok (tt, st') →
      atom_step (Live p) st st'
  | do_declare h st :
      shareds st !! h = None →
      atom_step (Enter h) st (with_shareds (<[h := empty_shared]> (shareds st)) st)
  | do_retire h st :
      shareds st !! h = Some empty_shared →
      atom_step (Retire h) st (with_shareds (delete h (shareds st)) st)
  | do_release h st st1 :
      shared_released h st st1 →
      atom_step (Release h) st (with_shareds (<[h := empty_shared]> (shareds st1)) st1)
  | do_acquire h s sp rc st :
      shareds st !! h = Some empty_shared →
      shareds st !! s = Some sp →
      SharedPtr.reference sp ≠ nullptr →
      counters st !! SharedPtr.reference sp = Some rc →
      atom_step (Acquire h s) st
        (with_counters
           (<[SharedPtr.reference sp := {| count := wrap (count rc + 1); weak := weak rc |}]>
              (counters st))
           (with_shareds (<[h := sp]> (shareds st)) st))
  | do_alias h s sp st :
      shareds st !! h = Some empty_shared →
      shareds st !! s = Some sp →
      SharedPtr.reference sp = nullptr →
      atom_step (Alias h s) st (with_shareds (<[h := sp]> (shareds st)) st)
  | do_promote h w wp rc st :
      shareds st !! h = Some empty_shared →
      weaks st !! w = Some wp →
      WeakPtr.reference wp ≠ nullptr →
      counters st !! WeakPtr.reference wp = Some rc →
      atom_step (Promote h w) st
        (with_counters
           (<[WeakPtr.reference wp := {| count := wrap (count rc + 1); weak := weak rc |}]>
              (counters st))
           (with_shareds
              (<[h := {| SharedPtr.object := WeakPtr.pointer wp;
                         SharedPtr.reference := WeakPtr.reference wp |}]> (shareds st)) st))
  | do_alias_weak h w wp st :
      shareds st !! h = Some empty_shared →
      weaks st !! w = Some wp →
      WeakPtr.reference wp = nullptr →
      atom_step (AliasWeak h w) st
        (with_shareds
           (<[h := {| SharedPtr.object := WeakPtr.pointer wp;
                      SharedPtr.reference := WeakPtr.reference wp |}]> (shareds st)) st)
  | do_steal h s sp st :
      shareds st !! h = Some empty_shared →
      shareds st !! s = Some sp →
      h ≠ s →
      atom_step (Steal h s) st
        (with_shareds (<[s := empty_shared]> (<[h := sp]> (shareds st))) st)
  | do_adopt h p st :
      shareds st !! h = Some empty_shared →
      atom_step (Adopt h p) st
        (with_counters
           (<[new_address (dom (counters st)) := {| count := wrap (0 + 1); weak := 0 |}]>
              (counters st))
           (with_shareds
              (<[h := {| SharedPtr.object := p;
                         SharedPtr.reference := new_address (dom (counters st)) |}]>
                 (shareds st)) st))
  | do_swap a b sa sb st :
      shareds st !! a = Some sa →
      shareds st !! b = Some sb →
      atom_step (Exchange a b) st (with_shareds (<[a := sb]> (<[b := sa]> (shareds st))) st)
  | do_wdeclare w st :
      weaks st !! w = None →
      atom_step (EnterWeak w) st (with_weaks (<[w := empty_weak]> (weaks st)) st)
  | do_wretire w st :
      weaks st !! w = Some empty_weak →
      atom_step (RetireWeak w) st (with_weaks (delete w (weaks st)) st)
  | do_wrelease w st st1 :
      weak_released w st st1 →
      atom_step (ReleaseWeak w) st (with_weaks (<[w := empty_weak]> (weaks st1)) st1)
  | do_wobserve w s sp rc st :
      weaks st !! w = Some empty_weak →
      shareds st !! s = Some sp →
      SharedPtr.reference sp ≠ nullptr →
      counters st !! SharedPtr.reference sp = Some rc →
      atom_step (Observe w s) st
        (with_counters
           (<[SharedPtr.reference sp := {| count := count rc; weak := wrap (weak rc + 1) |}]>
              (counters st))
           (with_weaks
              (<[w := {| WeakPtr.pointer := SharedPtr.object sp;
                         WeakPtr.reference := SharedPtr.reference sp |}]> (weaks st)) st))
  | do_wcopy w v wp rc st :
      weaks st !! w = Some empty_weak →
      weaks st !! v = Some wp →
      WeakPtr.reference wp ≠ nullptr →
      counters st !! WeakPtr.reference wp = Some rc →
      atom_step (CopyWeak w v) st
        (with_counters
           (<[WeakPtr.reference wp := {| count := count rc; weak := wrap (weak rc + 1) |}]>
              (counters st))
           (with_weaks (<[w := wp]> (weaks st)) st))
  | do_wsteal w v wp st :
      weaks st !! w = Some empty_weak →
      weaks st !! v = Some wp →
      w ≠ v →
      atom_step (StealWeak w v) st
        (with_weaks (<[v := empty_weak]> (<[w := wp]> (weaks st))) st)
  | do_wswap w v wa wb st :
      weaks st !! w = Some wa →
      weaks st !! v = Some wb →
      atom_step (ExchangeWeak w v) st (with_weaks (<[w := wb]> (<[v := wa]> (weaks st))) st).

Inductive atoms_run `{Allocator} : list atom → state → state → Prop :=
  | run_done st st' : st = st' → atoms_run [] st st'
  | run_next a l st st1 st2 :
      atom_step a st st1 → atoms_run l st1 st2 → atoms_run (a :: l) st st2.

(** The moves a statement can make. *)
Inductive plan : op → list atom → Prop :=
  | plan_SNew a : plan (SNew a) [Enter a]
  | plan_SNewPtr a p : plan (SNewPtr a p) [Live p; Enter a; Adopt a p]
  | plan_SNewCopy a b : plan (SNewCopy a b) [Enter a; Acquire a b]
  | plan_SNewCopy_empty a b : plan (SNewCopy a b) [Enter a; Alias a b]
  | plan_SNewWeak a w : plan (SNewWeak a w) [Enter a; Promote a w]
  | plan_SNewWeak_empty a w : plan (SNewWeak a w) [Enter a; AliasWeak a w]
  | plan_SNewMove a b : plan (SNewMove a b) [Enter a; Steal a b]
  | plan_SAssign_self a : plan (SAssign a a) []
  | plan_SAssign a b : plan (SAssign a b) [Release a; Acquire a b]
  | plan_SMoveAssign_self a : plan (SMoveAssign a a) []
  | plan_SMoveAssign a b : plan (SMoveAssign a b) [Release a; Steal a b]
  | plan_SReset a : plan (SReset a) [Release a]
  | plan_SResetPtr a p : plan (SResetPtr a p) [Live p; Release a; Adopt a p]
  | plan_SResetPtr_null a p : plan (SResetPtr a p) [Live p; Release a]
  | plan_SSwap a b : plan (SSwap a b) [Exchange a b]
  | plan_SDelete a : plan (SDelete a) [Release a; Retire a]
  | plan_WNew w : plan (WNew w) [EnterWeak w]
  | plan_WNewShared w a : plan (WNewShared w a) [EnterWeak w; Observe w a]
  | plan_WNewCopy w v : plan (WNewCopy w v) [EnterWeak w; CopyWeak w v]
  | plan_WNewMove w v : plan (WNewMove w v) [EnterWeak w; StealWeak w v]
  | plan_WAssign_self w : plan (WAssign w w) []
  | plan_WAssign w v : plan (WAssign w v) [ReleaseWeak w; CopyWeak w v]
  | plan_WAssignShared w a : plan (WAssignShared w a) [ReleaseWeak w; Observe w a]
  | plan_WMoveAssign_self w : plan (WMoveAssign w w) []
  | plan_WMoveAssign w v : plan (WMoveAssign w v) [ReleaseWeak w; StealWeak w v]
  | plan_WLock_expired w a : plan (WLock w a) [Enter a]
  | plan_WLock w a : plan (WLock w a) [Enter a; Promote a w]
  | plan_WReset w : plan (WReset w) [ReleaseWeak w]
  | plan_WSwap w v : plan (WSwap w v) [ExchangeWeak w v]
  | plan_WDelete w : plan (WDelete w) [ReleaseWeak w; RetireWeak w].

Definition total_weight (l : list atom) : Z := foldr (λ a n, weight a + n) 0 l.

(** The moves of a client that only uses SharedPtr. *)
Definition shared_atom (a : atom) : bool :=
  match a with
  | Live _ | Enter _ | Retire _ | Release _ | Acquire _ _ | Alias _ _
  | Steal _ _ | Adopt _ _ | Exchange _ _ => true
  | _ => false
  end.

(** The raw pointer a move brings in, if any. *)
Definition introduces (a : atom) : option ptr :=
  match a with
  | Live p | Adopt _ p => Some p
  | _ => None
  end.

Definition unique_op (o : op) : bool :=
  match o with
  | UNew _ | UNewPtr _ _ | UNewMove _ _ | UMoveAssign _ _ | URelease _
  | UReset _ _ | USwap _ _ | UDelete _ => true
  | _ => false
  end.

(** ** The release rule in the words of the specification

    "Decrement weak count; if weak reaches zero AND strong count is already
    zero, deallocate the block." *)
Definition WeakPtr_release_spec (this : handle) : M unit :=
  let* wp := get_weak this in
  if decide (WeakPtr.reference wp ≠ nullptr) then
    let* w := ReferenceCounter_removeWeak (WeakPtr.reference wp) in
    let* c := ReferenceCounter_get (WeakPtr.reference wp) in
    if decide (w = 0 ∧ c = 0) then delete_counter (WeakPtr.reference wp) else ret tt
  else ret tt.

(** ** Dereferencing

    [operator*] is [*get()] and [operator->] is [get()].  Reading through a
    raw pointer needs a live object there. *)
Definition load_object (p : ptr) : M ptr := λ st,
  if decide (p = nullptr) then Fault NullDeref
  else if decide (p ∈ objects st) then Ok (p, st)
  else Fault UseAfterFree.

(** [UniquePtr::operator*] and [UniquePtr::operator->] *)
Definition UniquePtr_deref (this : handle) : M ptr :=
  let* p := UniquePtr_get this in load_object p.
Definition UniquePtr_arrow (this : handle) : M ptr := UniquePtr_get this.

(** [SharedPtr::operator*] and [SharedPtr::operator->] *)
Definition SharedPtr_deref (this : handle) : M ptr :=
  let* p := SharedPtr_get this in load_object p.
Definition SharedPtr_arrow (this : handle) : M ptr := SharedPtr_get this.

(** ** What a UniquePtr client owes the library

    No UniquePtr holds [p]. *)
Definition unheld (p : ptr) (st : state) : Prop :=
  map_Forall (λ _ u, UniquePtr.object u ≠ p) (uniques st).

(** A declaration names a new variable, every other statement names live
    variables, and a raw pointer handed over is null or held by no UniquePtr. *)
Definition unique_ready (o : op) (st : state) : Prop :=
  match o with
  | UNew u => uniques st !! u = None
  | UNewPtr u p => uniques st !! u = None ∧ (p ≠ nullptr → unheld p st)
  | UNewMove u v => uniques st !! u = None ∧ is_Some (uniques st !! v)
  | UMoveAssign u v | USwap u v => is_Some (uniques st !! u) ∧ is_Some (uniques st !! v)
  | URelease u | UDelete u => is_Some (uniques st !! u)
  | UReset u p => is_Some (uniques st !! u) ∧ (p ≠ nullptr → unheld p st)
  | _ => False
  end.

Fixpoint unique_obeys `{Allocator} (os : list op) (st : state) : Prop :=
  match os with
  | [] => True
  | o :: os' =>
      unique_ready o st ∧
      match step o st with
      | Ok st' => unique_obeys os' st'
      | Fault _ => True
      end
  end.

(** No two UniquePtr variables hold the same object, and every object that a
    UniquePtr holds is live. *)
Definition exclusive (st : state) : Prop :=
  ∀ h1 h2 u1 u2,
    uniques st !! h1 = Some u1 → uniques st !! h2 = Some u2 →
    UniquePtr.object u1 ≠ nullptr → UniquePtr.object u1 = UniquePtr.object u2 →
    h1 = h2.

Definition held_live (st : state) : Prop :=
  ∀ h u, uniques st !! h = Some u →
         UniquePtr.object u ≠ nullptr → UniquePtr.object u ∈ objects st.

(** ** Deletions of a client without WeakPtr

    No block has an observer. *)
Definition unobserved (st : state) : Prop :=
  ∀ r rc, counters st !! r = Some rc → weak rc = 0.

(** The deletions come in pairs, the object and then its block (the latest
    deletion is the head of the trace). *)
Fixpoint paired (t : list event) : Prop :=
  match t with
  | [] => True
  | DeleteCounter _ :: DeleteObject _ :: t' => paired t'
  | _ => False
  end.

(** ** Owners and observers keep separate books

    The statements on WeakPtr variables other than [lock()]. *)
Definition observer_op (o : op) : bool :=
  match o with
  | WNew _ | WNewShared _ _ | WNewCopy _ _ | WNewMove _ _ | WAssign _ _
  | WAssignShared _ _ | WMoveAssign _ _ | WReset _ | WSwap _ _ | WDelete _ => true
  | _ => false
  end.

(** From [st] to [st'] no object was created or deleted, no UniquePtr or
    SharedPtr changed, every block that is still there has the strong count it
    had, and a block that is gone had strong count 0. *)
Definition leaves_owners (st st' : state) : Prop :=
  objects st' = objects st ∧ shareds st' = shareds st ∧ uniques st' = uniques st ∧
  (∀ X, occurrences (DeleteObject X) st' = occurrences (DeleteObject X) st) ∧
  (∀ r rc', counters st' !! r = Some rc' →
            ∃ rc, counters st !! r = Some rc ∧ count rc' = count rc) ∧
  (∀ r rc, counters st !! r = Some rc → counters st' !! r = None → count rc = 0).

(** From [st] to [st'] no UniquePtr or WeakPtr changed, every block has the
    weak count it had, or 0 if it is new, and a block that is gone had weak
    count 0. *)
Definition leaves_observers (st st' : state) : Prop :=
  weaks st' = weaks st ∧ uniques st' = uniques st ∧
  (∀ r rc', counters st' !! r = Some rc' →
            match counters st !! r with
            | Some rc => weak rc' = weak rc
            | None => weak rc' = 0
            end) ∧
  (∀ r rc, counters st !! r = Some rc → counters st' !! r = None → weak rc = 0).

(** * Reasoning about computations *)

(** ** Running a computation forwards *)

Ltac unfold_model :=
  unfold step, read, exec,
    UniquePtr_ctor, UniquePtr_ctor_ptr, UniquePtr_ctor_move, UniquePtr_move_assign,
    UniquePtr_dtor, UniquePtr_get, UniquePtr_release, UniquePtr_reset, UniquePtr_swap,
    SharedPtr_dtor, SharedPtr_reset, SharedPtr_reset_ptr, SharedPtr_assign,
    SharedPtr_move_assign, SharedPtr_ctor, SharedPtr_ctor_ptr, SharedPtr_ctor_copy,
    SharedPtr_ctor_weak, SharedPtr_ctor_move, SharedPtr_get, SharedPtr_use_count,
    SharedPtr_swap, SharedPtr_deleter,
    WeakPtr_dtor, WeakPtr_reset, WeakPtr_assign, WeakPtr_assign_shared,
    WeakPtr_move_assign, WeakPtr_ctor, WeakPtr_ctor_shared, WeakPtr_ctor_copy,
    WeakPtr_ctor_move, WeakPtr_lock, WeakPtr_expired, WeakPtr_use_count, WeakPtr_swap,
    WeakPtr_deleter,
    ReferenceCounter_add, ReferenceCounter_remove, ReferenceCounter_get,
    ReferenceCounter_addWeak, ReferenceCounter_removeWeak, ReferenceCounter_getWeak,
    new_ReferenceCounter,
    load_counter, store_counter, delete_counter, delete_object, client_object,
    shared_object, shared_reference, set_shared_object, set_shared_reference,
    weak_pointer, weak_reference, set_weak_pointer, set_weak_reference,
    unique_object, set_unique_object,
    get_shared, put_shared, declare_shared, retire_shared,
    get_weak, put_weak, declare_weak, retire_weak,
    get_unique, put_unique, declare_unique, retire_unique,
    with_shareds, with_weaks, with_counters, with_uniques, bind, ret.

Ltac mrun1 :=
  first
    [ rewrite lookup_insert_eq
    | rewrite lookup_insert_ne by congruence
    | rewrite lookup_delete_eq
    | rewrite lookup_delete_ne by congruence
    | match goal with
      | H : ?m !! ?k = _ |- context [?m !! ?k] => rewrite H
      | |- context [decide ?P] =>
          first [ rewrite (decide_True (P := P)) by (done || congruence)
                | rewrite (decide_False (P := P))
                    by (done || congruence || (intros ?; congruence)) ]
      | |- context [bool_decide ?P] =>
          first [ rewrite (bool_decide_eq_true_2 P) by (done || congruence)
                | rewrite (bool_decide_eq_false_2 P) by (done || congruence) ]
      end ].

Ltac mrun := repeat (progress unfold_model); cbn; repeat (mrun1; cbn).

(** ** Reading a successful run backwards *)

Section inversion.
Context {A B : Type}.

Lemma bind_Ok (m : M A) (k : A → M B) st b st' :
  bind m k st = Ok (b, st') ↔ ∃ a st1, m st = Ok (a, st1) ∧ k a st1 = Ok (b, st').
Proof.
  unfold bind. split.
  - destruct (m st) as [[a st1]|]; [eauto | done].
  - intros (a & st1 & -> & ?). done.
Qed.

Lemma exec_Ok (m : M A) st st' :
  exec m st = Ok st' ↔ ∃ a, m st = Ok (a, st').
Proof.
  unfold exec. split.
  - destruct (m st) as [[a st1]|]; [|done]. intros [= ->]. eauto.
  - intros [a ->]. done.
Qed.

Lemma ret_Ok (a a' : A) st st' : ret a st = Ok (a', st') ↔ a' = a ∧ st' = st.
Proof. unfold ret. split; [by intros [= -> ->] | by intros [-> ->]]. Qed.
End inversion.

Lemma get_unique_Ok h st u st' :
  get_unique h st = Ok (u, st') ↔ uniques st !! h = Some u ∧ st' = st.
Proof.
  unfold get_unique. destruct (uniques st !! h); split; try done.
  - by intros [= -> ->].
  - by intros [[= ->] ->].
  - by intros [? _].
Qed.

Lemma put_unique_Ok h u st x st' :
  put_unique h u st = Ok (x, st') ↔ st' = with_uniques (<[h := u]> (uniques st)) st.
Proof. unfold put_unique. split; [by intros [= <-] | intros ->; by destruct x]. Qed.

Lemma declare_unique_Ok h u st x st' :
  declare_unique h u st = Ok (x, st') ↔
    uniques st !! h = None ∧ st' = with_uniques (<[h := u]> (uniques st)) st.
Proof.
  unfold declare_unique. destruct x, (uniques st !! h); split; try done.
  - by intros [? _].
  - by intros [= <-].
  - by intros [_ ->].
Qed.

Lemma retire_unique_Ok h st x st' :
  retire_unique h st = Ok (x, st') ↔ st' = with_uniques (delete h (uniques st)) st.
Proof. unfold retire_unique. split; [by intros [= <-] | intros ->; by destruct x]. Qed.

Lemma get_shared_Ok h st sp st' :
  get_shared h st = Ok (sp, st') ↔ shareds st !! h = Some sp ∧ st' = st.
Proof.
  unfold get_shared. destruct (shareds st !! h); split; try done.
  - by intros [= -> ->].
  - by intros [[= ->] ->].
  - by intros [? _].
Qed.

Lemma put_shared_Ok h sp st x st' :
  put_shared h sp st = Ok (x, st') ↔ st' = with_shareds (<[h := sp]> (shareds st)) st.
Proof. unfold put_shared. split; [by intros [= <-] | intros ->; by destruct x]. Qed.

Lemma declare_shared_Ok h sp st x st' :
  declare_shared h sp st = Ok (x, st') ↔
    shareds st !! h = None ∧ st' = with_shareds (<[h := sp]> (shareds st)) st.
Proof.
  unfold declare_shared. destruct x, (shareds st !! h); split; try done.
  - by intros [? _].
  - by intros [= <-].
  - by intros [_ ->].
Qed.

Lemma retire_shared_Ok h st x st' :
  retire_shared h st = Ok (x, st') ↔ st' = with_shareds (delete h (shareds st)) st.
Proof. unfold retire_shared. split; [by intros [= <-] | intros ->; by destruct x]. Qed.

Lemma get_weak_Ok h st wp st' :
  get_weak h st = Ok (wp, st') ↔ weaks st !! h = Some wp ∧ st' = st.
Proof.
  unfold get_weak. destruct (weaks st !! h); split; try done.
  - by intros [= -> ->].
  - by intros [[= ->] ->].
  - by intros [? _].
Qed.

Lemma put_weak_Ok h wp st x st' :
  put_weak h wp st = Ok (x, st') ↔ st' = with_weaks (<[h := wp]> (weaks st)) st.
Proof. unfold put_weak. split; [by intros [= <-] | intros ->; by destruct x]. Qed.

Lemma declare_weak_Ok h wp st x st' :
  declare_weak h wp st = Ok (x, st') ↔
    weaks st !! h = None ∧ st' = with_weaks (<[h := wp]> (weaks st)) st.
Proof.
  unfold declare_weak. destruct x, (weaks st !! h); split; try done.
  - by intros [? _].
  - by intros [= <-].
  - by intros [_ ->].
Qed.

Lemma retire_weak_Ok h st x st' :
  retire_weak h st = Ok (x, st') ↔ st' = with_weaks (delete h (weaks st)) st.
Proof. unfold retire_weak. split; [by intros [= <-] | intros ->; by destruct x]. Qed.

Lemma load_counter_Ok r st rc st' :
  load_counter r st = Ok (rc, st') ↔
    r ≠ nullptr ∧ counters st !! r = Some rc ∧ st' = st.
Proof.
  unfold load_counter. case_decide.
  - split; [done | by intros [? _]].
  - destruct (counters st !! r); split; try done.
    + by intros [= -> ->].
    + by intros (_ & [= ->] & ->).
    + by intros (_ & ? & _).
Qed.

Lemma store_counter_Ok r rc st x st' :
  store_counter r rc st = Ok (x, st') ↔
    st' = with_counters (<[r := rc]> (counters st)) st.
Proof. unfold store_counter. split; [by intros [= <-] | intros ->; by destruct x]. Qed.

Lemma new_ReferenceCounter_Ok `{alloc : Allocator} st r st' :
  new_ReferenceCounter st = Ok (r, st') ↔
    r = new_address (dom (counters st)) ∧
    st' = with_counters (<[r := {| count := 0; weak := 0 |}]> (counters st)) st.
Proof.
  unfold new_ReferenceCounter. split; [by intros [= <- <-] | by intros [-> ->]].
Qed.

Lemma delete_object_Ok p st x st' :
  delete_object p st = Ok (x, st') ↔
    (p = nullptr ∧ st' = st) ∨
    (p ≠ nullptr ∧ p ∈ objects st ∧
     st' = {| uniques := uniques st; shareds := shareds st; weaks := weaks st;
              counters := counters st; objects := objects st ∖ {[p]};
              trace := DeleteObject p :: trace st |}).
Proof.
  unfold delete_object. destruct x. repeat case_decide; split; naive_solver.
Qed.

Lemma delete_counter_Ok r st x st' :
  delete_counter r st = Ok (x, st') ↔
    (r = nullptr ∧ st' = st) ∨
    (r ≠ nullptr ∧ is_Some (counters st !! r) ∧
     st' = {| uniques := uniques st; shareds := shareds st; weaks := weaks st;
              counters := delete r (counters st); objects := objects st;
              trace := DeleteCounter r :: trace st |}).
Proof.
  unfold delete_counter. destruct x. case_decide; [naive_solver|].
  destruct (counters st !! r) eqn:E; split; naive_solver.
Qed.

Lemma client_object_Ok p st x st' :
  client_object p st = Ok (x, st') ↔
    st' = {| uniques := uniques st; shareds := shareds st; weaks := weaks st;
             counters := counters st;
             objects := if decide (p = nullptr) then objects st else {[p]} ∪ objects st;
             trace := trace st |}.
Proof.
  unfold client_object. destruct x, st. cbn. case_decide; split; naive_solver.
Qed.

Ltac norm_lookups :=
  repeat match goal with
  | H : context [<[?k := _]> _ !! ?k] |- _ => rewrite lookup_insert_eq in H
  | H : context [<[?k := _]> _ !! ?j] |- _ => rewrite lookup_insert_ne in H by congruence
  | H : context [delete ?k _ !! ?k] |- _ => rewrite lookup_delete_eq in H
  | H : context [delete ?k _ !! ?j] |- _ => rewrite lookup_delete_ne in H by congruence
  end.

(** * Counting *)

Lemma wrap_small z : 0 ≤ z < 2 ^ 64 → wrap z = z.
Proof. intros. unfold wrap. by apply Z.mod_small. Qed.

Lemma wrap_pred_zero z : 0 ≤ z < 2 ^ 64 → wrap (z - 1) = 0 → z = 1.
Proof.
  intros Hz Hw. unfold wrap in Hw.
  destruct (decide (z = 0)) as [->|]; [done|].
  rewrite Z.mod_small in Hw; lia.
Qed.

Lemma indicator_cases (P : Prop) `{Decision P} :
  (P ∧ indicator P = 1) ∨ (¬ P ∧ indicator P = 0).
Proof. unfold indicator. case_decide; auto. Qed.

Section tally.
Context {V : Type} (P : V → Prop) `{!∀ v, Decision (P v)}.
Implicit Types m : gmap positive V.

Lemma tally_empty : tally P (∅ : gmap positive V) = 0.
Proof. unfold tally. by rewrite map_filter_empty, map_size_empty. Qed.

Lemma tally_nonneg m : 0 ≤ tally P m.
Proof. unfold tally. lia. Qed.

Lemma tally_insert_fresh m h v :
  m !! h = None → tally P (<[h := v]> m) = tally P m + indicator (P v).
Proof.
  intros Hm. unfold tally, indicator. case_decide.
  - rewrite map_filter_insert_True by done.
    rewrite map_size_insert_None; [lia|].
    apply map_lookup_filter_None. by left.
  - rewrite map_filter_insert_False by done.
    rewrite delete_id by done. lia.
Qed.

Lemma tally_delete m h :
  tally P (delete h m) =
  tally P m - from_option (λ v, indicator (P v)) 0 (m !! h).
Proof.
  destruct (m !! h) as [v|] eqn:Hm; cbn.
  - rewrite <- (insert_delete_id m h v) at 2 by done.
    rewrite tally_insert_fresh by apply lookup_delete_eq. lia.
  - rewrite delete_id by done. lia.
Qed.

Lemma tally_insert m h v :
  tally P (<[h := v]> m) =
  tally P m - from_option (λ v0, indicator (P v0)) 0 (m !! h) + indicator (P v).
Proof.
  rewrite <- insert_delete_eq.
  rewrite tally_insert_fresh by apply lookup_delete_eq.
  by rewrite tally_delete.
Qed.

Lemma tally_lookup m h v : m !! h = Some v → P v → 1 ≤ tally P m.
Proof.
  intros Hm Hv. rewrite <- (insert_delete_id m h v) by done.
  rewrite tally_insert_fresh by apply lookup_delete_eq.
  pose proof (tally_nonneg (delete h m)).
  unfold indicator. rewrite decide_True by done. lia.
Qed.

Lemma tally_zero m h v : tally P m = 0 → m !! h = Some v → ¬ P v.
Proof. intros Hz Hm Hv. pose proof (tally_lookup m h v Hm Hv). lia. Qed.

End tally.

Lemma tally_ext {V} (P Q : V → Prop) `{!∀ v, Decision (P v)} `{!∀ v, Decision (Q v)}
    (m : gmap positive V) :
  (∀ h v, m !! h = Some v → P v ↔ Q v) → tally P m = tally Q m.
Proof.
  intros HPQ. unfold tally. f_equal. f_equal.
  apply map_filter_ext. intros h v Hm. cbn. by apply (HPQ h v).
Qed.

Lemma tally_split {V} (P Q : V → Prop) `{!∀ v, Decision (P v)} `{!∀ v, Decision (Q v)}
    (m : gmap positive V) :
  tally P m = tally (λ v, P v ∧ Q v) m + tally (λ v, P v ∧ ¬ Q v) m.
Proof.
  induction m as [|h v m Hm IH] using map_ind.
  - by rewrite !tally_empty.
  - rewrite !tally_insert_fresh by done. rewrite IH.
    destruct (indicator_cases (P v)) as [[? ->]|[? ->]],
             (indicator_cases (P v ∧ Q v)) as [[? ->]|[? ->]],
             (indicator_cases (P v ∧ ¬ Q v)) as [[? ->]|[? ->]];
      try lia; destruct (decide (Q v)); tauto.
Qed.

(** ** Members, read backwards *)

Lemma state_eq (s t : state) :
  uniques s = uniques t → shareds s = shareds t → weaks s = weaks t →
  counters s = counters t → objects s = objects t → trace s = trace t → s = t.
Proof. destruct s, t. cbn. by intros -> -> -> -> -> ->. Qed.

Ltac inv_prims :=
  repeat match goal with
  | H : bind _ _ _ = Ok _ |- _ => apply bind_Ok in H as (? & ? & ? & H)
  | H : ret _ _ = Ok _ |- _ => apply ret_Ok in H as [-> ->]
  | H : get_unique _ _ = Ok _ |- _ => apply get_unique_Ok in H as [? ->]
  | H : put_unique _ _ _ = Ok _ |- _ => apply put_unique_Ok in H as ->
  | H : get_shared _ _ = Ok _ |- _ => apply get_shared_Ok in H as [? ->]
  | H : put_shared _ _ _ = Ok _ |- _ => apply put_shared_Ok in H as ->
  | H : get_weak _ _ = Ok _ |- _ => apply get_weak_Ok in H as [? ->]
  | H : put_weak _ _ _ = Ok _ |- _ => apply put_weak_Ok in H as ->
  | H : load_counter _ _ = Ok _ |- _ => apply load_counter_Ok in H as (? & ? & ->)
  | H : store_counter _ _ _ = Ok _ |- _ => apply store_counter_Ok in H as ->
  end.

Lemma unique_object_Ok h st o st' :
  unique_object h st = Ok (o, st') ↔
    ∃ u, uniques st !! h = Some u ∧ o = UniquePtr.object u ∧ st' = st.
Proof.
  unfold unique_object. split.
  - intros H. inv_prims. eauto.
  - intros (u & Hu & -> & ->). unfold bind, get_unique. by rewrite Hu.
Qed.

Lemma set_unique_object_Ok h o st x st' :
  set_unique_object h o st = Ok (x, st') ↔
    is_Some (uniques st !! h) ∧
    st' = with_uniques (<[h := {| UniquePtr.object := o |}]> (uniques st)) st.
Proof.
  unfold set_unique_object. destruct x. split.
  - intros H. inv_prims. eauto.
  - intros ([u Hu] & ->). unfold bind, get_unique. by rewrite Hu.
Qed.

Lemma shared_object_Ok h st o st' :
  shared_object h st = Ok (o, st') ↔
    ∃ sp, shareds st !! h = Some sp ∧ o = SharedPtr.object sp ∧ st' = st.
Proof.
  unfold shared_object. split.
  - intros H. inv_prims. eauto.
  - intros (sp & Hsp & -> & ->). unfold bind, get_shared. by rewrite Hsp.
Qed.

Lemma shared_reference_Ok h st r st' :
  shared_reference h st = Ok (r, st') ↔
    ∃ sp, shareds st !! h = Some sp ∧ r = SharedPtr.reference sp ∧ st' = st.
Proof.
  unfold shared_reference. split.
  - intros H. inv_prims. eauto.
  - intros (sp & Hsp & -> & ->). unfold bind, get_shared. by rewrite Hsp.
Qed.

Lemma set_shared_object_Ok h o st x st' :
  set_shared_object h o st = Ok (x, st') ↔
    ∃ sp, shareds st !! h = Some sp ∧
      st' = with_shareds
              (<[h := {| SharedPtr.object := o;
                         SharedPtr.reference := SharedPtr.reference sp |}]> (shareds st)) st.
Proof.
  unfold set_shared_object. destruct x. split.
  - intros H. inv_prims. eauto.
  - intros (sp & Hsp & ->). unfold bind, get_shared. by rewrite Hsp.
Qed.

Lemma set_shared_reference_Ok h r st x st' :
  set_shared_reference h r st = Ok (x, st') ↔
    ∃ sp, shareds st !! h = Some sp ∧
      st' = with_shareds
              (<[h := {| SharedPtr.object := SharedPtr.object sp;
                         SharedPtr.reference := r |}]> (shareds st)) st.
Proof.
  unfold set_shared_reference. destruct x. split.
  - intros H. inv_prims. eauto.
  - intros (sp & Hsp & ->). unfold bind, get_shared. by rewrite Hsp.
Qed.

Lemma weak_pointer_Ok h st o st' :
  weak_pointer h st = Ok (o, st') ↔
    ∃ wp, weaks st !! h = Some wp ∧ o = WeakPtr.pointer wp ∧ st' = st.
Proof.
  unfold weak_pointer. split.
  - intros H. inv_prims. eauto.
  - intros (wp & Hwp & -> & ->). unfold bind, get_weak. by rewrite Hwp.
Qed.

Lemma weak_reference_Ok h st r st' :
  weak_reference h st = Ok (r, st') ↔
    ∃ wp, weaks st !! h = Some wp ∧ r = WeakPtr.reference wp ∧ st' = st.
Proof.
  unfold weak_reference. split.
  - intros H. inv_prims. eauto.
  - intros (wp & Hwp & -> & ->). unfold bind, get_weak. by rewrite Hwp.
Qed.

Lemma set_weak_pointer_Ok h o st x st' :
  set_weak_pointer h o st = Ok (x, st') ↔
    ∃ wp, weaks st !! h = Some wp ∧
      st' = with_weaks
              (<[h := {| WeakPtr.pointer := o;
                         WeakPtr.reference := WeakPtr.reference wp |}]> (weaks st)) st.
Proof.
  unfold set_weak_pointer. destruct x. split.
  - intros H. inv_prims. eauto.
  - intros (wp & Hwp & ->). unfold bind, get_weak. by rewrite Hwp.
Qed.

Lemma set_weak_reference_Ok h r st x st' :
  set_weak_reference h r st = Ok (x, st') ↔
    ∃ wp, weaks st !! h = Some wp ∧
      st' = with_weaks
              (<[h := {| WeakPtr.pointer := WeakPtr.pointer wp;
                         WeakPtr.reference := r |}]> (weaks st)) st.
Proof.
  unfold set_weak_reference. destruct x. split.
  - intros H. inv_prims. eauto.
  - intros (wp & Hwp & ->). unfold bind, get_weak. by rewrite Hwp.
Qed.

Lemma ReferenceCounter_add_Ok r st x st' :
  ReferenceCounter_add r st = Ok (x, st') ↔
    ∃ rc, r ≠ nullptr ∧ counters st !! r = Some rc ∧
      st' = with_counters
              (<[r := {| count := wrap (count rc + 1); weak := weak rc |}]> (counters st)) st.
Proof.
  unfold ReferenceCounter_add. destruct x. split.
  - intros H. inv_prims. eauto.
  - intros (rc & ? & Hrc & ->). unfold bind, load_counter.
    rewrite decide_False by done. by rewrite Hrc.
Qed.

Lemma ReferenceCounter_remove_Ok r st c st' :
  ReferenceCounter_remove r st = Ok (c, st') ↔
    ∃ rc, r ≠ nullptr ∧ counters st !! r = Some rc ∧ c = wrap (count rc - 1) ∧
      st' = with_counters
              (<[r := {| count := wrap (count rc - 1); weak := weak rc |}]> (counters st)) st.
Proof.
  unfold ReferenceCounter_remove. split.
  - intros H. inv_prims. eauto 10.
  - intros (rc & ? & Hrc & -> & ->). unfold bind, load_counter.
    rewrite decide_False by done. by rewrite Hrc.
Qed.

Lemma ReferenceCounter_get_Ok r st c st' :
  ReferenceCounter_get r st = Ok (c, st') ↔
    ∃ rc, r ≠ nullptr ∧ counters st !! r = Some rc ∧ c = count rc ∧ st' = st.
Proof.
  unfold ReferenceCounter_get. split.
  - intros H. inv_prims. eauto 10.
  - intros (rc & ? & Hrc & -> & ->). unfold bind, load_counter.
    rewrite decide_False by done. by rewrite Hrc.
Qed.

Lemma ReferenceCounter_addWeak_Ok r st x st' :
  ReferenceCounter_addWeak r st = Ok (x, st') ↔
    ∃ rc, r ≠ nullptr ∧ counters st !! r = Some rc ∧
      st' = with_counters
              (<[r := {| count := count rc; weak := wrap (weak rc + 1) |}]> (counters st)) st.
Proof.
  unfold ReferenceCounter_addWeak. destruct x. split.
  - intros H. inv_prims. eauto.
  - intros (rc & ? & Hrc & ->). unfold bind, load_counter.
    rewrite decide_False by done. by rewrite Hrc.
Qed.

Lemma ReferenceCounter_removeWeak_Ok r st w st' :
  ReferenceCounter_removeWeak r st = Ok (w, st') ↔
    ∃ rc, r ≠ nullptr ∧ counters st !! r = Some rc ∧ w = wrap (weak rc - 1) ∧
      st' = with_counters
              (<[r := {| count := count rc; weak := wrap (weak rc - 1) |}]> (counters st)) st.
Proof.
  unfold ReferenceCounter_removeWeak. split.
  - intros H. inv_prims. eauto 10.
  - intros (rc & ? & Hrc & -> & ->). unfold bind, load_counter.
    rewrite decide_False by done. by rewrite Hrc.
Qed.

Lemma ReferenceCounter_getWeak_Ok r st w st' :
  ReferenceCounter_getWeak r st = Ok (w, st') ↔
    ∃ rc, r ≠ nullptr ∧ counters st !! r = Some rc ∧ w = weak rc ∧ st' = st.
Proof.
  unfold ReferenceCounter_getWeak. split.
  - intros H. inv_prims. eauto 10.
  - intros (rc & ? & Hrc & -> & ->). unfold bind, load_counter.
    rewrite decide_False by done. by rewrite Hrc.
Qed.

Lemma SharedPtr_deleter_Ok this st x st' :
  SharedPtr_deleter this st = Ok (x, st') → shared_released this st st'.
Proof.
  unfold SharedPtr_deleter. intros H.
  apply bind_Ok in H as (sp & ? & [Hsp ->]%get_shared_Ok & H1).
  destruct (decide (SharedPtr.object sp ≠ nullptr)) as [Ho|Ho].
  2: { apply ret_Ok in H1 as [_ ->]. eapply released_nothing; [done|].
       by destruct (decide (SharedPtr.object sp = nullptr)). }
  apply bind_Ok in H1 as (c & ? & (rc & Hr & Hrc & -> & ->)%ReferenceCounter_remove_Ok & H2).
  destruct (decide (wrap (count rc - 1) = 0)) as [Hc|Hc].
  2: { apply ret_Ok in H2 as [_ ->]. by eapply released_share. }
  apply bind_Ok in H2 as (? & ? & [[? _]|(_ & Hlive & ->)]%delete_object_Ok & H3); [done|].
  apply bind_Ok in H3 as (w & ? & (rc' & _ & Hrc' & -> & ->)%ReferenceCounter_getWeak_Ok & H4).
  cbn in Hrc'. rewrite lookup_insert_eq in Hrc'. injection Hrc' as <-. cbn in *.
  destruct (decide (weak rc = 0)) as [Hw|Hw].
  - apply delete_counter_Ok in H4 as [[? _]|(_ & _ & ->)]; [done|]. cbn.
    rewrite delete_insert_eq. by eapply released_block.
  - apply ret_Ok in H4 as [_ ->]. rewrite Hc. by eapply released_object.
Qed.

Lemma WeakPtr_deleter_Ok this st x st' :
  WeakPtr_deleter this st = Ok (x, st') → weak_released this st st'.
Proof.
  unfold WeakPtr_deleter. intros H.
  apply bind_Ok in H as (wp & ? & [Hwp ->]%get_weak_Ok & H1).
  destruct (decide (WeakPtr.reference wp ≠ nullptr)) as [Hr|Hr].
  2: { apply ret_Ok in H1 as [_ ->]. eapply wreleased_nothing; [done|]. left.
       by destruct (decide (WeakPtr.reference wp = nullptr)). }
  apply bind_Ok in H1 as (c & ? & (rc & _ & Hrc & -> & ->)%ReferenceCounter_get_Ok & H2).
  destruct (decide (count rc = 0)) as [Hc|Hc].
  2: { apply ret_Ok in H2 as [_ ->]. eapply wreleased_nothing; eauto. }
  apply bind_Ok in H2 as (w & ? & (rc' & _ & Hrc' & -> & ->)%ReferenceCounter_removeWeak_Ok & H3).
  rewrite Hrc in Hrc'. injection Hrc' as <-.
  destruct (decide (wrap (weak rc - 1) = 0)) as [Hw|Hw].
  - apply delete_counter_Ok in H3 as [[? _]|(_ & _ & ->)]; [done|]. cbn.
    rewrite delete_insert_eq. by eapply wreleased_block.
  - apply ret_Ok in H3 as [_ ->]. by eapply wreleased_share.
Qed.

Lemma shared_released_frame this st st' :
  shared_released this st st' →
  uniques st' = uniques st ∧ shareds st' = shareds st ∧ weaks st' = weaks st ∧
  is_Some (shareds st !! this).
Proof. destruct 1; cbn; eauto. Qed.

Lemma weak_released_frame this st st' :
  weak_released this st st' →
  uniques st' = uniques st ∧ shareds st' = shareds st ∧ weaks st' = weaks st ∧
  objects st' = objects st ∧ is_Some (weaks st !! this).
Proof. destruct 1; cbn; eauto 10. Qed.

(** * Statements as sequences of moves *)

Ltac inv_member1 :=
  match goal with
  | H : exec _ _ = Ok _ |- _ => apply exec_Ok in H as [? H]
  | H : bind _ _ _ = Ok _ |- _ =>
      let K := fresh "K" in apply bind_Ok in H as (? & ? & ? & K)
  | H : ret _ _ = Ok _ |- _ => apply ret_Ok in H as [? ?]
  | H : unique_object _ _ = Ok _ |- _ => apply unique_object_Ok in H as (? & ? & ? & ?)
  | H : set_unique_object _ _ _ = Ok _ |- _ =>
      apply set_unique_object_Ok in H as (? & ?)
  | H : declare_unique _ _ _ = Ok _ |- _ => apply declare_unique_Ok in H as [? ?]
  | H : retire_unique _ _ = Ok _ |- _ => apply retire_unique_Ok in H
  | H : delete_object _ _ = Ok _ |- _ =>
      apply delete_object_Ok in H as [[? ?]|(? & ? & ?)]
  | H : get_shared _ _ = Ok _ |- _ => apply get_shared_Ok in H as [? ?]
  | H : declare_shared _ _ _ = Ok _ |- _ => apply declare_shared_Ok in H as [? ?]
  | H : retire_shared _ _ = Ok _ |- _ => apply retire_shared_Ok in H
  | H : get_weak _ _ = Ok _ |- _ => apply get_weak_Ok in H as [? ?]
  | H : declare_weak _ _ _ = Ok _ |- _ => apply declare_weak_Ok in H as [? ?]
  | H : retire_weak _ _ = Ok _ |- _ => apply retire_weak_Ok in H
  | H : shared_object _ _ = Ok _ |- _ => apply shared_object_Ok in H as (? & ? & ? & ?)
  | H : shared_reference _ _ = Ok _ |- _ =>
      apply shared_reference_Ok in H as (? & ? & ? & ?)
  | H : set_shared_object _ _ _ = Ok _ |- _ =>
      apply set_shared_object_Ok in H as (? & ? & ?)
  | H : set_shared_reference _ _ _ = Ok _ |- _ =>
      apply set_shared_reference_Ok in H as (? & ? & ?)
  | H : weak_pointer _ _ = Ok _ |- _ => apply weak_pointer_Ok in H as (? & ? & ? & ?)
  | H : weak_reference _ _ = Ok _ |- _ => apply weak_reference_Ok in H as (? & ? & ? & ?)
  | H : set_weak_pointer _ _ _ = Ok _ |- _ =>
      apply set_weak_pointer_Ok in H as (? & ? & ?)
  | H : set_weak_reference _ _ _ = Ok _ |- _ =>
      apply set_weak_reference_Ok in H as (? & ? & ?)
  | H : ReferenceCounter_add _ _ = Ok _ |- _ =>
      apply ReferenceCounter_add_Ok in H as (? & ? & ? & ?)
  | H : ReferenceCounter_addWeak _ _ = Ok _ |- _ =>
      apply ReferenceCounter_addWeak_Ok in H as (? & ? & ? & ?)
  | H : ReferenceCounter_get _ _ = Ok _ |- _ =>
      apply ReferenceCounter_get_Ok in H as (? & ? & ? & ? & ?)
  | H : new_ReferenceCounter _ = Ok _ |- _ =>
      apply new_ReferenceCounter_Ok in H as [? ?]
  | H : SharedPtr_deleter _ _ = Ok _ |- _ =>
      apply SharedPtr_deleter_Ok in H;
      let F := fresh "F" in
      pose proof (shared_released_frame _ _ _ H) as F;
      destruct F as (? & ? & ? & ?)
  | H : WeakPtr_deleter _ _ = Ok _ |- _ =>
      apply WeakPtr_deleter_Ok in H;
      let F := fresh "F" in
      pose proof (weak_released_frame _ _ _ H) as F;
      destruct F as (? & ? & ? & ? & ?)
  | H : client_object _ _ = Ok _ |- _ => apply client_object_Ok in H
  | H : (if decide ?P then _ else _) _ = Ok _ |- _ => destruct (decide P)
  | H : (if ?b then _ else _) _ = Ok _ |- _ => destruct b eqn:?
  end.

Ltac unfold_ops :=
  unfold step,
    UniquePtr_ctor, UniquePtr_ctor_ptr, UniquePtr_ctor_move, UniquePtr_move_assign,
    UniquePtr_dtor, UniquePtr_get, UniquePtr_release, UniquePtr_reset, UniquePtr_swap,
    SharedPtr_dtor, SharedPtr_reset, SharedPtr_reset_ptr, SharedPtr_assign,
    SharedPtr_move_assign, SharedPtr_ctor, SharedPtr_ctor_ptr, SharedPtr_ctor_copy,
    SharedPtr_ctor_weak, SharedPtr_ctor_move, SharedPtr_get, SharedPtr_use_count,
    SharedPtr_swap,
    WeakPtr_dtor, WeakPtr_reset, WeakPtr_assign, WeakPtr_assign_shared,
    WeakPtr_move_assign, WeakPtr_ctor, WeakPtr_ctor_shared, WeakPtr_ctor_copy,
    WeakPtr_ctor_move, WeakPtr_lock, WeakPtr_expired, WeakPtr_use_count, WeakPtr_swap
    in *.

Ltac simp_state :=
  unfold with_shareds, with_weaks, with_counters, with_uniques in *;
  cbn [uniques shareds weaks counters objects trace
       SharedPtr.object SharedPtr.reference WeakPtr.pointer WeakPtr.reference
       count weak] in *.

Ltac inv_member :=
  repeat first
    [ inv_member1
    | progress unfold_ops
    | progress subst
    | progress simp_state
    | progress norm_lookups
    | match goal with
      | E : shareds ?s = shareds _, H : context [shareds ?s] |- _ => rewrite E in H
      | E : weaks ?s = weaks _, H : context [weaks ?s] |- _ => rewrite E in H
      | H : Some _ = Some _ |- _ => injection H as ?
      | H : ?m !! ?k = Some _, H' : ?m !! ?k = Some _ |- _ =>
          rewrite H in H'; injection H' as ?
      | H : ?m !! ?k = Some _, H' : ?m !! ?k = None |- _ =>
          rewrite H in H'; discriminate H'
      end ].

Ltac eta_handles :=
  repeat match goal with
  | x : SharedPtr.t |- _ => destruct x
  | x : WeakPtr.t |- _ => destruct x
  end;
  simp_state.

Ltac frame_rewrite :=
  repeat match goal with
  | E : uniques ?s = uniques _ |- context [uniques ?s] => rewrite E
  | E : shareds ?s = shareds _ |- context [shareds ?s] => rewrite E
  | E : weaks ?s = weaks _ |- context [weaks ?s] => rewrite E
  | E : objects ?s = objects _ |- context [objects ?s] => rewrite E
  end.

Ltac map_cases :=
  apply map_eq; intros ?;
  repeat (rewrite lookup_insert || rewrite lookup_delete);
  repeat case_decide; subst; congruence.

Ltac solve_lookup :=
  unfold empty_shared, empty_weak in *; simp_state; frame_rewrite;
  repeat first [ rewrite lookup_insert_eq | rewrite lookup_insert_ne by congruence ];
  first [ eassumption | reflexivity | congruence
        | apply client_object_Ok; reflexivity ].

Ltac solve_state_eq :=
  unfold empty_shared, empty_weak in *;
  apply state_eq; simp_state; frame_rewrite;
  first [ reflexivity | map_cases ].

Ltac take_step c := eapply run_next; [ eapply c; try solve_lookup | ].
Ltac finish := apply run_done; solve_state_eq.

Section decompose.
Context `{alloc : Allocator}.

Ltac start H := cbn; unfold_ops; intros H.

Lemma decompose_SNew a st st' :
  step (SNew a) st = Ok st' → ∃ l, plan (SNew a) l ∧ atoms_run l st st'.
Proof.
  start H. inv_member. eexists. split; [apply plan_SNew|].
  take_step do_declare. finish.
Qed.

Lemma decompose_SNewPtr a p st st' :
  step (SNewPtr a p) st = Ok st' → ∃ l, plan (SNewPtr a p) l ∧ atoms_run l st st'.
Proof.
  start H. inv_member. eexists. split; [apply plan_SNewPtr|].
  take_step do_client. take_step do_declare. take_step do_adopt. finish.
Qed.

Lemma decompose_SNewCopy a b st st' :
  step (SNewCopy a b) st = Ok st' → ∃ l, plan (SNewCopy a b) l ∧ atoms_run l st st'.
Proof.
  start H. inv_member; eta_handles.
  - eexists. split; [apply plan_SNewCopy|].
    take_step do_declare. take_step do_acquire. finish.
  - eexists. split; [apply plan_SNewCopy_empty|].
    take_step do_declare. take_step do_alias.
    + by destruct (decide (reference = nullptr)).
    + finish.
Qed.

Lemma decompose_SNewWeak a w st st' :
  step (SNewWeak a w) st = Ok st' → ∃ l, plan (SNewWeak a w) l ∧ atoms_run l st st'.
Proof.
  start H. inv_member; eta_handles.
  - eexists. split; [apply plan_SNewWeak|].
    take_step do_declare. take_step do_promote. finish.
  - eexists. split; [apply plan_SNewWeak_empty|].
    take_step do_declare. take_step do_alias_weak.
    + by destruct (decide (reference = nullptr)).
    + finish.
Qed.

Lemma decompose_SNewMove a b st st' :
  step (SNewMove a b) st = Ok st' → ∃ l, plan (SNewMove a b) l ∧ atoms_run l st st'.
Proof.
  start H. inv_member; eta_handles.
  eexists. split; [apply plan_SNewMove|].
  take_step do_declare. take_step do_steal. finish.
Qed.

Lemma decompose_SAssign a b st st' :
  step (SAssign a b) st = Ok st' → ∃ l, plan (SAssign a b) l ∧ atoms_run l st st'.
Proof.
  cbn. unfold SharedPtr_assign. intros H.
  destruct (decide (a = b)) as [->|Hab].
  - inv_member. eexists. split; [constructor|]. by constructor.
  - inv_member. eta_handles.
    eexists. split; [apply plan_SAssign|].
    take_step do_release. take_step do_acquire. finish.
Qed.

Lemma decompose_SMoveAssign a b st st' :
  step (SMoveAssign a b) st = Ok st' →
  ∃ l, plan (SMoveAssign a b) l ∧ atoms_run l st st'.
Proof.
  cbn. unfold SharedPtr_move_assign. intros H.
  destruct (decide (a = b)) as [->|Hab].
  - inv_member. eexists. split; [constructor|]. by constructor.
  - inv_member. eta_handles.
    eexists. split; [apply plan_SMoveAssign|].
    take_step do_release. take_step do_steal. finish.
Qed.

Lemma decompose_SReset a st st' :
  step (SReset a) st = Ok st' → ∃ l, plan (SReset a) l ∧ atoms_run l st st'.
Proof.
  start H. inv_member. eta_handles.
  eexists. split; [apply plan_SReset|].
  take_step do_release. finish.
Qed.

Lemma decompose_SResetPtr a p st st' :
  step (SResetPtr a p) st = Ok st' → ∃ l, plan (SResetPtr a p) l ∧ atoms_run l st st'.
Proof.
  start H. inv_member; eta_handles.
  - eexists. split; [apply plan_SResetPtr|].
    take_step do_client. take_step do_release. take_step do_adopt. finish.
  - eexists. split; [apply plan_SResetPtr_null|].
    take_step do_client. take_step do_release. finish.
Qed.

Lemma decompose_SSwap a b st st' :
  step (SSwap a b) st = Ok st' → ∃ l, plan (SSwap a b) l ∧ atoms_run l st st'.
Proof.
  start H. inv_member.
  destruct (decide (a = b)) as [->|Hab]; inv_member; eta_handles.
  - eexists. split; [apply plan_SSwap|]. take_step do_swap. finish.
  - eexists. split; [apply plan_SSwap|]. take_step do_swap. finish.
Qed.

Lemma decompose_SDelete a st st' :
  step (SDelete a) st = Ok st' → ∃ l, plan (SDelete a) l ∧ atoms_run l st st'.
Proof.
  start H. inv_member. eta_handles.
  eexists. split; [apply plan_SDelete|].
  take_step do_release. take_step do_retire. finish.
Qed.

Lemma decompose_WNew w st st' :
  step (WNew w) st = Ok st' → ∃ l, plan (WNew w) l ∧ atoms_run l st st'.
Proof.
  start H. inv_member. eexists. split; [apply plan_WNew|].
  take_step do_wdeclare. finish.
Qed.

Lemma decompose_WNewShared w a st st' :
  step (WNewShared w a) st = Ok st' →
  ∃ l, plan (WNewShared w a) l ∧ atoms_run l st st'.
Proof.
  start H. inv_member; eta_handles.
  eexists. split; [apply plan_WNewShared|].
  take_step do_wdeclare. take_step do_wobserve. finish.
Qed.

Lemma decompose_WNewCopy w v st st' :
  step (WNewCopy w v) st = Ok st' → ∃ l, plan (WNewCopy w v) l ∧ atoms_run l st st'.
Proof.
  start H. inv_member; eta_handles.
  eexists. split; [apply plan_WNewCopy|].
  take_step do_wdeclare. take_step do_wcopy. finish.
Qed.

Lemma decompose_WNewMove w v st st' :
  step (WNewMove w v) st = Ok st' → ∃ l, plan (WNewMove w v) l ∧ atoms_run l st st'.
Proof.
  start H. inv_member; eta_handles.
  eexists. split; [apply plan_WNewMove|].
  take_step do_wdeclare. take_step do_wsteal. finish.
Qed.

Lemma decompose_WAssign w v st st' :
  step (WAssign w v) st = Ok st' → ∃ l, plan (WAssign w v) l ∧ atoms_run l st st'.
Proof.
  cbn. unfold WeakPtr_assign. intros H.
  destruct (decide (w = v)) as [->|Hwv].
  - inv_member. eexists. split; [constructor|]. by constructor.
  - inv_member. eta_handles.
    eexists. split; [apply plan_WAssign|].
    take_step do_wrelease. take_step do_wcopy. finish.
Qed.

Lemma decompose_WAssignShared w a st st' :
  step (WAssignShared w a) st = Ok st' →
  ∃ l, plan (WAssignShared w a) l ∧ atoms_run l st st'.
Proof.
  start H. inv_member. eta_handles.
  eexists. split; [apply plan_WAssignShared|].
  take_step do_wrelease. take_step do_wobserve. finish.
Qed.

Lemma decompose_WMoveAssign w v st st' :
  step (WMoveAssign w v) st = Ok st' →
  ∃ l, plan (WMoveAssign w v) l ∧ atoms_run l st st'.
Proof.
  cbn. unfold WeakPtr_move_assign. intros H.
  destruct (decide (w = v)) as [->|Hwv].
  - inv_member. eexists. split; [constructor|]. by constructor.
  - inv_member. eta_handles.
    eexists. split; [apply plan_WMoveAssign|].
    take_step do_wrelease. take_step do_wsteal. finish.
Qed.

Lemma decompose_WLock w a st st' :
  step (WLock w a) st = Ok st' → ∃ l, plan (WLock w a) l ∧ atoms_run l st st'.
Proof.
  start H. inv_member; eta_handles.
  all: try contradiction.
  all: try discriminate.
  all: try (eexists; split; [apply plan_WLock_expired|];
            take_step do_declare; finish).
  all: try (eexists; split; [apply plan_WLock|];
            take_step do_declare; take_step do_promote; finish).
Qed.

Lemma decompose_WReset w st st' :
  step (WReset w) st = Ok st' → ∃ l, plan (WReset w) l ∧ atoms_run l st st'.
Proof.
  start H. inv_member. eta_handles.
  eexists. split; [apply plan_WReset|].
  take_step do_wrelease. finish.
Qed.

Lemma decompose_WSwap w v st st' :
  step (WSwap w v) st = Ok st' → ∃ l, plan (WSwap w v) l ∧ atoms_run l st st'.
Proof.
  start H. inv_member.
  destruct (decide (w = v)) as [->|Hwv]; inv_member; eta_handles.
  - eexists. split; [apply plan_WSwap|]. take_step do_wswap. finish.
  - eexists. split; [apply plan_WSwap|]. take_step do_wswap. finish.
Qed.

Lemma decompose_WDelete w st st' :
  step (WDelete w) st = Ok st' → ∃ l, plan (WDelete w) l ∧ atoms_run l st st'.
Proof.
  start H. inv_member. eta_handles.
  eexists. split; [apply plan_WDelete|].
  take_step do_wrelease. take_step do_wretire. finish.
Qed.

(** UniquePtr statements leave SharedPtr, WeakPtr and the counter blocks alone. *)
Lemma unique_op_frame o st st' :
  unique_op o = true → step o st = Ok st' →
  shareds st' = shareds st ∧ weaks st' = weaks st ∧ counters st' = counters st.
Proof.
  destruct o; try discriminate; intros _; start H; inv_member; done.
Qed.

Lemma decompose o st st' :
  unique_op o = false → step o st = Ok st' → ∃ l, plan o l ∧ atoms_run l st st'.
Proof.
  destruct o; try discriminate; intros _.
  - apply decompose_SNew.
  - apply decompose_SNewPtr.
  - apply decompose_SNewCopy.
  - apply decompose_SNewWeak.
  - apply decompose_SNewMove.
  - apply decompose_SAssign.
  - apply decompose_SMoveAssign.
  - apply decompose_SReset.
  - apply decompose_SResetPtr.
  - apply decompose_SSwap.
  - apply decompose_SDelete.
  - apply decompose_WNew.
  - apply decompose_WNewShared.
  - apply decompose_WNewCopy.
  - apply decompose_WNewMove.
  - apply decompose_WAssign.
  - apply decompose_WAssignShared.
  - apply decompose_WMoveAssign.
  - apply decompose_WLock.
  - apply decompose_WReset.
  - apply decompose_WSwap.
  - apply decompose_WDelete.
Qed.
End decompose.

(** * The counting invariant holds in every reachable state *)

Ltac tally_unfold :=
  unfold block_ok, strong_owners, strong_idle, weak_owners, weak_idle,
    empty_shared, empty_weak in *;
  simp_state.

Ltac tally_norm :=
  tally_unfold;
  repeat first [ rewrite tally_insert | rewrite tally_delete ];
  repeat first
    [ rewrite lookup_insert_eq
    | rewrite lookup_insert_ne by congruence
    | match goal with
      | H : ?m !! ?k = _ |- context [?m !! ?k] => rewrite H
      end ];
  cbn [from_option SharedPtr.object SharedPtr.reference
       WeakPtr.pointer WeakPtr.reference].

(** What a variable in the store contributes to the four counts of block [r]. *)
Ltac known_shared H r :=
  let K1 := fresh "K" in let K2 := fresh "K" in
  pose proof (tally_lookup
    (λ sp, SharedPtr.reference sp = r ∧ SharedPtr.object sp ≠ nullptr) _ _ _ H) as K1;
  pose proof (tally_lookup
    (λ sp, SharedPtr.reference sp = r ∧ SharedPtr.object sp = nullptr) _ _ _ H) as K2;
  cbn [SharedPtr.object SharedPtr.reference] in K1, K2.

Ltac known_weak H r :=
  let K1 := fresh "K" in let K2 := fresh "K" in
  pose proof (tally_lookup
    (λ wp, WeakPtr.reference wp = r ∧ WeakPtr.pointer wp ≠ nullptr) _ _ _ H) as K1;
  pose proof (tally_lookup
    (λ wp, WeakPtr.reference wp = r ∧ WeakPtr.pointer wp = nullptr) _ _ _ H) as K2;
  cbn [WeakPtr.pointer WeakPtr.reference] in K1, K2.

Ltac nonneg r st :=
  pose proof (tally_nonneg
    (λ sp, SharedPtr.reference sp = r ∧ SharedPtr.object sp ≠ nullptr) (shareds st));
  pose proof (tally_nonneg
    (λ sp, SharedPtr.reference sp = r ∧ SharedPtr.object sp = nullptr) (shareds st));
  pose proof (tally_nonneg
    (λ wp, WeakPtr.reference wp = r ∧ WeakPtr.pointer wp ≠ nullptr) (weaks st));
  pose proof (tally_nonneg
    (λ wp, WeakPtr.reference wp = r ∧ WeakPtr.pointer wp = nullptr) (weaks st)).

Lemma indicator_True (P : Prop) `{Decision P} : P → indicator P = 1.
Proof. intros. unfold indicator. by rewrite decide_True. Qed.

Lemma indicator_False (P : Prop) `{Decision P} : ¬ P → indicator P = 0.
Proof. intros. unfold indicator. by rewrite decide_False. Qed.

(** Settle the indicators that the context decides, split on the others. *)
Ltac resolve_indicators :=
  repeat match goal with
  | |- context [@indicator ?P ?d] =>
      first [ rewrite (@indicator_True P d) by (clear -d; intuition (first [done | lia]))
            | rewrite (@indicator_False P d) by (intuition (first [done | lia]))
            | rewrite (@indicator_True P d) by (intuition (first [done | lia]))
            | destruct (@indicator_cases P d) as [[? ->]|[? ->]] ]
  end.

Ltac abstract_tallies :=
  repeat match goal with
  | |- context [@tally ?V ?P ?d ?m] =>
      let t := fresh "t" in set (t := @tally V P d m) in *; clearbody t
  | H : context [@tally ?V ?P ?d ?m] |- _ =>
      let t := fresh "t" in set (t := @tally V P d m) in *; clearbody t
  end.

(** A block whose counter is untouched: the invariant carries over once the
    counts of variables are seen to be the same. *)
Ltac untouched HI :=
  let rc0 := fresh "rc" in
  let Hl := fresh "Hl" in
  first
    [ lia
    | intros ?;
      destruct HI as (rc0 & Hl & HI); [lia|];
      exists rc0; split;
      [ first [ exact Hl
              | rewrite lookup_insert_ne by congruence; exact Hl
              | rewrite lookup_delete_ne by congruence; exact Hl ]
      | lia ] ].

Section consistent.
Context `{alloc : Allocator}.

Lemma consistent_mono N N' st : N ≤ N' → consistent N st → consistent N' st.
Proof.
  intros HN HI r. specialize (HI r). unfold block_ok in *.
  case_decide; [done|]. intros Hpos.
  destruct (HI Hpos) as (rc & ? & ? & ? & ?). exists rc. repeat split; try done; lia.
Qed.

Lemma consistent_frame N st st' :
  shareds st' = shareds st → weaks st' = weaks st → counters st' = counters st →
  consistent N st → consistent N st'.
Proof.
  intros E1 E2 E3 HI r. specialize (HI r).
  unfold block_ok, strong_owners, strong_idle, weak_owners, weak_idle in *.
  by rewrite E1, E2, E3.
Qed.

Lemma consistent_declare N h st :
  shareds st !! h = None → consistent N st →
  consistent N (with_shareds (<[h := empty_shared]> (shareds st)) st).
Proof.
  intros Hh HI r. specialize (HI r). nonneg r st. tally_norm.
  destruct (decide (r = nullptr)); resolve_indicators; abstract_tallies; untouched HI.
Qed.

Lemma consistent_retire N h st :
  shareds st !! h = Some empty_shared → consistent N st →
  consistent N (with_shareds (delete h (shareds st)) st).
Proof.
  intros Hh HI r. specialize (HI r). nonneg r st. tally_norm.
  destruct (decide (r = nullptr)); resolve_indicators; abstract_tallies; untouched HI.
Qed.

Lemma consistent_alias N h s sp st :
  shareds st !! h = Some empty_shared → shareds st !! s = Some sp →
  SharedPtr.reference sp = nullptr → consistent N st →
  consistent N (with_shareds (<[h := sp]> (shareds st)) st).
Proof.
  intros Hh Hs Hr HI r. specialize (HI r). nonneg r st. known_shared Hs r.
  tally_norm.
  destruct (decide (r = nullptr)), (decide (SharedPtr.object sp = nullptr));
    resolve_indicators; abstract_tallies; untouched HI.
Qed.

Lemma consistent_alias_weak N h w wp st :
  shareds st !! h = Some empty_shared → weaks st !! w = Some wp →
  WeakPtr.reference wp = nullptr → consistent N st →
  consistent N
    (with_shareds
       (<[h := {| SharedPtr.object := WeakPtr.pointer wp;
                  SharedPtr.reference := WeakPtr.reference wp |}]> (shareds st)) st).
Proof.
  intros Hh Hw Hr HI r. specialize (HI r). nonneg r st. known_weak Hw r.
  tally_norm.
  destruct (decide (r = nullptr)), (decide (WeakPtr.pointer wp = nullptr));
    resolve_indicators; abstract_tallies; untouched HI.
Qed.

Lemma consistent_steal N h s sp st :
  shareds st !! h = Some empty_shared → shareds st !! s = Some sp → h ≠ s →
  consistent N st →
  consistent N (with_shareds (<[s := empty_shared]> (<[h := sp]> (shareds st))) st).
Proof.
  intros Hh Hs Hne HI r. specialize (HI r). nonneg r st. tally_norm.
  destruct (decide (r = nullptr)); resolve_indicators; abstract_tallies; untouched HI.
Qed.

Lemma consistent_swap N a b sa sb st :
  shareds st !! a = Some sa → shareds st !! b = Some sb → consistent N st →
  consistent N (with_shareds (<[a := sb]> (<[b := sa]> (shareds st))) st).
Proof.
  intros Ha Hb HI r. specialize (HI r). nonneg r st.
  destruct (decide (a = b)) as [->|Hne].
  - rewrite Ha in Hb. injection Hb as <-. rewrite insert_insert_eq.
    tally_norm.
    destruct (decide (r = nullptr)); resolve_indicators; abstract_tallies; untouched HI.
  - tally_norm.
    destruct (decide (r = nullptr)); resolve_indicators; abstract_tallies; untouched HI.
Qed.

Lemma consistent_acquire N h s sp rc st :
  shareds st !! h = Some empty_shared → shareds st !! s = Some sp →
  SharedPtr.reference sp ≠ nullptr →
  counters st !! SharedPtr.reference sp = Some rc →
  consistent N st → N + 1 < 2 ^ 64 →
  consistent (N + 1)
    (with_counters
       (<[SharedPtr.reference sp := {| count := wrap (count rc + 1); weak := weak rc |}]>
          (counters st))
       (with_shareds (<[h := sp]> (shareds st)) st)).
Proof.
  intros Hh Hs Hr Hrc HI HN r. specialize (HI r).
  nonneg r st. known_shared Hs r.
  tally_norm.
  destruct (decide (r = SharedPtr.reference sp)) as [->|Hne].
  - rewrite decide_False in * by done. intros _.
    destruct (decide (SharedPtr.object sp = nullptr));
      resolve_indicators; abstract_tallies.
    all: destruct HI as (rc0 & Hl & HI); [lia|].
    all: rewrite Hrc in Hl; injection Hl as <-.
    all: eexists; (split; [apply lookup_insert_eq|]); cbn.
    all: rewrite wrap_small by lia; lia.
  - destruct (decide (r = nullptr)); resolve_indicators; abstract_tallies; untouched HI.
Qed.

Lemma consistent_promote N h w wp rc st :
  shareds st !! h = Some empty_shared → weaks st !! w = Some wp →
  WeakPtr.reference wp ≠ nullptr →
  counters st !! WeakPtr.reference wp = Some rc →
  consistent N st → N + 1 < 2 ^ 64 →
  consistent (N + 1)
    (with_counters
       (<[WeakPtr.reference wp := {| count := wrap (count rc + 1); weak := weak rc |}]>
          (counters st))
       (with_shareds
          (<[h := {| SharedPtr.object := WeakPtr.pointer wp;
                     SharedPtr.reference := WeakPtr.reference wp |}]> (shareds st)) st)).
Proof.
  intros Hh Hw Hr Hrc HI HN r. specialize (HI r).
  nonneg r st. known_weak Hw r.
  tally_norm.
  destruct (decide (r = WeakPtr.reference wp)) as [->|Hne].
  - rewrite decide_False in * by done. intros _.
    destruct (decide (WeakPtr.pointer wp = nullptr));
      resolve_indicators; abstract_tallies.
    all: destruct HI as (rc0 & Hl & HI); [lia|].
    all: rewrite Hrc in Hl; injection Hl as <-.
    all: eexists; (split; [apply lookup_insert_eq|]); cbn.
    all: rewrite wrap_small by lia; lia.
  - destruct (decide (r = nullptr)); resolve_indicators; abstract_tallies; untouched HI.
Qed.

Lemma consistent_adopt N h p st :
  shareds st !! h = Some empty_shared →
  consistent N st → N + 1 < 2 ^ 64 → 0 ≤ N →
  consistent (N + 1)
    (with_counters
       (<[new_address (dom (counters st)) := {| count := wrap (0 + 1); weak := 0 |}]>
          (counters st))
       (with_shareds
          (<[h := {| SharedPtr.object := p;
                     SharedPtr.reference := new_address (dom (counters st)) |}]>
             (shareds st)) st)).
Proof.
  intros Hh HI HN HN0 r. specialize (HI r).
  destruct (new_address_fresh (dom (counters st))) as [Hnn Hfresh].
  apply not_elem_of_dom in Hfresh.
  nonneg r st. tally_norm.
  destruct (decide (r = new_address (dom (counters st)))) as [->|Hne].
  - rewrite decide_False in * by done. intros _.
    assert (∀ a b c d : Z, 0 ≤ a → 0 ≤ b → 0 ≤ c → 0 ≤ d →
              (0 < a + b + c + d → False) → a = 0 ∧ b = 0 ∧ c = 0 ∧ d = 0) as Hz
      by (intros; lia).
    match type of HI with
    | 0 < ?a + ?b + ?c + ?d → _ =>
        destruct (Hz a b c d) as (Ea & Eb & Ec & Ed); try done
    end.
    { intros Hpos. destruct (HI Hpos) as (rc0 & Hl & _). congruence. }
    rewrite Ea, Eb, Ec, Ed.
    eexists. split; [apply lookup_insert_eq|]. cbn.
    rewrite wrap_small by lia.
    destruct (decide (p = nullptr)); resolve_indicators; lia.
  - destruct (decide (r = nullptr)); resolve_indicators; abstract_tallies; untouched HI.
Qed.

Lemma consistent_release N h st st1 :
  shared_released h st st1 → consistent N st → N < 2 ^ 64 →
  consistent N (with_shareds (<[h := empty_shared]> (shareds st1)) st1).
Proof.
  destruct 1 as [sp Hh Ho|sp rc Hh Ho Hr Hrc Hc|sp rc Hh Ho Hr Hrc Hc Hlive Hw
                |sp rc Hh Ho Hr Hrc Hc Hlive Hw];
    intros HI HN r; specialize (HI r); nonneg r st; known_shared Hh r; tally_norm.
  - destruct (decide (r = nullptr)), (decide (SharedPtr.reference sp = r));
      resolve_indicators; abstract_tallies; untouched HI.
  - destruct (decide (r = SharedPtr.reference sp)) as [->|Hne].
    + rewrite decide_False in * by done.
      resolve_indicators; abstract_tallies.
      destruct HI as (rc0 & Hl & HI); [lia|].
      rewrite Hrc in Hl; injection Hl as <-.
      intros _. eexists. split; [apply lookup_insert_eq|]. cbn.
      rewrite wrap_small in * by lia. lia.
    + destruct (decide (r = nullptr)); resolve_indicators; abstract_tallies;
        untouched HI.
  - destruct (decide (r = SharedPtr.reference sp)) as [->|Hne].
    + rewrite decide_False in * by done.
      resolve_indicators; abstract_tallies.
      destruct HI as (rc0 & Hl & HI); [lia|].
      rewrite Hrc in Hl; injection Hl as <-.
      apply wrap_pred_zero in Hc; [|lia].
      intros _. eexists. split; [apply lookup_insert_eq|]. cbn. lia.
    + destruct (decide (r = nullptr)); resolve_indicators; abstract_tallies;
        untouched HI.
  - destruct (decide (r = SharedPtr.reference sp)) as [->|Hne].
    + rewrite decide_False in * by done.
      resolve_indicators; abstract_tallies.
      destruct HI as (rc0 & Hl & HI); [lia|].
      rewrite Hrc in Hl; injection Hl as <-.
      apply wrap_pred_zero in Hc; [|lia].
      intros Hpos. exfalso. lia.
    + destruct (decide (r = nullptr)); resolve_indicators; abstract_tallies;
        untouched HI.
Qed.

Lemma consistent_wdeclare N w st :
  weaks st !! w = None → consistent N st →
  consistent N (with_weaks (<[w := empty_weak]> (weaks st)) st).
Proof.
  intros Hw HI r. specialize (HI r). nonneg r st. tally_norm.
  destruct (decide (r = nullptr)); resolve_indicators; abstract_tallies; untouched HI.
Qed.

Lemma consistent_wretire N w st :
  weaks st !! w = Some empty_weak → consistent N st →
  consistent N (with_weaks (delete w (weaks st)) st).
Proof.
  intros Hw HI r. specialize (HI r). nonneg r st. tally_norm.
  destruct (decide (r = nullptr)); resolve_indicators; abstract_tallies; untouched HI.
Qed.

Lemma consistent_wsteal N w v wp st :
  weaks st !! w = Some empty_weak → weaks st !! v = Some wp → w ≠ v →
  consistent N st →
  consistent N (with_weaks (<[v := empty_weak]> (<[w := wp]> (weaks st))) st).
Proof.
  intros Hw Hv Hne HI r. specialize (HI r). nonneg r st. tally_norm.
  destruct (decide (r = nullptr)); resolve_indicators; abstract_tallies; untouched HI.
Qed.

Lemma consistent_wswap N w v wa wb st :
  weaks st !! w = Some wa → weaks st !! v = Some wb → consistent N st →
  consistent N (with_weaks (<[w := wb]> (<[v := wa]> (weaks st))) st).
Proof.
  intros Hw Hv HI r. specialize (HI r). nonneg r st.
  destruct (decide (w = v)) as [->|Hne].
  - rewrite Hw in Hv. injection Hv as <-. rewrite insert_insert_eq.
    tally_norm.
    destruct (decide (r = nullptr)); resolve_indicators; abstract_tallies; untouched HI.
  - tally_norm.
    destruct (decide (r = nullptr)); resolve_indicators; abstract_tallies; untouched HI.
Qed.

Lemma consistent_wobserve N w s sp rc st :
  weaks st !! w = Some empty_weak → shareds st !! s = Some sp →
  SharedPtr.reference sp ≠ nullptr →
  counters st !! SharedPtr.reference sp = Some rc →
  consistent N st → N + 1 < 2 ^ 64 →
  consistent (N + 1)
    (with_counters
       (<[SharedPtr.reference sp := {| count := count rc; weak := wrap (weak rc + 1) |}]>
          (counters st))
       (with_weaks
          (<[w := {| WeakPtr.pointer := SharedPtr.object sp;
                     WeakPtr.reference := SharedPtr.reference sp |}]> (weaks st)) st)).
Proof.
  intros Hw Hs Hr Hrc HI HN r. specialize (HI r).
  nonneg r st. known_shared Hs r.
  tally_norm.
  destruct (decide (r = SharedPtr.reference sp)) as [->|Hne].
  - rewrite decide_False in * by done. intros _.
    destruct (decide (SharedPtr.object sp = nullptr));
      resolve_indicators; abstract_tallies.
    all: destruct HI as (rc0 & Hl & HI); [lia|].
    all: rewrite Hrc in Hl; injection Hl as <-.
    all: eexists; (split; [apply lookup_insert_eq|]); cbn.
    all: rewrite wrap_small by lia; lia.
  - destruct (decide (r = nullptr)); resolve_indicators; abstract_tallies; untouched HI.
Qed.

Lemma consistent_wcopy N w v wp rc st :
  weaks st !! w = Some empty_weak → weaks st !! v = Some wp →
  WeakPtr.reference wp ≠ nullptr →
  counters st !! WeakPtr.reference wp = Some rc →
  consistent N st → N + 1 < 2 ^ 64 →
  consistent (N + 1)
    (with_counters
       (<[WeakPtr.reference wp := {| count := count rc; weak := wrap (weak rc + 1) |}]>
          (counters st))
       (with_weaks (<[w := wp]> (weaks st)) st)).
Proof.
  intros Hw Hv Hr Hrc HI HN r. specialize (HI r).
  nonneg r st. known_weak Hv r.
  tally_norm.
  destruct (decide (r = WeakPtr.reference wp)) as [->|Hne].
  - rewrite decide_False in * by done. intros _.
    destruct (decide (WeakPtr.pointer wp = nullptr));
      resolve_indicators; abstract_tallies.
    all: destruct HI as (rc0 & Hl & HI); [lia|].
    all: rewrite Hrc in Hl; injection Hl as <-.
    all: eexists; (split; [apply lookup_insert_eq|]); cbn.
    all: rewrite wrap_small by lia; lia.
  - destruct (decide (r = nullptr)); resolve_indicators; abstract_tallies; untouched HI.
Qed.

Lemma consistent_wrelease N w st st1 :
  weak_released w st st1 → consistent N st → N < 2 ^ 64 →
  consistent N (with_weaks (<[w := empty_weak]> (weaks st1)) st1).
Proof.
  destruct 1 as [wp Hw Hcase|wp rc Hw Hr Hrc Hc Hwk|wp rc Hw Hr Hrc Hc Hwk];
    intros HI HN r; specialize (HI r); nonneg r st; known_weak Hw r; tally_norm.
  - (* the weak count is left alone: the block keeps a surplus *)
    destruct (decide (r = nullptr)), (decide (WeakPtr.reference wp = r));
      resolve_indicators; abstract_tallies; untouched HI.
  - destruct (decide (r = WeakPtr.reference wp)) as [->|Hne].
    + rewrite decide_False in * by done.
      resolve_indicators; abstract_tallies.
      all: destruct HI as (rc0 & Hl & HI); [lia|].
      all: rewrite Hrc in Hl; injection Hl as <-.
      all: intros _; eexists; (split; [apply lookup_insert_eq|]); cbn.
      all: rewrite wrap_small in * by lia; lia.
    + destruct (decide (r = nullptr)); resolve_indicators; abstract_tallies;
        untouched HI.
  - destruct (decide (r = WeakPtr.reference wp)) as [->|Hne].
    + rewrite decide_False in * by done.
      resolve_indicators; abstract_tallies.
      all: destruct HI as (rc0 & Hl & HI); [lia|].
      all: rewrite Hrc in Hl; injection Hl as <-.
      all: apply wrap_pred_zero in Hwk; [|lia].
      all: intros Hpos; exfalso; lia.
    + destruct (decide (r = nullptr)); resolve_indicators; abstract_tallies;
        untouched HI.
Qed.

Lemma client_object_frame p st x st' :
  client_object p st = Ok (x, st') →
  shareds st' = shareds st ∧ weaks st' = weaks st ∧ counters st' = counters st.
Proof. intros ->%client_object_Ok. done. Qed.

(** Every move keeps the invariant. *)
Lemma atom_consistent N a st st' :
  atom_step a st st' → consistent N st → 0 ≤ N → N + weight a < 2 ^ 64 →
  consistent (N + weight a) st'.
Proof.
  destruct 1; cbn [weight]; intros HI HN0 HN; rewrite ?Z.add_0_r in *.
  - destruct (client_object_frame _ _ _ _ H) as (? & ? & ?).
    by eapply consistent_frame.
  - by eapply consistent_declare.
  - by eapply consistent_retire.
  - by eapply consistent_release.
  - by eapply consistent_acquire.
  - by eapply consistent_alias.
  - by eapply consistent_promote.
  - by eapply consistent_alias_weak.
  - by eapply consistent_steal.
  - by eapply consistent_adopt.
  - by eapply consistent_swap.
  - by eapply consistent_wdeclare.
  - by eapply consistent_wretire.
  - by eapply consistent_wrelease.
  - by eapply consistent_wobserve.
  - by eapply consistent_wcopy.
  - by eapply consistent_wsteal.
  - by eapply consistent_wswap.
Qed.
End consistent.

Section reachable.
Context `{alloc : Allocator}.

Lemma plan_weight o l : plan o l → 0 ≤ total_weight l ≤ 1.
Proof. destruct 1; cbn; lia. Qed.

Lemma atoms_run_consistent l : ∀ N st st',
  atoms_run l st st' → consistent N st → 0 ≤ N → N + total_weight l < 2 ^ 64 →
  consistent (N + total_weight l) st'.
Proof.
  induction l as [|a l IH]; intros N st st' Hrun HI HN0 HN.
  - inversion Hrun; subst. cbn. by rewrite Z.add_0_r.
  - inversion Hrun as [|? ? ? st1 ? Ha Hl]; subst.
    change (total_weight (a :: l)) with (weight a + total_weight l) in *.
    assert (0 ≤ weight a) by (destruct a; cbn; lia).
    assert (0 ≤ total_weight l).
    { clear. induction l as [|b l IH]; [done|].
      change (total_weight (b :: l)) with (weight b + total_weight l).
      assert (0 ≤ weight b) by (destruct b; cbn; lia). lia. }
    rewrite Z.add_assoc. apply (IH _ st1); [done| |lia|lia].
    apply (atom_consistent _ _ st); [done|done|done|lia].
Qed.

Lemma step_consistent N o st st' :
  step o st = Ok st' → consistent N st → 0 ≤ N → N + 1 < 2 ^ 64 →
  consistent (N + 1) st'.
Proof.
  intros Hstep HI HN0 HN.
  destruct (unique_op o) eqn:Hu.
  - destruct (unique_op_frame o st st' Hu Hstep) as (? & ? & ?).
    eapply consistent_frame; try done. eapply consistent_mono; [|done]. lia.
  - destruct (decompose o st st' Hu Hstep) as (l & Hp & Hl).
    pose proof (plan_weight _ _ Hp).
    eapply consistent_mono; [|eapply atoms_run_consistent; try done]; lia.
Qed.

Lemma run_consistent os : ∀ N st st',
  run os st = Ok st' → consistent N st → 0 ≤ N →
  N + Z.of_nat (length os) < 2 ^ 64 →
  consistent (N + Z.of_nat (length os)) st'.
Proof.
  induction os as [|o os IH]; intros N st st' Hrun HI HN0 HN; cbn in *.
  - injection Hrun as <-. by rewrite Z.add_0_r.
  - destruct (step o st) as [st1|] eqn:Hstep; [|done].
    replace (N + Z.of_nat (S (length os))) with (N + 1 + Z.of_nat (length os)) by lia.
    apply (IH _ st1); [done| |lia|lia].
    apply (step_consistent _ o st); [done|done|done|lia].
Qed.

Lemma init_consistent : consistent 0 init.
Proof.
  intros r. unfold block_ok, strong_owners, strong_idle, weak_owners, weak_idle.
  cbn. rewrite !tally_empty. case_decide; [done|lia].
Qed.

Lemma reachable_consistent os st :
  run os init = Ok st → Z.of_nat (length os) < 2 ^ 64 →
  consistent (Z.of_nat (length os)) st.
Proof.
  intros Hrun HN.
  apply (run_consistent os 0 init st Hrun init_consistent); lia.
Qed.

(** What the invariant says about one SharedPtr variable. *)
Lemma consistent_shared N st h sp :
  consistent N st → shareds st !! h = Some sp →
  (SharedPtr.reference sp = nullptr → SharedPtr.object sp = nullptr) ∧
  (SharedPtr.reference sp ≠ nullptr →
   ∃ rc, counters st !! SharedPtr.reference sp = Some rc ∧ 0 ≤ count rc ≤ N ∧
         (if decide (SharedPtr.object sp = nullptr) then 1 ≤ count rc
          else count rc = sharing st (SharedPtr.reference sp))).
Proof.
  intros HI Hh. specialize (HI (SharedPtr.reference sp)).
  unfold block_ok in HI.
  pose proof (tally_split (λ sp0, SharedPtr.reference sp0 = SharedPtr.reference sp)
                (λ sp0, SharedPtr.object sp0 ≠ nullptr) (shareds st)) as Hsplit.
  rewrite (tally_ext (λ v, SharedPtr.reference v = SharedPtr.reference sp
                           ∧ ¬ SharedPtr.object v ≠ nullptr)
                     (λ v, SharedPtr.reference v = SharedPtr.reference sp
                           ∧ SharedPtr.object v = nullptr)) in Hsplit.
  2: { intros ? v _. destruct (decide (SharedPtr.object v = nullptr)); tauto. }
  nonneg (SharedPtr.reference sp) st. known_shared Hh (SharedPtr.reference sp).
  unfold sharing, strong_owners, strong_idle, weak_owners, weak_idle in *.
  split.
  - intros Hr. rewrite decide_True in HI by done.
    destruct (decide (SharedPtr.object sp = nullptr)); [done|].
    abstract_tallies. lia.
  - intros Hr. rewrite decide_False in HI by done.
    destruct (decide (SharedPtr.object sp = nullptr)); abstract_tallies.
    all: destruct HI as (rc & Hl & HI); [lia|].
    all: exists rc; split; [done|]; lia.
Qed.

(** What the invariant says about one WeakPtr variable. *)
Lemma consistent_weak N st w wp :
  consistent N st → weaks st !! w = Some wp →
  WeakPtr.reference wp ≠ nullptr →
  ∃ rc, counters st !! WeakPtr.reference wp = Some rc ∧
        0 ≤ count rc ≤ N ∧ 1 ≤ weak rc ≤ N.
Proof.
  intros HI Hw Hr. specialize (HI (WeakPtr.reference wp)).
  unfold block_ok in HI. rewrite decide_False in HI by done.
  nonneg (WeakPtr.reference wp) st. known_weak Hw (WeakPtr.reference wp).
  unfold strong_owners, strong_idle, weak_owners, weak_idle in *.
  destruct (decide (WeakPtr.pointer wp = nullptr)); abstract_tallies.
  all: destruct HI as (rc & Hl & HI); [lia|].
  all: exists rc; split; [done|]; lia.
Qed.
End reachable.

(** * One object, from its adoption to its deletion *)

Ltac track_norm :=
  unfold owners, mismatched, occurrences, empty_shared in *;
  simp_state;
  repeat first [ rewrite tally_insert | rewrite tally_delete ];
  repeat first
    [ rewrite lookup_insert_eq
    | rewrite lookup_insert_ne by congruence
    | match goal with
      | H : ?m !! ?k = _ |- context [?m !! ?k] => rewrite H
      end ];
  cbn [from_option SharedPtr.object SharedPtr.reference].

(** What a variable in the store says about the owners of [X] and about the
    block [r] they are on. *)
Ltac known_owner H X :=
  let K := fresh "K" in
  pose proof (tally_lookup (λ sp, SharedPtr.object sp = X) _ _ _ H) as K;
  cbn [SharedPtr.object SharedPtr.reference] in K.

Ltac known_match Hm H :=
  let K := fresh "K" in
  pose proof (tally_zero _ _ _ _ Hm H) as K;
  cbn [SharedPtr.object SharedPtr.reference] in K.

Lemma count_event_cons (e' e : event) (tr : list event) :
  count_occ event_eq_dec (e' :: tr) e =
  ((if decide (e' = e) then 1 else 0) + count_occ event_eq_dec tr e)%nat.
Proof. cbn. destruct (event_eq_dec e' e), (decide (e' = e)); done. Qed.

Ltac event_cases :=
  repeat match goal with
  | |- context [decide (?e = DeleteObject ?X)] =>
      destruct (decide (e = DeleteObject X)) as [?|?]; simplify_eq
  end;
  cbn [Nat.add]; try done.

Section tracked.
Context `{alloc : Allocator}.
Context (X : ptr) (HX : X ≠ nullptr).

(** Moves that change neither the owners of [X], nor the blocks, nor the
    heap of objects. *)
Lemma tracked_same N st st' :
  owners st' X = owners st X →
  (∀ r, r ≠ nullptr → mismatched st X r = 0 → mismatched st' X r = 0) →
  counters st' = counters st → objects st' = objects st → trace st' = trace st →
  tracked N X st → tracked N X st'.
Proof.
  intros Eo Em Ec Eob Et [Hb HT]. unfold tracked, occurrences in *.
  rewrite Eo, Eob, Et, Ec. split; [done|].
  case_decide; [done|].
  destruct HT as (? & ? & r & rc & ? & ? & ? & ?).
  split; [done|]. split; [done|]. exists r, rc. auto.
Qed.

Lemma tracked_declare N h st :
  shareds st !! h = None → tracked N X st →
  tracked N X (with_shareds (<[h := empty_shared]> (shareds st)) st).
Proof.
  intros Hh. apply tracked_same; try done.
  - track_norm. resolve_indicators; abstract_tallies; lia.
  - intros r Hr. track_norm. resolve_indicators; abstract_tallies; lia.
Qed.

Lemma tracked_retire N h st :
  shareds st !! h = Some empty_shared → tracked N X st →
  tracked N X (with_shareds (delete h (shareds st)) st).
Proof.
  intros Hh. apply tracked_same; try done.
  - track_norm. resolve_indicators; abstract_tallies; lia.
  - intros r Hr. track_norm. resolve_indicators; abstract_tallies; lia.
Qed.

Lemma tracked_steal N h s sp st :
  shareds st !! h = Some empty_shared → shareds st !! s = Some sp → h ≠ s →
  tracked N X st →
  tracked N X (with_shareds (<[s := empty_shared]> (<[h := sp]> (shareds st))) st).
Proof.
  intros Hh Hs Hne. apply tracked_same; try done.
  - track_norm. resolve_indicators; abstract_tallies; lia.
  - intros r Hr. track_norm. resolve_indicators; abstract_tallies; lia.
Qed.

Lemma tracked_swap N a b sa sb st :
  shareds st !! a = Some sa → shareds st !! b = Some sb → tracked N X st →
  tracked N X (with_shareds (<[a := sb]> (<[b := sa]> (shareds st))) st).
Proof.
  intros Ha Hb.
  destruct (decide (a = b)) as [->|Hne].
  - rewrite Ha in Hb. injection Hb as <-. rewrite insert_insert_eq.
    apply tracked_same; try done.
    + track_norm. resolve_indicators; abstract_tallies; lia.
    + intros r Hr. track_norm. resolve_indicators; abstract_tallies; lia.
  - apply tracked_same; try done.
    + track_norm. resolve_indicators; abstract_tallies; lia.
    + intros r Hr. track_norm. resolve_indicators; abstract_tallies; lia.
Qed.

Lemma tracked_live N p st st' x :
  client_object p st = Ok (x, st') → p ≠ X → tracked N X st → tracked N X st'.
Proof.
  intros ->%client_object_Ok Hp [Hb HT]. unfold tracked, occurrences in *. cbn.
  split; [done|]. unfold owners in *. cbn.
  case_decide.
  - destruct HT as [Hout ?]. split; [|done]. case_decide; set_solver.
  - destruct HT as (Hin & ? & HT). split; [|done]. case_decide; set_solver.
Qed.

Lemma tracked_alias N h s sp st :
  shareds st !! h = Some empty_shared → shareds st !! s = Some sp →
  SharedPtr.reference sp = nullptr → tracked N X st →
  tracked N X (with_shareds (<[h := sp]> (shareds st)) st).
Proof.
  intros Hh Hs Hr Htr.
  known_owner Hs X.
  destruct (decide (SharedPtr.object sp = X)) as [Ho|Ho].
  - (* an owner of X without a block: excluded *)
    exfalso. destruct Htr as [Hb HT].
    unfold owners in *. rewrite decide_False in HT by (abstract_tallies; lia).
    destruct HT as (_ & _ & r & rc & Hrn & _ & _ & Hm).
    known_match Hm Hs. apply K0. left. split; [done|congruence].
  - revert Htr. apply (tracked_same N st); try done.
    + track_norm. resolve_indicators; abstract_tallies; lia.
    + intros r Hrn. track_norm. resolve_indicators; abstract_tallies; lia.
Qed.

Lemma tracked_acquire N h s sp rc st :
  shareds st !! h = Some empty_shared → shareds st !! s = Some sp →
  SharedPtr.reference sp ≠ nullptr →
  counters st !! SharedPtr.reference sp = Some rc →
  tracked N X st → N + 1 < 2 ^ 64 →
  tracked (N + 1) X
    (with_counters
       (<[SharedPtr.reference sp := {| count := wrap (count rc + 1); weak := weak rc |}]>
          (counters st))
       (with_shareds (<[h := sp]> (shareds st)) st)).
Proof.
  intros Hh Hs Hr Hrc [Hb HT] HN.
  known_owner Hs X. unfold tracked in *.
  track_norm.
  destruct (decide (SharedPtr.object sp = X)) as [Ho|Ho]; resolve_indicators.
  - rewrite decide_False in HT by (abstract_tallies; lia).
    destruct HT as (Hin & Hocc & r & rc0 & Hrn & Hl & Hcnt & Hm).
    known_match Hm Hs.
    assert (SharedPtr.reference sp = r) as Er.
    { destruct (decide (SharedPtr.reference sp = r)); [done|]. exfalso. apply K0. by left. }
    rewrite Er in *. rewrite Hrc in Hl. injection Hl as <-.
    split; [abstract_tallies; lia|]. rewrite decide_False by (abstract_tallies; lia).
    split; [done|]. split; [done|].
    exists r. eexists. split; [done|]. split; [apply lookup_insert_eq|]. cbn.
    split; [abstract_tallies; rewrite wrap_small by lia; lia|].
    track_norm. resolve_indicators; abstract_tallies; lia.
  - split; [abstract_tallies; lia|]. rewrite !Z.sub_0_r, !Z.add_0_r.
    case_decide; [done|].
    destruct HT as (Hin & Hocc & r & rc0 & Hrn & Hl & Hcnt & Hm).
    known_match Hm Hs.
    assert (SharedPtr.reference sp ≠ r) as Er by (intros E; apply K0; by right).
    split; [done|]. split; [done|].
    exists r, rc0. split; [done|]. rewrite lookup_insert_ne by done.
    split; [done|]. split; [done|].
    track_norm. resolve_indicators; abstract_tallies; lia.
Qed.

Lemma tracked_adopt N h p st :
  shareds st !! h = Some empty_shared → p ≠ X →
  tracked N X st →
  tracked N X
    (with_counters
       (<[new_address (dom (counters st)) := {| count := wrap (0 + 1); weak := 0 |}]>
          (counters st))
       (with_shareds
          (<[h := {| SharedPtr.object := p;
                     SharedPtr.reference := new_address (dom (counters st)) |}]>
             (shareds st)) st)).
Proof.
  intros Hh Hp [Hb HT].
  destruct (new_address_fresh (dom (counters st))) as [Hnn Hfresh].
  apply not_elem_of_dom in Hfresh.
  unfold tracked in *. track_norm. resolve_indicators.
  rewrite !Z.sub_0_r, !Z.add_0_r. split; [done|].
  case_decide; [done|].
  destruct HT as (Hin & Hocc & r & rc0 & Hrn & Hl & Hcnt & Hm).
  assert (new_address (dom (counters st)) ≠ r) as Er by congruence.
  split; [done|]. split; [done|].
  exists r, rc0. split; [done|]. rewrite lookup_insert_ne by done.
  split; [done|]. split; [done|].
  track_norm. resolve_indicators; abstract_tallies; lia.
Qed.

Lemma tracked_release N h st st1 :
  shared_released h st st1 → tracked N X st → N < 2 ^ 64 →
  tracked N X (with_shareds (<[h := empty_shared]> (shareds st1)) st1).
Proof.
  destruct 1 as [sp Hh Ho|sp rc Hh Ho Hr Hrc Hc|sp rc Hh Ho Hr Hrc Hc Hlive Hw
                |sp rc Hh Ho Hr Hrc Hc Hlive Hw];
    intros Htr HN; known_owner Hh X; pose proof Htr as [Hb HT].
  - (* the handle holds no object *)
    revert Htr. apply (tracked_same N st); try done.
    + track_norm. resolve_indicators; abstract_tallies; lia.
    + intros r Hrn Hm. known_match Hm Hh. revert Hm.
      track_norm. resolve_indicators; first [abstract_tallies; lia | tauto].
  - (* other owners remain *)
    unfold tracked in *. track_norm.
    destruct (decide (SharedPtr.object sp = X)) as [Eo|Eo]; resolve_indicators.
    + rewrite decide_False in HT by (abstract_tallies; lia).
      destruct HT as (Hin & Hocc & r & rc0 & Hrn & Hl & Hcnt & Hm).
      known_match Hm Hh.
      assert (SharedPtr.reference sp = r) as Er.
      { destruct (decide (SharedPtr.reference sp = r)); [done|].
        exfalso. apply K0. by left. }
      rewrite Er in *. rewrite Hrc in Hl. injection Hl as <-.
      rewrite wrap_small in * by (abstract_tallies; lia).
      split; [abstract_tallies; lia|]. rewrite decide_False by (abstract_tallies; lia).
      split; [done|]. split; [done|].
      exists r. eexists. split; [done|]. split; [apply lookup_insert_eq|]. cbn.
      split; [abstract_tallies; lia|].
      track_norm. resolve_indicators; first [abstract_tallies; lia | tauto].
    + rewrite !Z.sub_0_r, !Z.add_0_r. split; [done|].
      case_decide; [done|].
      destruct HT as (Hin & Hocc & r & rc0 & Hrn & Hl & Hcnt & Hm).
      known_match Hm Hh.
      assert (SharedPtr.reference sp ≠ r) as Er by (intros E; apply K0; by right).
      split; [done|]. split; [done|].
      exists r, rc0. split; [done|]. rewrite lookup_insert_ne by done.
      split; [done|]. split; [done|].
      track_norm. resolve_indicators; first [abstract_tallies; lia | tauto].
  - (* the last owner goes, WeakPtr variables keep the block *)
    unfold tracked in *. track_norm.
    destruct (decide (SharedPtr.object sp = X)) as [Eo|Eo]; resolve_indicators.
    + rewrite decide_False in HT by (abstract_tallies; lia).
      destruct HT as (Hin & Hocc & r & rc0 & Hrn & Hl & Hcnt & Hm).
      known_match Hm Hh.
      assert (SharedPtr.reference sp = r) as Er.
      { destruct (decide (SharedPtr.reference sp = r)); [done|].
        exfalso. apply K0. by left. }
      rewrite Er in *. rewrite Hrc in Hl. injection Hl as <-.
      apply wrap_pred_zero in Hc; [|abstract_tallies; lia].
      split; [abstract_tallies; lia|]. rewrite decide_True by (abstract_tallies; lia).
      rewrite Eo. split; [set_solver|].
      rewrite !count_event_cons, Hocc. event_cases.
    + rewrite !Z.sub_0_r, !Z.add_0_r. split; [done|].
      rewrite !count_event_cons. event_cases.
      case_decide.
      * destruct HT as [Hout ?]. split; [set_solver|done].
      * destruct HT as (Hin & Hocc & r & rc0 & Hrn & Hl & Hcnt & Hm).
        known_match Hm Hh.
        assert (SharedPtr.reference sp ≠ r) as Er by (intros E; apply K0; by right).
        split; [set_solver|]. split; [done|].
        exists r, rc0. split; [done|]. rewrite lookup_insert_ne by done.
        split; [done|]. split; [done|].
        track_norm. resolve_indicators; first [abstract_tallies; lia | tauto].
  - (* the last owner goes and takes the block along *)
    unfold tracked in *. track_norm.
    destruct (decide (SharedPtr.object sp = X)) as [Eo|Eo]; resolve_indicators.
    + rewrite decide_False in HT by (abstract_tallies; lia).
      destruct HT as (Hin & Hocc & r & rc0 & Hrn & Hl & Hcnt & Hm).
      known_match Hm Hh.
      assert (SharedPtr.reference sp = r) as Er.
      { destruct (decide (SharedPtr.reference sp = r)); [done|].
        exfalso. apply K0. by left. }
      rewrite Er in *. rewrite Hrc in Hl. injection Hl as <-.
      apply wrap_pred_zero in Hc; [|abstract_tallies; lia].
      split; [abstract_tallies; lia|]. rewrite decide_True by (abstract_tallies; lia).
      rewrite Eo. split; [set_solver|].
      rewrite !count_event_cons, Hocc. event_cases.
    + rewrite !Z.sub_0_r, !Z.add_0_r. split; [done|].
      rewrite !count_event_cons. event_cases.
      case_decide.
      * destruct HT as [Hout ?]. split; [set_solver|done].
      * destruct HT as (Hin & Hocc & r & rc0 & Hrn & Hl & Hcnt & Hm).
        known_match Hm Hh.
        assert (SharedPtr.reference sp ≠ r) as Er by (intros E; apply K0; by right).
        split; [set_solver|]. split; [done|].
        exists r, rc0. split; [done|]. rewrite lookup_delete_ne by done.
        split; [done|]. split; [done|].
        track_norm. resolve_indicators; first [abstract_tallies; lia | tauto].
Qed.

Lemma tracked_mono N N' st : N ≤ N' → tracked N X st → tracked N' X st.
Proof. intros HN [Hb HT]. split; [lia|done]. Qed.

(** Every move of a SharedPtr-only client keeps track of [X], as long as
    [X] is not handed to a handle a second time. *)
Lemma atom_tracked N a st st' :
  atom_step a st st' → shared_atom a = true →
  (∀ p, introduces a = Some p → p ≠ X) →
  tracked N X st → N + weight a < 2 ^ 64 →
  tracked (N + weight a) X st'.
Proof.
  destruct 1; try discriminate; cbn [weight introduces];
    intros _ Hp HT HN; rewrite ?Z.add_0_r in *.
  - eapply tracked_live; eauto.
  - by eapply tracked_declare.
  - by eapply tracked_retire.
  - by eapply tracked_release.
  - by eapply tracked_acquire.
  - by eapply tracked_alias.
  - by eapply tracked_steal.
  - apply (tracked_mono N); [lia|]. apply tracked_adopt; auto.
  - by eapply tracked_swap.
Qed.

Lemma plan_shared o l :
  plan o l → shared_op o = true → Forall (λ a, shared_atom a = true) l.
Proof. destruct 1; try discriminate; intros _; repeat constructor. Qed.

Lemma plan_introduces o l :
  plan o l → Forall (λ a, ∀ p, introduces a = Some p → adopted o = Some p) l.
Proof. destruct 1; repeat constructor; cbn; congruence. Qed.

Lemma atoms_run_tracked l : ∀ N st st',
  atoms_run l st st' →
  Forall (λ a, shared_atom a = true) l →
  Forall (λ a, ∀ p, introduces a = Some p → p ≠ X) l →
  tracked N X st → 0 ≤ N → N + total_weight l < 2 ^ 64 →
  tracked (N + total_weight l) X st'.
Proof.
  induction l as [|a l IH]; intros N st st' Hrun Hs Hi HT HN0 HN.
  - inversion Hrun; subst. cbn. by rewrite Z.add_0_r.
  - inversion Hrun as [|? ? ? st1 ? Ha Hl]; subst.
    inversion Hs; inversion Hi; subst.
    change (total_weight (a :: l)) with (weight a + total_weight l) in *.
    assert (0 ≤ weight a) by (destruct a; cbn; lia).
    assert (0 ≤ total_weight l).
    { clear. induction l as [|b l IH]; [done|].
      change (total_weight (b :: l)) with (weight b + total_weight l).
      assert (0 ≤ weight b) by (destruct b; cbn; lia). lia. }
    rewrite Z.add_assoc. apply (IH _ st1); [done|done|done| |lia|lia].
    apply (atom_tracked _ _ st); [done|done|done|done|lia].
Qed.

Lemma step_tracked N o st st' :
  step o st = Ok st' → shared_op o = true → adopted o ≠ Some X →
  tracked N X st → 0 ≤ N → N + 1 < 2 ^ 64 →
  tracked (N + 1) X st'.
Proof.
  intros Hstep Hs Hx HT HN0 HN.
  assert (unique_op o = false) as Hu by (by destruct o).
  destruct (decompose o st st' Hu Hstep) as (l & Hp & Hl).
  pose proof (plan_weight _ _ Hp).
  eapply tracked_mono; [|eapply atoms_run_tracked; try done].
  - lia.
  - by eapply plan_shared.
  - eapply Forall_impl; [by apply plan_introduces|].
    cbn. intros a Ha p Hap ->. by apply Hx, Ha.
  - lia.
Qed.

Lemma run_tracked os : ∀ N st st',
  run os st = Ok st' →
  Forall (λ o, shared_op o = true ∧ adopted o ≠ Some X) os →
  tracked N X st → 0 ≤ N → N + Z.of_nat (length os) < 2 ^ 64 →
  tracked (N + Z.of_nat (length os)) X st'.
Proof.
  induction os as [|o os IH]; intros N st st' Hrun Hos HT HN0 HN; cbn in *.
  - injection Hrun as <-. by rewrite Z.add_0_r.
  - destruct (step o st) as [st1|] eqn:Hstep; [|done].
    inversion Hos as [|? ? [Hs Hx] Hos']; subst.
    replace (N + Z.of_nat (S (length os))) with (N + 1 + Z.of_nat (length os)) by lia.
    apply (IH _ st1); [done|done| |lia|lia].
    apply (step_tracked _ o st); try done; lia.
Qed.

(** The object right after [SharedPtr<T> a(X);] in the initial state. *)
Lemma tracked_start a st :
  step (SNewPtr a X) init = Ok st → tracked 1 X st.
Proof.
  intros H. cbn in H. unfold_ops. inv_member.
  match goal with
  | H : <[_ := _]> _ !! _ = Some ?rc |- _ =>
      cbn in H; rewrite lookup_insert_eq in H; injection H as <-
  end.
  unfold tracked, owners, mismatched, occurrences. cbn.
  rewrite (decide_False (P := X = nullptr)) by done.
  rewrite tally_insert_fresh, tally_empty by done.
  rewrite indicator_True by done.
  split; [lia|]. rewrite decide_False by lia.
  split; [set_solver|]. split; [done|].
  eexists _, _. split; [eassumption|]. split; [apply lookup_insert_eq|]. cbn.
  split; [by rewrite wrap_small by lia|].
  rewrite tally_insert_fresh, tally_empty by done.
  rewrite indicator_False; [done|]. cbn. tauto.
Qed.
End tracked.

(** * A SharedPtr client that keeps its side never faults *)

Lemma tally_two {V} (P : V → Prop) `{!∀ v, Decision (P v)} (m : gmap positive V)
    (h1 h2 : positive) (v1 v2 : V) :
  h1 ≠ h2 → m !! h1 = Some v1 → m !! h2 = Some v2 → P v1 → P v2 → 2 ≤ tally P m.
Proof.
  intros Hne H1 H2 P1 P2.
  rewrite <- (insert_delete_id m h1 v1) by done.
  rewrite tally_insert_fresh by apply lookup_delete_eq.
  assert (delete h1 m !! h2 = Some v2) as H2' by (by rewrite lookup_delete_ne).
  pose proof (tally_lookup P _ _ _ H2' P2).
  rewrite indicator_True by done. lia.
Qed.

Section sound.
Context `{alloc : Allocator}.

(** Moves after which every object-holding variable has the value of some
    variable before, and no object has gone. *)
Lemma sound_inherited st st' :
  (∀ h sp, shareds st' !! h = Some sp → SharedPtr.object sp ≠ nullptr →
           ∃ h0, shareds st !! h0 = Some sp) →
  objects st ⊆ objects st' →
  sound st → sound st'.
Proof.
  intros Hfrom Hsub [Hlive Hone]. split.
  - intros h sp Hh Ho. destruct (Hfrom h sp Hh Ho) as [h0 Hh0].
    apply Hsub. by apply (Hlive h0).
  - intros h1 h2 sp1 sp2 H1 H2 Ho Heq.
    destruct (Hfrom h1 sp1 H1 Ho) as [k1 Hk1].
    destruct (Hfrom h2 sp2 H2) as [k2 Hk2]; [congruence|].
    by apply (Hone k1 k2).
Qed.

Ltac inherited :=
  apply sound_inherited; simp_state; [|set_solver];
  intros ? ? Hlk Hobj; revert Hlk;
  repeat (rewrite lookup_insert || rewrite lookup_delete);
  repeat case_decide; intros; simplify_eq/=; eauto.

Lemma sound_live p st st' x :
  client_object p st = Ok (x, st') → sound st → sound st'.
Proof.
  intros ->%client_object_Ok. apply sound_inherited; cbn; [eauto|].
  case_decide; set_solver.
Qed.

Lemma sound_enter h st :
  shareds st !! h = None → sound st →
  sound (with_shareds (<[h := empty_shared]> (shareds st)) st).
Proof. intros Hh. unfold empty_shared. inherited. Qed.

Lemma sound_retire h st :
  sound st → sound (with_shareds (delete h (shareds st)) st).
Proof. inherited. Qed.

Lemma sound_copy h s sp cs st :
  shareds st !! s = Some sp → sound st →
  sound (with_counters cs (with_shareds (<[h := sp]> (shareds st)) st)).
Proof. intros Hs. inherited. Qed.

Lemma sound_alias h s sp st :
  shareds st !! s = Some sp → sound st →
  sound (with_shareds (<[h := sp]> (shareds st)) st).
Proof. intros Hs. inherited. Qed.

Lemma sound_steal h s sp st :
  shareds st !! s = Some sp → sound st →
  sound (with_shareds (<[s := empty_shared]> (<[h := sp]> (shareds st))) st).
Proof. intros Hs. unfold empty_shared. inherited. Qed.

Lemma sound_swap a b sa sb st :
  shareds st !! a = Some sa → shareds st !! b = Some sb → sound st →
  sound (with_shareds (<[a := sb]> (<[b := sa]> (shareds st))) st).
Proof. intros Ha Hb. inherited. Qed.

Lemma sound_adopt h p r cs st :
  (p ≠ nullptr → p ∈ objects st ∧ unowned p st) → sound st →
  sound (with_counters cs
           (with_shareds
              (<[h := {| SharedPtr.object := p; SharedPtr.reference := r |}]>
                 (shareds st)) st)).
Proof.
  intros Hp [Hlive Hone]. split.
  - intros k sp. cbn. rewrite lookup_insert. case_decide.
    + intros [= <-] Ho. cbn in *. by apply Hp.
    + apply Hlive.
  - intros k1 k2 sp1 sp2. cbn. rewrite !lookup_insert.
    repeat case_decide; intros H1 H2 Ho Heq.
    + congruence.
    + exfalso. injection H1 as <-. cbn in *.
      destruct (Hp Ho) as [_ Hun]. by apply (Hun k2 sp2).
    + exfalso. injection H2 as <-. cbn in *. rewrite Heq in Ho.
      destruct (Hp Ho) as [_ Hun]. by apply (Hun k1 sp1).
    + by apply (Hone k1 k2).
Qed.

Lemma sound_release N h st st1 :
  shared_released h st st1 → consistent N st → N < 2 ^ 64 → sound st →
  sound (with_shareds (<[h := empty_shared]> (shareds st1)) st1).
Proof.
  intros Hrel HI HN Hs.
  destruct Hrel as [sp Hh Ho|sp rc Hh Ho Hr Hrc Hc|sp rc Hh Ho Hr Hrc Hc Hlive Hw
                   |sp rc Hh Ho Hr Hrc Hc Hlive Hw].
  - revert Hs. unfold empty_shared. inherited.
  - revert Hs. unfold empty_shared. inherited.
  - (* the object goes: nobody else holds it *)
    destruct (consistent_shared _ _ _ _ HI Hh) as [_ Hblock].
    destruct (Hblock Hr) as (rc' & Hrc' & Hb & Hcnt).
    rewrite Hrc in Hrc'. injection Hrc' as <-.
    rewrite decide_False in Hcnt by done.
    apply wrap_pred_zero in Hc; [|lia].
    destruct Hs as [Hl Hone]. split.
    + intros k sp'. cbn. rewrite lookup_insert.
      destruct (decide (h = k)) as [->|Hne]; [intros Hk Ho'; by simplify_eq/=|].
      intros Hk Ho'. apply elem_of_difference. split; [by apply (Hl k)|].
      intros Heq%elem_of_singleton.
      assert (SharedPtr.reference sp' = SharedPtr.reference sp) as Hsame
        by (by apply (Hone k h)).
      assert (2 ≤ sharing st (SharedPtr.reference sp)) as Htwo
        by (unfold sharing; by eapply (tally_two _ _ k h sp' sp)).
      lia.
    + intros k1 k2 sp1 sp2. cbn. rewrite !lookup_insert.
      destruct (decide (h = k1)), (decide (h = k2));
        intros H1 H2 Ho1 Heq; simplify_eq/=.
      by apply (Hone k1 k2).
  - destruct (consistent_shared _ _ _ _ HI Hh) as [_ Hblock].
    destruct (Hblock Hr) as (rc' & Hrc' & Hb & Hcnt).
    rewrite Hrc in Hrc'. injection Hrc' as <-.
    rewrite decide_False in Hcnt by done.
    apply wrap_pred_zero in Hc; [|lia].
    destruct Hs as [Hl Hone]. split.
    + intros k sp'. cbn. rewrite lookup_insert.
      destruct (decide (h = k)) as [->|Hne]; [intros Hk Ho'; by simplify_eq/=|].
      intros Hk Ho'. apply elem_of_difference. split; [by apply (Hl k)|].
      intros Heq%elem_of_singleton.
      assert (SharedPtr.reference sp' = SharedPtr.reference sp) as Hsame
        by (by apply (Hone k h)).
      assert (2 ≤ sharing st (SharedPtr.reference sp)) as Htwo
        by (unfold sharing; by eapply (tally_two _ _ k h sp' sp)).
      lia.
    + intros k1 k2 sp1 sp2. cbn. rewrite !lookup_insert.
      destruct (decide (h = k1)), (decide (h = k2));
        intros H1 H2 Ho1 Heq; simplify_eq/=.
      by apply (Hone k1 k2).
Qed.

(** A pointer that is not live is held by nobody. *)
Lemma unowned_fresh p st :
  owned_live st → p ∉ objects st → p ≠ nullptr → unowned p st.
Proof. intros Hl Hp Hn h sp Hh Heq. apply Hp. rewrite <- Heq in *. by apply (Hl h). Qed.

Lemma released_keeps_object h st st1 p :
  shared_released h st st1 → unowned p st → p ∈ objects st → p ∈ objects st1.
Proof.
  intros Hrel Hun Hp. destruct Hrel as [sp Hh ?|sp rc Hh|sp rc Hh|sp rc Hh]; cbn;
    try done; apply elem_of_difference; (split; [done|]);
    intros ?%elem_of_singleton; by apply (Hun h sp).
Qed.

Ltac invert_run :=
  repeat match goal with
  | H : atoms_run [] _ _ |- _ => inversion H; subst; clear H
  | H : atoms_run (_ :: _) _ _ |- _ => inversion H; subst; clear H
  | H : atom_step _ _ _ |- _ => inversion H; subst; clear H
  end.

(** Every statement of a client that keeps its side keeps the store sound. *)
Lemma step_sound N o st st' :
  step o st = Ok st' → ready o st → consistent N st → N < 2 ^ 64 →
  sound st → sound st'.
Proof.
  intros Hstep Hready HI HN Hs.
  assert (unique_op o = false) as Hu by (destruct o; done).
  destruct (decompose o st st' Hu Hstep) as (l & Hp & Hl).
  destruct Hp; cbn in Hready; try done; invert_run.
  - by apply sound_enter.
  - (* SharedPtr<T> a(p) *)
    match goal with H : client_object _ _ = Ok (_, ?s0) |- _ =>
      pose proof H as Hc; apply client_object_Ok in Hc;
      assert (sound s0) as Hs0 by (by eapply sound_live)
    end.
    destruct Hready as [_ Hfresh].
    apply sound_adopt; [|by apply sound_enter].
    intros Hn. subst. cbn. rewrite decide_False by done. split; [set_solver|].
    intros h sp. cbn. rewrite lookup_insert.
    destruct (decide (a = h)); [intros [= <-]; by cbn|].
    intros Hh. by apply (unowned_fresh p st (proj1 Hs) (Hfresh Hn) Hn h).
  - eapply sound_copy; [done|]. by apply sound_enter.
  - eapply sound_alias; [done|]. by apply sound_enter.
  - eapply sound_steal; [done|]. by apply sound_enter.
  - done.
  - eapply sound_copy; [done|]. by eapply sound_release.
  - done.
  - eapply sound_steal; [done|]. by eapply sound_release.
  - by eapply sound_release.
  - (* a.reset(p), p not null *)
    match goal with H : client_object _ _ = Ok (_, ?s0) |- _ =>
      pose proof H as Hc; apply client_object_Ok in Hc;
      assert (sound s0) as Hs0 by (by eapply sound_live);
      assert (consistent N s0) as HI0 by (eapply consistent_frame; [| | |done]; by subst)
    end.
    destruct Hready as [_ Hfresh].
    match goal with H : shared_released _ _ ?s1 |- _ =>
      pose proof (shared_released_frame _ _ _ H) as (_ & Hsh & _ & _);
      pose proof (released_keeps_object _ _ _ p H) as Hkeep
    end.
    apply sound_adopt; [|by eapply sound_release].
    intros Hn.
    assert (unowned p st) as Hun by (apply unowned_fresh; [apply Hs|by apply Hfresh|done]).
    split.
    + cbn. apply Hkeep; subst; cbn; [done|]. rewrite decide_False by done. set_solver.
    + intros h sp. cbn. rewrite Hsh. subst. cbn.
      rewrite lookup_insert. destruct (decide (a = h)); [intros [= <-]; by cbn|]. apply Hun.
  - (* a.reset(p), p null *)
    match goal with H : client_object _ _ = Ok (_, ?s0) |- _ =>
      pose proof H as Hc; apply client_object_Ok in Hc;
      assert (sound s0) as Hs0 by (by eapply sound_live);
      assert (consistent N s0) as HI0 by (eapply consistent_frame; [| | |done]; by subst)
    end.
    by eapply sound_release.
  - by eapply sound_swap.
  - apply sound_retire. by eapply sound_release.
Qed.

(** [SharedPtr::deleter] returns in a consistent store whose held objects are
    live. *)
Lemma SharedPtr_deleter_returns N st h sp :
  shareds st !! h = Some sp → consistent N st → owned_live st →
  ∃ st1, SharedPtr_deleter h st = Ok (tt, st1).
Proof.
  intros Hh HI Hlive.
  destruct (decide (SharedPtr.object sp = nullptr)) as [Ho|Ho].
  - exists st. mrun. reflexivity.
  - destruct (consistent_shared _ _ _ _ HI Hh) as [Hnull Hblock].
    assert (SharedPtr.reference sp ≠ nullptr) as Hr by (intros Hr; by apply Ho, Hnull).
    destruct (Hblock Hr) as (rc & Hrc & _).
    pose proof (Hlive h sp Hh Ho) as Hobj.
    destruct (decide (wrap (count rc - 1) = 0)) as [Hc|Hc];
      [destruct (decide (weak rc = 0)) as [Hw|Hw]|];
      eexists; mrun; reflexivity.
Qed.

Lemma bind_run {A B} (m : M A) (k : A → M B) st a st1 :
  m st = Ok (a, st1) → bind m k st = k a st1.
Proof. unfold bind. by intros ->. Qed.

(** A statement that is ready returns. *)
Lemma step_returns N o st :
  ready o st → consistent N st → N < 2 ^ 64 → sound st →
  ∃ st', step o st = Ok st'.
Proof.
  intros Hready HI HN Hs. pose proof (proj1 Hs) as Hlive.
  destruct o as [| | | | | | | |a|a p|a b| |a b|a b|a b|a|a p|a b|a| | | | | | | | | | |];
    cbn in Hready; try done.
  - eexists. mrun. reflexivity.
  - destruct Hready as [Ha _].
    destruct (new_address_fresh (dom (counters st))) as [Hnn _].
    destruct (decide (p = nullptr)); eexists; mrun; reflexivity.
  - destruct Hready as [Ha [sp Hb]].
    destruct (decide (SharedPtr.reference sp = nullptr)) as [Hr|Hr].
    + eexists. mrun. reflexivity.
    + destruct (consistent_shared _ _ _ _ HI Hb) as [_ Hblock].
      destruct (Hblock Hr) as (rc & Hrc & _).
      eexists. mrun. reflexivity.
  - destruct Hready as [Ha [sp Hb]].
    assert (a ≠ b) by congruence.
    eexists. mrun. reflexivity.
  - destruct Hready as [[spa Ha] (sp & Hb & Hsrc)].
    destruct (decide (a = b)) as [->|Hne]; [eexists; mrun; reflexivity|].
    destruct Hsrc as [?|Hr]; [done|].
    destruct (SharedPtr_deleter_returns N st a spa Ha HI Hlive) as [st1 Hdel].
    pose proof (SharedPtr_deleter_Ok _ _ _ _ Hdel) as Hrel.
    destruct (shared_released_frame _ _ _ Hrel) as (_ & Hsh & _ & _).
    assert (consistent N (with_shareds (<[a := empty_shared]> (shareds st1)) st1)) as HI1
      by (by eapply consistent_release).
    assert (shareds (with_shareds (<[a := empty_shared]> (shareds st1)) st1) !! b = Some sp)
      as Hb1 by (cbn; rewrite Hsh; by rewrite lookup_insert_ne).
    destruct (consistent_shared _ _ _ _ HI1 Hb1) as [_ Hblock]. cbn in Hblock.
    destruct (Hblock Hr) as (rc & Hrc & _).
    rewrite <- Hsh in Ha, Hb.
    eexists. cbn. unfold SharedPtr_assign, exec. rewrite decide_False by done.
    rewrite (bind_run _ _ _ _ _ Hdel). mrun. reflexivity.
  - destruct Hready as [[spa Ha] [sp Hb]].
    destruct (decide (a = b)) as [->|Hne]; [eexists; mrun; reflexivity|].
    destruct (SharedPtr_deleter_returns N st a spa Ha HI Hlive) as [st1 Hdel].
    pose proof (SharedPtr_deleter_Ok _ _ _ _ Hdel) as Hrel.
    destruct (shared_released_frame _ _ _ Hrel) as (_ & Hsh & _ & _).
    rewrite <- Hsh in Ha, Hb.
    eexists. cbn. unfold SharedPtr_move_assign, exec. rewrite decide_False by done.
    rewrite (bind_run _ _ _ _ _ Hdel). mrun. reflexivity.
  - destruct Hready as [spa Ha].
    destruct (SharedPtr_deleter_returns N st a spa Ha HI Hlive) as [st1 Hdel].
    pose proof (SharedPtr_deleter_Ok _ _ _ _ Hdel) as Hrel.
    destruct (shared_released_frame _ _ _ Hrel) as (_ & Hsh & _ & _).
    rewrite <- Hsh in Ha.
    eexists. cbn. unfold SharedPtr_reset, exec.
    rewrite (bind_run _ _ _ _ _ Hdel). mrun. reflexivity.
  - destruct Hready as [[spa Ha] _].
    destruct (client_object p st) as [[[] s0]|] eqn:Hc; [|by unfold client_object in Hc; case_decide].
    pose proof Hc as Hc'. apply client_object_Ok in Hc'.
    assert (sound s0) as [Hlive0 _] by (by eapply sound_live).
    assert (consistent N s0) as HI0 by (eapply consistent_frame; [| | |done]; by subst).
    assert (shareds s0 !! a = Some spa) as Ha0 by (by subst).
    destruct (SharedPtr_deleter_returns N s0 a spa Ha0 HI0 Hlive0) as [st1 Hdel].
    pose proof (SharedPtr_deleter_Ok _ _ _ _ Hdel) as Hrel.
    destruct (shared_released_frame _ _ _ Hrel) as (_ & Hsh & _ & _).
    rewrite <- Hsh in Ha0.
    destruct (new_address_fresh (dom (counters st1))) as [Hnn _].
    destruct (decide (p = nullptr)); eexists; cbn; unfold SharedPtr_reset_ptr, exec;
      rewrite (bind_run _ _ _ _ _ Hc), (bind_run _ _ _ _ _ Hdel); mrun; reflexivity.
  - destruct Hready as [[spa Ha] [sp Hb]].
    destruct (decide (a = b)) as [->|Hne]; eexists; mrun; reflexivity.
  - destruct Hready as [spa Ha].
    destruct (SharedPtr_deleter_returns N st a spa Ha HI Hlive) as [st1 Hdel].
    pose proof (SharedPtr_deleter_Ok _ _ _ _ Hdel) as Hrel.
    destruct (shared_released_frame _ _ _ Hrel) as (_ & Hsh & _ & _).
    rewrite <- Hsh in Ha.
    eexists. cbn. unfold SharedPtr_dtor, exec.
    rewrite (bind_run _ _ _ _ _ Hdel). mrun. reflexivity.
Qed.

Lemma init_sound : sound init.
Proof. split; intros ? *; cbn; by rewrite lookup_empty. Qed.

(** A client that keeps its side runs to the end, in a consistent and sound
    store. *)
Lemma run_returns os : ∀ N st,
  obeys os st → consistent N st → sound st → 0 ≤ N →
  N + Z.of_nat (length os) < 2 ^ 64 →
  ∃ st', run os st = Ok st' ∧ consistent (N + Z.of_nat (length os)) st' ∧ sound st'.
Proof.
  induction os as [|o os IH]; intros N st Hob HI Hs HN0 HN.
  - exists st. cbn. by rewrite Z.add_0_r.
  - cbn [obeys] in Hob. destruct Hob as [Hready Hrest].
    cbn [length] in HN. rewrite Nat2Z.inj_succ in HN.
    destruct (step_returns N o st Hready HI ltac:(lia) Hs) as [st1 Hstep].
    rewrite Hstep in Hrest.
    assert (consistent (N + 1) st1) as HI1
      by (apply (step_consistent N o st); [done|done|done|lia]).
    assert (sound st1) as Hs1 by (apply (step_sound N o st); [done|done|done|lia|done]).
    destruct (IH (N + 1) st1 Hrest HI1 Hs1 ltac:(lia) ltac:(lia)) as (st' & Hrun & HI' & Hs').
    exists st'. cbn [run length]. rewrite Hstep, Nat2Z.inj_succ.
    split; [done|]. split; [|done].
    by replace (N + Z.succ (Z.of_nat (length os))) with (N + 1 + Z.of_nat (length os)) by lia.
Qed.

Lemma ready_shared_op o st : ready o st → shared_op o = true.
Proof. by destruct o. Qed.
End sound.

(** ** Deletions are never undone *)

Section deletions.
Context `{alloc : Allocator}.

Lemma atom_trace a st st' :
  atom_step a st st' → ∃ new, trace st' = new ++ trace st.
Proof.
  destruct 1; try (by exists []).
  - exists []. match goal with H : client_object _ _ = _ |- _ =>
      apply client_object_Ok in H; by subst end.
  - match goal with H : shared_released _ _ _ |- _ => destruct H end;
      cbn; [by exists [] | by exists [] | by eexists [_] | by eexists [_; _]].
  - match goal with H : weak_released _ _ _ |- _ => destruct H end;
      cbn; [by exists [] | by exists [] | by eexists [_]].
Qed.

Lemma atoms_run_trace l : ∀ st st',
  atoms_run l st st' → ∃ new, trace st' = new ++ trace st.
Proof.
  induction l as [|a l IH]; intros st st' Hrun.
  - inversion Hrun; subst. by exists [].
  - inversion Hrun as [|? ? ? st1 ? Ha Hl]; subst.
    destruct (atom_trace _ _ _ Ha) as [n1 E1].
    destruct (IH _ _ Hl) as [n2 E2].
    exists (n2 ++ n1). by rewrite E2, E1, app_assoc.
Qed.

Lemma step_occurrences o st st' e :
  unique_op o = false → step o st = Ok st' →
  (occurrences e st ≤ occurrences e st')%nat.
Proof.
  intros Hu Hstep.
  destruct (decompose o st st' Hu Hstep) as (l & _ & Hl).
  destruct (atoms_run_trace _ _ _ Hl) as [new E].
  unfold occurrences. rewrite E, count_occ_app. lia.
Qed.
End deletions.

(** * The object of a SharedPtr is deleted exactly once *)

Lemma run_app_Ok `{alloc : Allocator} (pre : list op) : ∀ o post st st',
  run (pre ++ o :: post) st = Ok st' →
  ∃ s1 s2, run pre st = Ok s1 ∧ step o s1 = Ok s2 ∧ run post s2 = Ok st'.
Proof.
  induction pre as [|p pre IH]; intros o post st st' Hrun; cbn in Hrun.
  - destruct (step o st) as [s2|] eqn:Hstep; [|done]. by exists st, s2.
  - destruct (step p st) as [s|] eqn:Hstep; [|done].
    destruct (IH o post s st' Hrun) as (s1 & s2 & H1 & H2 & H3).
    exists s1, s2. cbn. by rewrite Hstep.
Qed.


(** Checking that a concrete client keeps its side, statement by statement. *)
Ltac next_statement :=
  lazymatch goal with
  | |- context [@step ?A ?o ?s] =>
      let r := eval vm_compute in (@step A o s) in
      change (@step A o s) with r; cbv beta iota
  end.

Ltac ready_now :=
  cbn [ready]; repeat split;
  first [ reflexivity | by eexists | intros _; set_solver
        | eexists; split; [reflexivity | by (left + right)] ].

Ltac obey :=
  repeat (cbn [obeys]; first [exact I | split; [ready_now | next_statement]]).


(** * UniquePtr *)

(** C8: move construction empties the source and hands the pointer to the
    destination; destroying the emptied source afterwards deletes nothing and
    leaves the destination and its object as they are. *)
Theorem unique_move_then_destroy_source `{alloc : Allocator}
    (st : state) (src dst : handle) (p : ptr) :
  uniques st !! src = Some {| UniquePtr.object := p |} →
  p ≠ nullptr →
  uniques st !! dst = None →
  ∃ st1 st2,
    step (UNewMove dst src) st = Ok st1 ∧
    read (UniquePtr_get src) st1 = Some nullptr ∧
    read (UniquePtr_get dst) st1 = Some p ∧
    step (UDelete src) st1 = Ok st2 ∧
    st2 = with_uniques (delete src (uniques st1)) st1 ∧
    read (UniquePtr_get dst) st2 = Some p ∧
    objects st2 = objects st ∧ trace st2 = trace st.
Proof.
  intros Hs Hp Hd.
  assert (src ≠ dst) by congruence.
  eexists _, _. split; [mrun; reflexivity|].
  split; [mrun; reflexivity|].
  split; [mrun; reflexivity|].
  split; [mrun; reflexivity|].
  split; [reflexivity|].
  split; [mrun; reflexivity|].
  done.
Qed.

Lemma unique_move_then_destroy_source_witness :
  ∃ st, run (H := bump_allocator) [UNewPtr 1%positive 7%N] init = Ok st ∧
    uniques st !! 1%positive = Some {| UniquePtr.object := 7%N |} ∧
    7%N ≠ nullptr ∧
    uniques st !! 2%positive = None ∧
    ∃ st1 st2,
      step (H := bump_allocator) (UNewMove 2%positive 1%positive) st = Ok st1 ∧
      read (UniquePtr_get 1%positive) st1 = Some nullptr ∧
      read (UniquePtr_get 2%positive) st1 = Some 7%N ∧
      step (H := bump_allocator) (UDelete 1%positive) st1 = Ok st2 ∧
      st2 = with_uniques (delete 1%positive (uniques st1)) st1 ∧
      read (UniquePtr_get 2%positive) st2 = Some 7%N ∧
      objects st2 = objects st ∧ trace st2 = trace st.
Proof.
  eexists. split; [vm_compute; reflexivity|].
  split; [reflexivity|]. split; [done|]. split; [reflexivity|].
  apply (unique_move_then_destroy_source (alloc := bump_allocator)); [reflexivity|done|reflexivity].
Defined.

(** Move assignment of a UniquePtr to itself: the object is deleted first,
    then the dangling pointer is copied onto itself and nulled. *)
Lemma UniquePtr_self_move_assign `{alloc : Allocator} (st : state) (u : handle) (p : ptr) :
  uniques st !! u = Some {| UniquePtr.object := p |} →
  p ≠ nullptr → p ∈ objects st →
  step (UMoveAssign u u) st =
    Ok {| uniques := <[u := {| UniquePtr.object := nullptr |}]> (uniques st);
          shareds := shareds st; weaks := weaks st; counters := counters st;
          objects := objects st ∖ {[p]};
          trace := DeleteObject p :: trace st |}.
Proof.
  intros Hu Hp Hlive. mrun. by rewrite insert_insert_eq.
Qed.

(** Self-assignment of a SharedPtr or a WeakPtr returns at the identity test. *)
Lemma SharedPtr_self_assign `{alloc : Allocator} (st : state) (a : handle) :
  is_Some (shareds st !! a) →
  step (SAssign a a) st = Ok st ∧ step (SMoveAssign a a) st = Ok st.
Proof. intros [sp Ha]. split; mrun; reflexivity. Qed.

Lemma WeakPtr_self_assign `{alloc : Allocator} (st : state) (w : handle) :
  is_Some (weaks st !! w) →
  step (WAssign w w) st = Ok st ∧ step (WMoveAssign w w) st = Ok st.
Proof. intros [wp Hw]. split; mrun; reflexivity. Qed.

(** C4, at the failing input: [UniquePtr<T> u(p); u = std::move(u);] deletes
    the object and leaves [u] empty, where the claim has the handle unchanged
    and the object alive. *)
Theorem unique_self_move_assign_destroys :
  ∃ st1 st2,
    run (H := bump_allocator) [UNewPtr 1%positive 7%N] init = Ok st1 ∧
    read (UniquePtr_get 1%positive) st1 = Some 7%N ∧
    7%N ∈ objects st1 ∧
    step (H := bump_allocator) (UMoveAssign 1%positive 1%positive) st1 = Ok st2 ∧
    read (UniquePtr_get 1%positive) st2 = Some nullptr ∧
    (7%N ∉ objects st2) ∧
    trace st2 = [DeleteObject 7%N].
Proof.
  eexists _, _. split; [vm_compute; reflexivity|].
  split; [reflexivity|]. split; [by vm_compute|].
  split; [vm_compute; reflexivity|].
  split; [reflexivity|]. split; [by vm_compute|]. reflexivity.
Qed.

(** * SharedPtr made from a null pointer *)

(** C10: [SharedPtr(nullptr)] allocates a block with strong count 1, so the
    handle reports use_count() = 1 while get() is null; and a handle whose
    object pointer is null is destroyed or reset without touching any count,
    without deleting anything. *)
Theorem null_pointer_block_is_never_released `{alloc : Allocator}
    (st : state) (a : handle) :
  shareds st !! a = None →
  (∃ st1 r,
     step (SNewPtr a nullptr) st = Ok st1 ∧
     r ≠ nullptr ∧ (r ∉ dom (counters st)) ∧
     shareds st1 !! a = Some {| SharedPtr.object := nullptr; SharedPtr.reference := r |} ∧
     counters st1 = <[r := {| count := 1; weak := 0 |}]> (counters st) ∧
     read (SharedPtr_use_count a) st1 = Some 1 ∧
     read (SharedPtr_get a) st1 = Some nullptr) ∧
  (∀ (st' : state) (sp : SharedPtr.t),
     shareds st' !! a = Some sp → SharedPtr.object sp = nullptr →
     step (SDelete a) st' = Ok (with_shareds (delete a (shareds st')) st') ∧
     step (SReset a) st' = Ok (with_shareds (<[a := empty_shared]> (shareds st')) st') ∧
     step (SResetPtr a nullptr) st' =
       Ok (with_shareds (<[a := empty_shared]> (shareds st')) st')).
Proof.
  intros Ha. split.
  - destruct (new_address_fresh (dom (counters st))) as [Hnn Hfresh].
    eexists _, (new_address (dom (counters st))).
    split; [mrun; reflexivity|].
    split; [done|]. split; [done|].
    split; [apply lookup_insert_eq|].
    split; [cbn; by rewrite insert_insert_eq|].
    split; mrun; reflexivity.
  - intros st' [o r] Hsp Ho. cbn in Ho. subst o.
    split; [mrun; reflexivity|].
    split.
    + mrun. unfold empty_shared. by rewrite insert_insert_eq.
    + mrun. unfold empty_shared. destruct st'. cbn. by rewrite insert_insert_eq.
Qed.

Lemma null_pointer_block_is_never_released_witness :
  shareds init !! 1%positive = None ∧
  (∃ st1 r,
     step (H := bump_allocator) (SNewPtr 1%positive nullptr) init = Ok st1 ∧
     r ≠ nullptr ∧ (r ∉ dom (counters init)) ∧
     shareds st1 !! 1%positive =
       Some {| SharedPtr.object := nullptr; SharedPtr.reference := r |} ∧
     counters st1 = <[r := {| count := 1; weak := 0 |}]> (counters init) ∧
     read (SharedPtr_use_count 1%positive) st1 = Some 1 ∧
     read (SharedPtr_get 1%positive) st1 = Some nullptr) ∧
  (∀ (st' : state) (sp : SharedPtr.t),
     shareds st' !! 1%positive = Some sp → SharedPtr.object sp = nullptr →
     step (H := bump_allocator) (SDelete 1%positive) st' =
       Ok (with_shareds (delete 1%positive (shareds st')) st') ∧
     step (H := bump_allocator) (SReset 1%positive) st' =
       Ok (with_shareds (<[1%positive := empty_shared]> (shareds st')) st') ∧
     step (H := bump_allocator) (SResetPtr 1%positive nullptr) st' =
       Ok (with_shareds (<[1%positive := empty_shared]> (shareds st')) st')).
Proof.
  split; [reflexivity|].
  apply (null_pointer_block_is_never_released (alloc := bump_allocator)). reflexivity.
Defined.

(** * WeakPtr release *)

(** While the strong count is positive, [WeakPtr::deleter] stops at the test
    of the strong count: the weak count is not decremented. *)
Lemma WeakPtr_deleter_strong_positive (st : state) (w : handle) (wp : WeakPtr.t)
    (rc : ReferenceCounter) :
  weaks st !! w = Some wp →
  WeakPtr.reference wp ≠ nullptr →
  counters st !! WeakPtr.reference wp = Some rc →
  count rc ≠ 0 →
  WeakPtr_deleter w st = Ok (tt, st).
Proof. intros Hw Hr Hrc Hc. mrun. reflexivity. Qed.

(** C3, at the failing input: [SharedPtr<T> a(p); WeakPtr<T> w(a);] and then
    the end of [w].  The destructor leaves the weak count at 1; releasing as
    the specification words it brings it to 0. *)
Theorem weak_release_skips_decrement :
  ∃ st1 st2 st3,
    run (H := bump_allocator) [SNewPtr 1%positive 7%N; WNewShared 1%positive 1%positive] init
      = Ok st1 ∧
    counters st1 !! 1%N = Some {| count := 1; weak := 1 |} ∧
    step (H := bump_allocator) (WDelete 1%positive) st1 = Ok st2 ∧
    weaks st2 = ∅ ∧
    counters st2 !! 1%N = Some {| count := 1; weak := 1 |} ∧
    exec (WeakPtr_release_spec 1%positive) st1 = Ok st3 ∧
    counters st3 !! 1%N = Some {| count := 1; weak := 0 |}.
Proof.
  eexists _, _, _. split; [vm_compute; reflexivity|].
  split; [reflexivity|]. split; [vm_compute; reflexivity|].
  split; [reflexivity|]. split; [reflexivity|].
  split; [vm_compute; reflexivity|]. reflexivity.
Qed.

(** C2, at the failing input: the WeakPtr goes first, then the last SharedPtr.
    No handle is left, the block is still allocated with weak count 1, and no
    block was ever deleted.  In the other order the block is deleted. *)
Theorem weak_first_leaks_block :
  ∃ st st',
    run (H := bump_allocator)
      [SNewPtr 1%positive 7%N; WNewShared 1%positive 1%positive;
       WDelete 1%positive; SDelete 1%positive] init = Ok st ∧
    shareds st = ∅ ∧ weaks st = ∅ ∧
    counters st = {[ 1%N := {| count := 0; weak := 1 |} ]} ∧
    trace st = [DeleteObject 7%N] ∧
    run (H := bump_allocator)
      [SNewPtr 1%positive 7%N; WNewShared 1%positive 1%positive;
       SDelete 1%positive; WDelete 1%positive] init = Ok st' ∧
    counters st' = ∅ ∧
    trace st' = [DeleteCounter 1%N; DeleteObject 7%N].
Proof.
  eexists _, _. split; [vm_compute; reflexivity|].
  split; [reflexivity|]. split; [reflexivity|]. split; [reflexivity|].
  split; [reflexivity|]. split; [vm_compute; reflexivity|].
  split; reflexivity.
Qed.

(** * SharedPtr copy assignment *)

(** Copy assignment from a source without a block: after the release of the
    target, [reference->add()] goes through the null pointer. *)
Lemma SharedPtr_assign_empty_source `{alloc : Allocator} (st st1 : state)
    (a b : handle) (sp : SharedPtr.t) :
  a ≠ b →
  shareds st !! b = Some sp →
  SharedPtr.reference sp = nullptr →
  SharedPtr_deleter a st = Ok (tt, st1) →
  step (SAssign a b) st = Fault NullDeref.
Proof.
  intros Hab Hb Hr Hdel.
  pose proof (SharedPtr_deleter_Ok _ _ _ _ Hdel) as Hrel.
  destruct (shared_released_frame _ _ _ Hrel) as (_ & Hsh & _ & [ap Ha]).
  cbn. unfold SharedPtr_assign, exec. rewrite decide_False by done.
  unfold bind at 1. rewrite Hdel.
  rewrite <- Hsh in Ha, Hb.
  mrun. reflexivity.
Qed.

(** C7, at the failing input: [SharedPtr<T> a(p); SharedPtr<T> b; a = b;]. *)
Theorem shared_assign_from_empty_faults :
  ∃ st,
    run (H := bump_allocator) [SNewPtr 1%positive 7%N; SNew 2%positive] init = Ok st ∧
    shareds st !! 2%positive = Some empty_shared ∧
    step (H := bump_allocator) (SNewCopy 3%positive 2%positive) st =
      Ok (with_shareds (<[3%positive := empty_shared]> (shareds st)) st) ∧
    step (H := bump_allocator) (SAssign 1%positive 2%positive) st = Fault NullDeref.
Proof.
  eexists. split; [vm_compute; reflexivity|].
  split; [reflexivity|]. split; [vm_compute; reflexivity|].
  vm_compute; reflexivity.
Qed.

(** * use_count *)




(** * lock *)

(** C5: in every state a client can reach, lock() on an expired WeakPtr (no
    block, or strong count 0) returns an empty SharedPtr and changes nothing
    else; on any other WeakPtr it returns a SharedPtr with the observer's
    pointer and block, with the strong count one higher than before, which is
    what use_count() of the new handle reports.  It never faults. *)
Theorem lock_spec `{alloc : Allocator}
    (os : list op) (st : state) (w a : handle) (wp : WeakPtr.t) :
  run os init = Ok st →
  Z.of_nat (length os) + 1 < 2 ^ 64 →
  weaks st !! w = Some wp →
  shareds st !! a = None →
  ∃ c,
    read (WeakPtr_use_count w) st = Some c ∧
    read (WeakPtr_expired w) st = Some (bool_decide (c = 0)) ∧
    (c = 0 ↔ WeakPtr.reference wp = nullptr ∨
             ∃ rc, counters st !! WeakPtr.reference wp = Some rc ∧ count rc = 0) ∧
    if decide (c = 0) then
      step (WLock w a) st = Ok (with_shareds (<[a := empty_shared]> (shareds st)) st)
    else
      ∃ rc st',
        counters st !! WeakPtr.reference wp = Some rc ∧ count rc = c ∧
        step (WLock w a) st = Ok st' ∧
        st' = with_counters
                (<[WeakPtr.reference wp := {| count := c + 1; weak := weak rc |}]>
                   (counters st))
                (with_shareds
                   (<[a := {| SharedPtr.object := WeakPtr.pointer wp;
                              SharedPtr.reference := WeakPtr.reference wp |}]>
                      (shareds st)) st) ∧
        read (SharedPtr_use_count a) st' = Some (c + 1).
Proof.
  intros Hrun HN Hw Ha.
  assert (Z.of_nat (length os) < 2 ^ 64) as HN' by lia.
  pose proof (reachable_consistent os st Hrun HN') as HI.
  destruct (decide (WeakPtr.reference wp = nullptr)) as [Hr|Hr].
  - exists 0. split; [mrun; reflexivity|]. split; [mrun; reflexivity|].
    split; [split; [by left | done]|]. rewrite decide_True by done. mrun. reflexivity.
  - destruct (consistent_weak _ _ _ _ HI Hw Hr) as (rc & Hrc & Hc & _).
    exists (count rc). split; [mrun; reflexivity|]. split; [mrun; reflexivity|].
    split.
    { split; [eauto|]. intros [?|(rc' & Hrc' & ?)]; [done|congruence]. }
    destruct (decide (count rc = 0)) as [Hz|Hz].
    + mrun. reflexivity.
    + exists rc. eexists. split; [done|]. split; [done|].
      split; [mrun; reflexivity|].
      rewrite wrap_small by lia.
      split; [reflexivity|]. mrun. reflexivity.
Qed.

Lemma lock_spec_witness :
  ∃ st,
    run (H := bump_allocator) [SNewPtr 1%positive 7%N; WNewShared 1%positive 1%positive] init
      = Ok st ∧
    Z.of_nat (length [SNewPtr 1%positive 7%N; WNewShared 1%positive 1%positive]) + 1
      < 2 ^ 64 ∧
    weaks st !! 1%positive = Some {| WeakPtr.pointer := 7%N; WeakPtr.reference := 1%N |} ∧
    shareds st !! 2%positive = None ∧
    ∃ c,
      read (WeakPtr_use_count 1%positive) st = Some c ∧
      read (WeakPtr_expired 1%positive) st = Some (bool_decide (c = 0)) ∧
      (c = 0 ↔ 1%N = nullptr ∨ ∃ rc, counters st !! 1%N = Some rc ∧ count rc = 0) ∧
      if decide (c = 0) then
        step (H := bump_allocator) (WLock 1%positive 2%positive) st =
          Ok (with_shareds (<[2%positive := empty_shared]> (shareds st)) st)
      else
        ∃ rc st',
          counters st !! 1%N = Some rc ∧ count rc = c ∧
          step (H := bump_allocator) (WLock 1%positive 2%positive) st = Ok st' ∧
          st' = with_counters
                  (<[1%N := {| count := c + 1; weak := weak rc |}]> (counters st))
                  (with_shareds
                     (<[2%positive := {| SharedPtr.object := 7%N;
                                         SharedPtr.reference := 1%N |}]>
                        (shareds st)) st) ∧
          read (SharedPtr_use_count 2%positive) st' = Some (c + 1).
Proof.
  eexists. split; [vm_compute; reflexivity|].
  split; [done|]. split; [reflexivity|]. split; [reflexivity|].
  apply (lock_spec (alloc := bump_allocator)
           [SNewPtr 1%positive 7%N; WNewShared 1%positive 1%positive] _
           1%positive 2%positive {| WeakPtr.pointer := 7%N; WeakPtr.reference := 1%N |});
    [vm_compute; reflexivity | done | reflexivity | reflexivity].
Defined.

(** * WeakPtr from an empty source *)

(** [WeakPtr::deleter] returns whenever the block of the handle, if it has
    one, is allocated. *)
Lemma WeakPtr_deleter_returns (st : state) (w : handle) (wp : WeakPtr.t) :
  weaks st !! w = Some wp →
  (WeakPtr.reference wp ≠ nullptr → is_Some (counters st !! WeakPtr.reference wp)) →
  ∃ st1, WeakPtr_deleter w st = Ok (tt, st1).
Proof.
  intros Hw Hblock.
  destruct (decide (WeakPtr.reference wp = nullptr)) as [Hr|Hr].
  - exists st. mrun. reflexivity.
  - destruct (Hblock Hr) as [rc Hrc].
    destruct (decide (count rc = 0)) as [Hc|Hc];
      [destruct (decide (wrap (weak rc - 1) = 0)) as [Hk|Hk]|];
      eexists; mrun; reflexivity.
Qed.

(** C9: in every state a client can reach, copy-constructing a WeakPtr from a
    WeakPtr without a block, constructing one from a SharedPtr without a
    block, and assigning such a SharedPtr to a WeakPtr all call [addWeak]
    through the null pointer; with a source that has a block the same
    statements return.  The SharedPtr copy constructor tests the pointer and
    returns on an empty source. *)
Theorem weak_copy_needs_nonempty_source `{alloc : Allocator} (os : list op) (st : state) :
  run os init = Ok st →
  Z.of_nat (length os) < 2 ^ 64 →
  (∀ w v wp, weaks st !! v = Some wp → weaks st !! w = None →
     if decide (WeakPtr.reference wp = nullptr)
     then step (WNewCopy w v) st = Fault NullDeref
     else ∃ st', step (WNewCopy w v) st = Ok st') ∧
  (∀ w a sp, shareds st !! a = Some sp → weaks st !! w = None →
     if decide (SharedPtr.reference sp = nullptr)
     then step (WNewShared w a) st = Fault NullDeref
     else ∃ st', step (WNewShared w a) st = Ok st') ∧
  (∀ w a sp, shareds st !! a = Some sp → is_Some (weaks st !! w) →
     if decide (SharedPtr.reference sp = nullptr)
     then step (WAssignShared w a) st = Fault NullDeref
     else ∃ st', step (WAssignShared w a) st = Ok st') ∧
  (∀ b a sp, shareds st !! a = Some sp → shareds st !! b = None →
     SharedPtr.reference sp = nullptr →
     sp = empty_shared ∧
     step (SNewCopy b a) st =
       Ok (with_shareds (<[b := empty_shared]> (shareds st)) st)).
Proof.
  intros Hrun HN.
  pose proof (reachable_consistent os st Hrun HN) as HI.
  split; [|split; [|split]].
  - intros w v wp Hv Hw. destruct (decide (WeakPtr.reference wp = nullptr)) as [Hr|Hr].
    + mrun. reflexivity.
    + destruct (consistent_weak _ _ _ _ HI Hv Hr) as (rc & Hrc & _).
      eexists. mrun. reflexivity.
  - intros w a sp Ha Hw. destruct (decide (SharedPtr.reference sp = nullptr)) as [Hr|Hr].
    + mrun. reflexivity.
    + destruct (consistent_shared _ _ _ _ HI Ha) as [_ Hblock].
      destruct (Hblock Hr) as (rc & Hrc & _).
      eexists. mrun. reflexivity.
  - intros w a sp Ha [wp Hw].
    destruct (WeakPtr_deleter_returns st w wp Hw) as [st1 Hdel].
    { intros Hr. destruct (consistent_weak _ _ _ _ HI Hw Hr) as (rc & Hrc & _). eauto. }
    pose proof (WeakPtr_deleter_Ok _ _ _ _ Hdel) as Hrel.
    destruct (weak_released_frame _ _ _ Hrel) as (_ & Hsh & Hwk & _ & _).
    assert (consistent (Z.of_nat (length os))
              (with_weaks (<[w := empty_weak]> (weaks st1)) st1)) as HI1
      by (by eapply consistent_wrelease).
    assert (shareds (with_weaks (<[w := empty_weak]> (weaks st1)) st1) !! a = Some sp)
      as Ha1 by (cbn; by rewrite Hsh).
    destruct (consistent_shared _ _ _ _ HI1 Ha1) as [_ Hblock]. cbn in Hblock.
    rewrite <- Hsh in Ha. rewrite <- Hwk in Hw.
    destruct (decide (SharedPtr.reference sp = nullptr)) as [Hr|Hr].
    + cbn. unfold WeakPtr_assign_shared, exec. unfold bind at 1. rewrite Hdel.
      mrun. reflexivity.
    + destruct (Hblock Hr) as (rc & Hrc & _).
      eexists. cbn. unfold WeakPtr_assign_shared, exec. unfold bind at 1. rewrite Hdel.
      mrun. reflexivity.
  - intros b a sp Ha Hb Hr.
    destruct (consistent_shared _ _ _ _ HI Ha) as [Hnull _].
    assert (sp = empty_shared) as ->.
    { destruct sp as [o r]. cbn in *. unfold empty_shared. by rewrite Hr, (Hnull Hr). }
    split; [done|]. mrun. reflexivity.
Qed.

Lemma weak_copy_needs_nonempty_source_witness :
  ∃ st,
    run (H := bump_allocator) [SNew 1%positive; WNew 1%positive] init = Ok st ∧
    Z.of_nat (length [SNew 1%positive; WNew 1%positive]) < 2 ^ 64 ∧
    (∀ w v wp, weaks st !! v = Some wp → weaks st !! w = None →
       if decide (WeakPtr.reference wp = nullptr)
       then step (H := bump_allocator) (WNewCopy w v) st = Fault NullDeref
       else ∃ st', step (H := bump_allocator) (WNewCopy w v) st = Ok st') ∧
    (∀ w a sp, shareds st !! a = Some sp → weaks st !! w = None →
       if decide (SharedPtr.reference sp = nullptr)
       then step (H := bump_allocator) (WNewShared w a) st = Fault NullDeref
       else ∃ st', step (H := bump_allocator) (WNewShared w a) st = Ok st') ∧
    (∀ w a sp, shareds st !! a = Some sp → is_Some (weaks st !! w) →
       if decide (SharedPtr.reference sp = nullptr)
       then step (H := bump_allocator) (WAssignShared w a) st = Fault NullDeref
       else ∃ st', step (H := bump_allocator) (WAssignShared w a) st = Ok st') ∧
    (∀ b a sp, shareds st !! a = Some sp → shareds st !! b = None →
       SharedPtr.reference sp = nullptr →
       sp = empty_shared ∧
       step (H := bump_allocator) (SNewCopy b a) st =
         Ok (with_shareds (<[b := empty_shared]> (shareds st)) st)).
Proof.
  eexists. split; [vm_compute; reflexivity|]. split; [done|].
  apply (weak_copy_needs_nonempty_source (alloc := bump_allocator)
           [SNew 1%positive; WNew 1%positive]);
    [vm_compute; reflexivity | done].
Defined.

(** * UniquePtr: exclusive ownership *)

Ltac unique_lookups :=
  cbn; repeat (rewrite lookup_insert || rewrite lookup_delete);
  repeat (destruct (decide (_ = _)) as [?|?]); intros; simplify_eq/=.

Ltac by_exclusive Hex :=
  solve [ done | by eapply Hex
        | exfalso; match goal with Hn : ?a ≠ ?b |- _ =>
            apply Hn; eapply Hex; [eassumption|eassumption|congruence|congruence] end
        | exfalso; match goal with Hn : ?a ≠ ?b |- _ =>
            apply Hn; symmetry; eapply Hex; [eassumption|eassumption|congruence|congruence] end ].

Ltac by_live Hex Hlive :=
  solve [ done | by eapply Hlive | set_solver
        | apply elem_of_union_r; by eapply Hlive
        | apply elem_of_difference; split; [by eapply Hlive|];
          intros Heq%elem_of_singleton; by_exclusive Hex
        | apply elem_of_difference; split; [apply elem_of_union_r; by eapply Hlive|];
          intros Heq%elem_of_singleton; by_exclusive Hex ].

Section unique.
Context `{alloc : Allocator}.

(** A statement that is ready returns, and keeps ownership exclusive and the
    held objects live. *)
Lemma unique_step_safe o st :
  unique_ready o st → exclusive st → held_live st →
  ∃ st', step o st = Ok st' ∧ exclusive st' ∧ held_live st'.
Proof.
  intros Hready Hex Hlive.
  destruct o as [u|u p|u v|u v|u|u p|u v|u| | | | | | | | | | | | | | | | | | | | | |];
    cbn in Hready; try done.
  - eexists. split; [mrun; reflexivity|]. split.
    + intros h1 h2 u1 u2. unique_lookups; try done. by eapply Hex.
    + intros h u0. unique_lookups; try done. by eapply Hlive.
  - destruct Hready as [Hu Hp].
    destruct (decide (p = nullptr)) as [->|Hn].
    + eexists. split; [mrun; reflexivity|]. split.
      * intros h1 h2 u1 u2. unique_lookups; try done. by eapply Hex.
      * intros h u0. unique_lookups; try done. by eapply Hlive.
    + specialize (Hp Hn).
      eexists. split; [mrun; reflexivity|]. split.
      * intros h1 h2 u1 u2. unique_lookups; try done.
        -- exfalso. by eapply (Hp h2 u2).
        -- exfalso. by eapply (Hp h1 u1).
        -- by eapply Hex.
      * intros h u0. unique_lookups; [set_solver|].
        apply elem_of_union_r. by eapply Hlive.
  - destruct Hready as [Hu [uv Hv]]. assert (u ≠ v) by congruence.
    eexists. split; [mrun; reflexivity|]. split.
    + intros h1 h2 u1 u2. unique_lookups; by_exclusive Hex.
    + intros h u0. unique_lookups; try done; by eapply Hlive.
  - destruct Hready as [[uu Hu] [uv Hv]].
    destruct (decide (u = v)) as [->|Hne].
    + rewrite Hu in Hv. injection Hv as <-.
      destruct (decide (UniquePtr.object uu = nullptr)) as [Ho|Ho].
      * eexists. split; [mrun; reflexivity|]. split.
        -- intros h1 h2 u1 u2. unique_lookups; by_exclusive Hex.
        -- intros h u0. unique_lookups; try done; by eapply Hlive.
      * pose proof (Hlive _ _ Hu Ho) as Hin.
        eexists. split; [mrun; reflexivity|]. split.
        -- intros h1 h2 u1 u2. unique_lookups; by_exclusive Hex.
        -- intros h u0. unique_lookups; by_live Hex Hlive.
    + destruct (decide (UniquePtr.object uu = nullptr)) as [Ho|Ho].
      * eexists. split; [mrun; reflexivity|]. split.
        -- intros h1 h2 u1 u2. unique_lookups; by_exclusive Hex.
        -- intros h u0. unique_lookups; by_live Hex Hlive.
      * pose proof (Hlive _ _ Hu Ho) as Hin.
        eexists. split; [mrun; reflexivity|]. split.
        -- intros h1 h2 u1 u2. unique_lookups; by_exclusive Hex.
        -- intros h u0. unique_lookups; by_live Hex Hlive.
  - destruct Hready as [uu Hu].
    eexists. split; [mrun; reflexivity|]. split.
    + intros h1 h2 u1 u2. unique_lookups; by_exclusive Hex.
    + intros h u0. unique_lookups; by_live Hex Hlive.
  - destruct Hready as [[uu Hu] Hp].
    destruct (decide (p = nullptr)) as [->|Hn];
      destruct (decide (UniquePtr.object uu = nullptr)) as [Ho|Ho];
      try pose proof (Hlive _ _ Hu Ho) as Hin; try specialize (Hp Hn).
    + eexists. split; [mrun; reflexivity|]. split.
      * intros h1 h2 u1 u2. unique_lookups; by_exclusive Hex.
      * intros h u0. unique_lookups; by_live Hex Hlive.
    + eexists. split; [mrun; reflexivity|]. split.
      * intros h1 h2 u1 u2. unique_lookups; by_exclusive Hex.
      * intros h u0. unique_lookups; by_live Hex Hlive.
    + eexists. split; [mrun; reflexivity|]. split.
      * intros h1 h2 u1 u2. unique_lookups; try by_exclusive Hex;
          exfalso; by eapply Hp.
      * intros h u0. unique_lookups; by_live Hex Hlive.
    + assert (UniquePtr.object uu ≠ p) as Hop by (by eapply Hp).
      assert (UniquePtr.object uu ∈ ({[p]} ∪ objects st : gset N)) as Hin' by set_solver.
      eexists. split; [mrun; reflexivity|]. split.
      * intros h1 h2 u1 u2. unique_lookups; try by_exclusive Hex;
          exfalso; by eapply Hp.
      * intros h u0. unique_lookups; by_live Hex Hlive.
  - destruct Hready as [[uu Hu] [uv Hv]].
    destruct (decide (u = v)) as [->|Hne].
    + eexists. split; [mrun; reflexivity|]. split.
      * intros h1 h2 u1 u2. unique_lookups; by_exclusive Hex.
      * intros h u0. unique_lookups; by_live Hex Hlive.
    + eexists. split; [mrun; reflexivity|]. split.
      * intros h1 h2 u1 u2. unique_lookups; by_exclusive Hex.
      * intros h u0. unique_lookups; by_live Hex Hlive.
  - destruct Hready as [uu Hu].
    destruct (decide (UniquePtr.object uu = nullptr)) as [Ho|Ho].
    + eexists. split; [mrun; reflexivity|]. split.
      * intros h1 h2 u1 u2. unique_lookups; by_exclusive Hex.
      * intros h u0. unique_lookups; by_live Hex Hlive.
    + pose proof (Hlive _ _ Hu Ho) as Hin.
      eexists. split; [mrun; reflexivity|]. split.
      * intros h1 h2 u1 u2. unique_lookups; by_exclusive Hex.
      * intros h u0. unique_lookups; by_live Hex Hlive.
Qed.

Lemma unique_run_safe os : ∀ st,
  unique_obeys os st → exclusive st → held_live st →
  ∃ st', run os st = Ok st' ∧ exclusive st' ∧ held_live st'.
Proof.
  induction os as [|o os IH]; intros st Hob Hex Hlive.
  - by exists st.
  - cbn [unique_obeys] in Hob. destruct Hob as [Hready Hrest].
    destruct (unique_step_safe o st Hready Hex Hlive) as (st1 & Hstep & Hex1 & Hlive1).
    rewrite Hstep in Hrest.
    destruct (IH st1 Hrest Hex1 Hlive1) as (st' & Hrun & ? & ?).
    exists st'. cbn [run]. by rewrite Hstep.
Qed.

Lemma UniquePtr_deref_live st h u :
  uniques st !! h = Some u → held_live st →
  UniquePtr_arrow h st = Ok (UniquePtr.object u, st) ∧
  UniquePtr_deref h st =
    if decide (UniquePtr.object u = nullptr) then Fault NullDeref
    else Ok (UniquePtr.object u, st).
Proof.
  intros Hh Hlive. split; [unfold UniquePtr_arrow; mrun; reflexivity|].
  unfold UniquePtr_deref, load_object. case_decide as Ho.
  - mrun. reflexivity.
  - pose proof (Hlive h u Hh Ho). mrun. reflexivity.
Qed.
End unique.

(** X1: a client that uses UniquePtr only, declares new variables, names live
    ones and hands over raw pointers that no UniquePtr holds runs to the end
    without a fault (no double delete, no read through a dangling pointer).
    Afterwards no two variables hold the same object, every held object is
    live, [operator->] returns the held pointer, and [operator*] returns the
    object of a non-empty handle and is a null dereference on an empty one. *)
Theorem unique_clients_are_safe `{alloc : Allocator} (os : list op) :
  unique_obeys os init →
  ∃ st, run os init = Ok st ∧ exclusive st ∧ held_live st ∧
        ∀ h u, uniques st !! h = Some u →
          UniquePtr_arrow h st = Ok (UniquePtr.object u, st) ∧
          UniquePtr_deref h st =
            if decide (UniquePtr.object u = nullptr) then Fault NullDeref
            else Ok (UniquePtr.object u, st).
Proof.
  intros Hob.
  destruct (unique_run_safe os init Hob) as (st & Hrun & Hex & Hlive).
  - intros h1 h2 u1 u2. cbn. by rewrite lookup_empty.
  - intros h u. cbn. by rewrite lookup_empty.
  - exists st. split; [done|]. split; [done|]. split; [done|].
    intros h u Hh. by apply UniquePtr_deref_live.
Qed.

(** Checking that a concrete UniquePtr client keeps its side. *)
Ltac unique_ready_now :=
  cbn [unique_ready]; repeat split;
  first [ reflexivity | by eexists
        | intros _; unfold unheld; compute_done ].

Ltac unique_obey :=
  repeat (cbn [unique_obeys];
          first [exact I | split; [unique_ready_now | next_statement]]).

Lemma unique_clients_are_safe_witness :
  unique_obeys (H := bump_allocator)
    [UNewPtr 1%positive 7%N; UNewMove 2%positive 1%positive; UReset 1%positive 9%N;
     USwap 1%positive 2%positive; UMoveAssign 2%positive 2%positive;
     URelease 1%positive; UDelete 2%positive] init ∧
  ∃ st, run (H := bump_allocator)
          [UNewPtr 1%positive 7%N; UNewMove 2%positive 1%positive; UReset 1%positive 9%N;
           USwap 1%positive 2%positive; UMoveAssign 2%positive 2%positive;
           URelease 1%positive; UDelete 2%positive] init = Ok st ∧
        uniques st = {[1%positive := {| UniquePtr.object := nullptr |}]} ∧
        trace st = [DeleteObject 9%N] ∧
        exclusive st ∧ held_live st.
Proof.
  assert (unique_obeys (H := bump_allocator)
    [UNewPtr 1%positive 7%N; UNewMove 2%positive 1%positive; UReset 1%positive 9%N;
     USwap 1%positive 2%positive; UMoveAssign 2%positive 2%positive;
     URelease 1%positive; UDelete 2%positive] init) as Hob by unique_obey.
  split; [exact Hob|].
  destruct (unique_clients_are_safe (alloc := bump_allocator) _ Hob)
    as (st & Hrun & Hex & Hlive & _).
  exists st. split; [exact Hrun|].
  vm_compute in Hrun. injection Hrun as <-.
  split; [vm_compute; reflexivity|]. split; [reflexivity|]. done.
Defined.

(** * UniquePtr: single operations *)

(** X2: [release()] returns the held pointer and empties the handle without
    deleting anything, so the destructor that follows deletes nothing either
    and the object stays live; without the release the destructor deletes the
    object. *)
Theorem unique_release_gives_up_ownership `{alloc : Allocator}
    (st : state) (u : handle) (up : UniquePtr.t) :
  uniques st !! u = Some up →
  UniquePtr.object up ∈ objects st →
  UniquePtr.object up ≠ nullptr →
  (∃ st1 st2,
     UniquePtr_release u st = Ok (UniquePtr.object up, st1) ∧
     read (UniquePtr_get u) st1 = Some nullptr ∧
     objects st1 = objects st ∧ trace st1 = trace st ∧
     step (UDelete u) st1 = Ok st2 ∧
     uniques st2 = delete u (uniques st) ∧
     objects st2 = objects st ∧ trace st2 = trace st) ∧
  (∃ st3,
     step (UDelete u) st = Ok st3 ∧
     uniques st3 = delete u (uniques st) ∧
     objects st3 = objects st ∖ {[UniquePtr.object up]} ∧
     trace st3 = DeleteObject (UniquePtr.object up) :: trace st).
Proof.
  intros Hu Hin Ho. split.
  - eexists _, _. split; [unfold UniquePtr_release; mrun; reflexivity|].
    split; [mrun; reflexivity|]. split; [reflexivity|]. split; [reflexivity|].
    split; [mrun; reflexivity|]. cbn. split; [|done].
    by rewrite delete_insert_eq.
  - eexists. split; [mrun; reflexivity|]. done.
Qed.

Lemma unique_release_gives_up_ownership_witness :
  ∃ st, run (H := bump_allocator) [UNewPtr 1%positive 7%N] init = Ok st ∧
    (∃ st1 st2,
       UniquePtr_release 1%positive st = Ok (7%N, st1) ∧
       step (H := bump_allocator) (UDelete 1%positive) st1 = Ok st2 ∧
       objects st2 = objects st ∧ trace st2 = []) ∧
    (∃ st3, step (H := bump_allocator) (UDelete 1%positive) st = Ok st3 ∧
       trace st3 = [DeleteObject 7%N]).
Proof.
  eexists. split; [vm_compute; reflexivity|].
  destruct (unique_release_gives_up_ownership (alloc := bump_allocator)
              (with_uniques {[1%positive := {| UniquePtr.object := 7%N |}]}
                 {| uniques := ∅; shareds := ∅; weaks := ∅; counters := ∅;
                    objects := {[7%N]} ∪ ∅; trace := [] |})
              1%positive {| UniquePtr.object := 7%N |})
    as [(st1 & st2 & H1 & _ & _ & _ & H2 & _ & H3 & H4) (st3 & H5 & _ & _ & H6)];
    [reflexivity | cbn; set_solver | done |].
  split.
  - exists st1, st2. split; [exact H1|]. split; [exact H2|]. split; [exact H3|exact H4].
  - exists st3. split; [exact H5|exact H6].
Defined.

(** X3: [reset(q)] deletes the object the handle held, if any, exactly once,
    and then holds [q]; on an empty handle it deletes nothing.  No other
    handle and no other object is touched. *)
Theorem unique_reset_replaces `{alloc : Allocator}
    (st : state) (u : handle) (up : UniquePtr.t) (q : ptr) :
  uniques st !! u = Some up →
  (UniquePtr.object up ≠ nullptr → UniquePtr.object up ∈ objects st) →
  (UniquePtr.object up ≠ nullptr → UniquePtr.object up ≠ q) →
  ∃ st',
    step (UReset u q) st = Ok st' ∧
    uniques st' = <[u := {| UniquePtr.object := q |}]> (uniques st) ∧
    trace st' = (if decide (UniquePtr.object up = nullptr) then trace st
                 else DeleteObject (UniquePtr.object up) :: trace st) ∧
    (q ≠ nullptr → q ∈ objects st') ∧
    (UniquePtr.object up ≠ nullptr → UniquePtr.object up ∉ objects st') ∧
    (∀ x, x ≠ UniquePtr.object up → x ≠ q → x ∈ objects st' ↔ x ∈ objects st).
Proof.
  intros Hu Hlive Hpq.
  destruct (decide (UniquePtr.object up = nullptr)) as [Ho|Ho];
    destruct (decide (q = nullptr)) as [Hq|Hq].
  - eexists. split; [mrun; reflexivity|]. cbn. repeat split; done.
  - eexists. split; [mrun; reflexivity|]. cbn. repeat split; try done; set_solver.
  - pose proof (Hlive Ho). eexists. split; [mrun; reflexivity|].
    cbn. repeat split; try done; set_solver.
  - pose proof (Hlive Ho). pose proof (Hpq Ho).
    assert (UniquePtr.object up ∈ ({[q]} ∪ objects st : gset N)) by set_solver.
    eexists. split; [mrun; reflexivity|].
    cbn. repeat split; try done; set_solver.
Qed.

Lemma unique_reset_replaces_witness :
  ∃ st',
    step (H := bump_allocator) (UReset 1%positive 9%N)
      {| uniques := {[1%positive := {| UniquePtr.object := 7%N |}]}; shareds := ∅;
         weaks := ∅; counters := ∅; objects := {[7%N]}; trace := [] |} = Ok st' ∧
    uniques st' = <[1%positive := {| UniquePtr.object := 9%N |}]>
                    {[1%positive := {| UniquePtr.object := 7%N |}]} ∧
    trace st' = [DeleteObject 7%N] ∧
    9%N ∈ objects st' ∧ 7%N ∉ objects st'.
Proof.
  destruct (unique_reset_replaces (alloc := bump_allocator)
              {| uniques := {[1%positive := {| UniquePtr.object := 7%N |}]}; shareds := ∅;
                 weaks := ∅; counters := ∅; objects := {[7%N]}; trace := [] |}
              1%positive {| UniquePtr.object := 7%N |} 9%N)
    as (st' & H1 & H2 & H3 & H4 & H5 & _);
    [reflexivity | intros _; cbn; set_solver | done |].
  exists st'. split; [exact H1|]. split; [exact H2|]. split; [exact H3|].
  split; [by apply H4 | by apply H5].
Defined.

(** X4: [u.reset(u.get())] deletes the object and stores the same pointer
    again: the handle is left holding a deleted object, [operator*] reads
    freed memory and the destructor deletes the object a second time. *)
Theorem unique_self_reset_dangles `{alloc : Allocator}
    (st : state) (u : handle) (up : UniquePtr.t) :
  uniques st !! u = Some up →
  UniquePtr.object up ≠ nullptr →
  ∃ st1,
    step (UReset u (UniquePtr.object up)) st = Ok st1 ∧
    read (UniquePtr_get u) st1 = Some (UniquePtr.object up) ∧
    (UniquePtr.object up ∉ objects st1) ∧
    trace st1 = DeleteObject (UniquePtr.object up) :: trace st ∧
    UniquePtr_deref u st1 = Fault UseAfterFree ∧
    step (UDelete u) st1 = Fault DoubleFree.
Proof.
  intros Hu Ho.
  assert (UniquePtr.object up ∈ ({[UniquePtr.object up]} ∪ objects st : gset N))
    by set_solver.
  eexists. split; [mrun; reflexivity|].
  assert (UniquePtr.object up ∉
            (({[UniquePtr.object up]} ∪ objects st) ∖ {[UniquePtr.object up]} : gset N))
    by set_solver.
  split; [mrun; reflexivity|]. split; [done|]. split; [done|].
  split; [unfold UniquePtr_deref, load_object; mrun; reflexivity|].
  mrun. reflexivity.
Qed.

Lemma unique_self_reset_dangles_witness :
  ∃ st1,
    step (H := bump_allocator) (UReset 1%positive 7%N)
      {| uniques := {[1%positive := {| UniquePtr.object := 7%N |}]}; shareds := ∅;
         weaks := ∅; counters := ∅; objects := {[7%N]}; trace := [] |} = Ok st1 ∧
    read (UniquePtr_get 1%positive) st1 = Some 7%N ∧
    trace st1 = [DeleteObject 7%N] ∧
    step (H := bump_allocator) (UDelete 1%positive) st1 = Fault DoubleFree.
Proof.
  destruct (unique_self_reset_dangles (alloc := bump_allocator)
              {| uniques := {[1%positive := {| UniquePtr.object := 7%N |}]}; shareds := ∅;
                 weaks := ∅; counters := ∅; objects := {[7%N]}; trace := [] |}
              1%positive {| UniquePtr.object := 7%N |})
    as (st1 & H1 & H2 & _ & H3 & _ & H4); [reflexivity | done |].
  exists st1. split; [exact H1|]. split; [exact H2|]. split; [exact H3|exact H4].
Defined.

Lemma UniquePtr_eta (up : UniquePtr.t) : {| UniquePtr.object := UniquePtr.object up |} = up.
Proof. by destruct up. Qed.

(** X5: [swap] exchanges the two pointers and deletes nothing; swapping the
    other way round does the same, and swapping twice restores the store. *)
Theorem unique_swap_involution `{alloc : Allocator}
    (st : state) (u v : handle) (uu uv : UniquePtr.t) :
  uniques st !! u = Some uu →
  uniques st !! v = Some uv →
  ∃ st1,
    step (USwap u v) st = Ok st1 ∧
    read (UniquePtr_get u) st1 = Some (UniquePtr.object uv) ∧
    read (UniquePtr_get v) st1 = Some (UniquePtr.object uu) ∧
    objects st1 = objects st ∧ trace st1 = trace st ∧
    step (USwap v u) st = Ok st1 ∧
    step (USwap u v) st1 = Ok st.
Proof.
  intros Hu Hv. destruct (decide (u = v)) as [->|Hne].
  - rewrite Hu in Hv. injection Hv as <-.
    assert (step (USwap v v) st = Ok st) as Hid.
    { mrun. f_equal. apply state_eq; cbn; try done.
      rewrite UniquePtr_eta, insert_insert_eq. by apply insert_id. }
    exists st. split; [done|].
    split; [mrun; reflexivity|]. split; [mrun; reflexivity|]. done.
  - eexists. split; [mrun; reflexivity|].
    split; [mrun; reflexivity|]. split; [mrun; reflexivity|].
    split; [done|]. split; [done|]. split.
    + mrun. f_equal. apply state_eq; cbn; try done. by apply insert_insert_ne.
    + mrun. f_equal. apply state_eq; cbn; try done. rewrite !UniquePtr_eta.
      apply map_eq. intros k. rewrite !lookup_insert.
      repeat case_decide; congruence.
Qed.

Lemma unique_swap_involution_witness :
  ∃ st1,
    step (H := bump_allocator) (USwap 1%positive 2%positive)
      {| uniques := {[1%positive := {| UniquePtr.object := 7%N |};
                      2%positive := {| UniquePtr.object := 9%N |}]};
         shareds := ∅; weaks := ∅; counters := ∅; objects := {[7%N; 9%N]};
         trace := [] |} = Ok st1 ∧
    read (UniquePtr_get 1%positive) st1 = Some 9%N ∧
    read (UniquePtr_get 2%positive) st1 = Some 7%N ∧
    step (H := bump_allocator) (USwap 1%positive 2%positive) st1 =
      Ok {| uniques := {[1%positive := {| UniquePtr.object := 7%N |};
                         2%positive := {| UniquePtr.object := 9%N |}]};
            shareds := ∅; weaks := ∅; counters := ∅; objects := {[7%N; 9%N]};
            trace := [] |}.
Proof.
  destruct (unique_swap_involution (alloc := bump_allocator)
              {| uniques := {[1%positive := {| UniquePtr.object := 7%N |};
                              2%positive := {| UniquePtr.object := 9%N |}]};
                 shareds := ∅; weaks := ∅; counters := ∅; objects := {[7%N; 9%N]};
                 trace := [] |}
              1%positive 2%positive {| UniquePtr.object := 7%N |}
              {| UniquePtr.object := 9%N |})
    as (st1 & H1 & H2 & H3 & _ & _ & _ & H4); [reflexivity | reflexivity |].
  exists st1. split; [exact H1|]. split; [exact H2|]. split; [exact H3|exact H4].
Defined.

(** X6: move assignment from another handle deletes the object the target
    held, if any, hands the source's pointer to the target and empties the
    source, whose destructor then deletes nothing. *)
Theorem unique_move_assign_transfers `{alloc : Allocator}
    (st : state) (u v : handle) (uu uv : UniquePtr.t) :
  u ≠ v →
  uniques st !! u = Some uu →
  uniques st !! v = Some uv →
  (UniquePtr.object uu ≠ nullptr → UniquePtr.object uu ∈ objects st) →
  ∃ st1 st2,
    step (UMoveAssign u v) st = Ok st1 ∧
    read (UniquePtr_get u) st1 = Some (UniquePtr.object uv) ∧
    read (UniquePtr_get v) st1 = Some nullptr ∧
    trace st1 = (if decide (UniquePtr.object uu = nullptr) then trace st
                 else DeleteObject (UniquePtr.object uu) :: trace st) ∧
    objects st1 = (if decide (UniquePtr.object uu = nullptr) then objects st
                   else objects st ∖ {[UniquePtr.object uu]}) ∧
    step (UDelete v) st1 = Ok st2 ∧
    trace st2 = trace st1 ∧ objects st2 = objects st1 ∧
    read (UniquePtr_get u) st2 = Some (UniquePtr.object uv).
Proof.
  intros Hne Hu Hv Hlive.
  destruct (decide (UniquePtr.object uu = nullptr)) as [Ho|Ho].
  - eexists _, _. split; [mrun; reflexivity|].
    split; [mrun; reflexivity|]. split; [mrun; reflexivity|].
    split; [done|]. split; [done|].
    split; [mrun; reflexivity|]. split; [done|]. split; [done|]. mrun. reflexivity.
  - pose proof (Hlive Ho).
    eexists _, _. split; [mrun; reflexivity|].
    split; [mrun; reflexivity|]. split; [mrun; reflexivity|].
    split; [done|]. split; [done|].
    split; [mrun; reflexivity|]. split; [done|]. split; [done|]. mrun. reflexivity.
Qed.

Lemma unique_move_assign_transfers_witness :
  ∃ st1 st2,
    step (H := bump_allocator) (UMoveAssign 1%positive 2%positive)
      {| uniques := {[1%positive := {| UniquePtr.object := 7%N |};
                      2%positive := {| UniquePtr.object := 9%N |}]};
         shareds := ∅; weaks := ∅; counters := ∅; objects := {[7%N; 9%N]};
         trace := [] |} = Ok st1 ∧
    read (UniquePtr_get 1%positive) st1 = Some 9%N ∧
    read (UniquePtr_get 2%positive) st1 = Some nullptr ∧
    trace st1 = [DeleteObject 7%N] ∧
    step (H := bump_allocator) (UDelete 2%positive) st1 = Ok st2 ∧
    trace st2 = trace st1.
Proof.
  destruct (unique_move_assign_transfers (alloc := bump_allocator)
              {| uniques := {[1%positive := {| UniquePtr.object := 7%N |};
                              2%positive := {| UniquePtr.object := 9%N |}]};
                 shareds := ∅; weaks := ∅; counters := ∅; objects := {[7%N; 9%N]};
                 trace := [] |}
              1%positive 2%positive {| UniquePtr.object := 7%N |}
              {| UniquePtr.object := 9%N |})
    as (st1 & st2 & H1 & H2 & H3 & H4 & _ & H5 & H6 & _);
    [done | reflexivity | reflexivity | intros _; cbn; set_solver |].
  exists st1, st2. split; [exact H1|]. split; [exact H2|]. split; [exact H3|].
  split; [exact H4|]. split; [exact H5|exact H6].
Defined.

(** * ReferenceCounter *)

Lemma wrap_succ_pred z : 0 ≤ z < 2 ^ 64 → wrap (wrap (z + 1) - 1) = z.
Proof.
  intros Hz. unfold wrap.
  destruct (decide (z = 2 ^ 64 - 1)) as [->|Hne]; [reflexivity|].
  rewrite (Z.mod_small (z + 1)) by lia.
  replace (z + 1 - 1) with z by lia. by apply Z.mod_small.
Qed.

Lemma ReferenceCounter_eta (rc : ReferenceCounter) :
  {| count := count rc; weak := weak rc |} = rc.
Proof. by destruct rc. Qed.

(** X7: [add()] followed by [remove()] gives the count back and restores the
    block, also at the largest count, where [add()] wraps to 0 and [remove()]
    wraps back; the same for [addWeak()] and [removeWeak()].  Neither pair
    touches the other count.  [remove()] at count 0 wraps to 2^64 - 1. *)
Theorem counter_add_remove_round_trip (st : state) (r : ptr) (rc : ReferenceCounter) :
  r ≠ nullptr →
  counters st !! r = Some rc →
  0 ≤ count rc < 2 ^ 64 →
  0 ≤ weak rc < 2 ^ 64 →
  (ReferenceCounter_add r >> ReferenceCounter_remove r) st = Ok (count rc, st) ∧
  (ReferenceCounter_addWeak r >> ReferenceCounter_removeWeak r) st = Ok (weak rc, st) ∧
  (count rc = 0 →
   ReferenceCounter_remove r st =
     Ok (2 ^ 64 - 1,
         with_counters (<[r := {| count := 2 ^ 64 - 1; weak := weak rc |}]> (counters st)) st)).
Proof.
  intros Hr Hrc Hc Hw. split; [|split].
  - mrun. rewrite wrap_succ_pred by done. f_equal. f_equal.
    apply state_eq; cbn; try done.
    rewrite insert_insert_eq, ReferenceCounter_eta. by apply insert_id.
  - mrun. rewrite wrap_succ_pred by done. f_equal. f_equal.
    apply state_eq; cbn; try done.
    rewrite insert_insert_eq, ReferenceCounter_eta. by apply insert_id.
  - intros H0. mrun. rewrite H0. reflexivity.
Qed.

Lemma counter_add_remove_round_trip_witness :
  (ReferenceCounter_add 1%N >> ReferenceCounter_remove 1%N)
    {| uniques := ∅; shareds := ∅; weaks := ∅;
       counters := {[1%N := {| count := 2 ^ 64 - 1; weak := 0 |}]};
       objects := ∅; trace := [] |}
  = Ok (2 ^ 64 - 1,
        {| uniques := ∅; shareds := ∅; weaks := ∅;
           counters := {[1%N := {| count := 2 ^ 64 - 1; weak := 0 |}]};
           objects := ∅; trace := [] |}).
Proof.
  apply (counter_add_remove_round_trip
           {| uniques := ∅; shareds := ∅; weaks := ∅;
              counters := {[1%N := {| count := 2 ^ 64 - 1; weak := 0 |}]};
              objects := ∅; trace := [] |}
           1%N {| count := 2 ^ 64 - 1; weak := 0 |});
    [done | reflexivity | cbn; lia | cbn; lia].
Defined.

(** * SharedPtr *)

Lemma SharedPtr_deref_live st h sp :
  shareds st !! h = Some sp → owned_live st →
  SharedPtr_arrow h st = Ok (SharedPtr.object sp, st) ∧
  SharedPtr_deref h st =
    if decide (SharedPtr.object sp = nullptr) then Fault NullDeref
    else Ok (SharedPtr.object sp, st).
Proof.
  intros Hh Hlive. split; [unfold SharedPtr_arrow; mrun; reflexivity|].
  unfold SharedPtr_deref, load_object. case_decide as Ho.
  - mrun. reflexivity.
  - pose proof (Hlive h sp Hh Ho). mrun. reflexivity.
Qed.

(** X8: a client that uses SharedPtr only and keeps its side (new variables
    declared, live ones used, raw pointers handed over that are not live yet,
    copy assignment from a SharedPtr with a block) runs to the end, and then no
    SharedPtr dangles: [operator->] returns the held pointer, [operator*]
    returns the live object of a non-empty handle and is a null dereference on
    an empty one, and the handles that hold the same object are on the same
    block. *)
Theorem shared_clients_never_dangle `{alloc : Allocator} (os : list op) :
  obeys os init →
  Z.of_nat (length os) < 2 ^ 64 →
  ∃ st, run os init = Ok st ∧
    (∀ h sp, shareds st !! h = Some sp →
       SharedPtr_arrow h st = Ok (SharedPtr.object sp, st) ∧
       SharedPtr_deref h st =
         if decide (SharedPtr.object sp = nullptr) then Fault NullDeref
         else Ok (SharedPtr.object sp, st)) ∧
    (∀ h1 h2 sp1 sp2,
       shareds st !! h1 = Some sp1 → shareds st !! h2 = Some sp2 →
       SharedPtr.object sp1 ≠ nullptr → SharedPtr.object sp1 = SharedPtr.object sp2 →
       SharedPtr.reference sp1 = SharedPtr.reference sp2).
Proof.
  intros Hob HN.
  destruct (run_returns os 0 init Hob init_consistent init_sound)
    as (st & Hrun & _ & Hlive & Hone); [lia|lia|].
  exists st. split; [done|]. split; [|exact Hone].
  intros h sp Hh. by apply SharedPtr_deref_live.
Qed.

(** Checking that a concrete SharedPtr client keeps its side. *)
Ltac shared_ready_now :=
  cbn [ready]; repeat split;
  first [ reflexivity | by eexists | intros _; compute_done
        | eexists; split; [reflexivity | by (left + right)] ].

Ltac shared_obey :=
  repeat (cbn [obeys];
          first [exact I | split; [shared_ready_now | next_statement]]).

Lemma shared_clients_never_dangle_witness :
  ∃ st,
    run (H := bump_allocator)
      [SNewPtr 1%positive 7%N; SNewCopy 2%positive 1%positive; SNew 3%positive;
       SMoveAssign 3%positive 1%positive; SResetPtr 2%positive 9%N;
       SDelete 1%positive] init = Ok st ∧
    SharedPtr_deref 3%positive st = Ok (7%N, st) ∧
    SharedPtr_deref 2%positive st = Ok (9%N, st).
Proof.
  assert (obeys (H := bump_allocator)
      [SNewPtr 1%positive 7%N; SNewCopy 2%positive 1%positive; SNew 3%positive;
       SMoveAssign 3%positive 1%positive; SResetPtr 2%positive 9%N;
       SDelete 1%positive] init) as Hob by shared_obey.
  destruct (shared_clients_never_dangle (alloc := bump_allocator) _ Hob)
    as (st & Hrun & Hderef & _); [cbn; lia|].
  exists st. split; [exact Hrun|].
  vm_compute in Hrun. injection Hrun as <-.
  split.
  - exact (proj2 (Hderef 3%positive {| SharedPtr.object := 7%N; SharedPtr.reference := 1%N |}
                    eq_refl)).
  - exact (proj2 (Hderef 2%positive {| SharedPtr.object := 9%N; SharedPtr.reference := 2%N |}
                    eq_refl)).
Defined.

Lemma SharedPtr_eta (sp : SharedPtr.t) :
  {| SharedPtr.object := SharedPtr.object sp; SharedPtr.reference := SharedPtr.reference sp |}
  = sp.
Proof. by destruct sp. Qed.

(** X9: move construction hands the pointer and the block over without
    touching any count: the new handle reports the use_count() the source
    reported, the source is empty and reports 0, nothing is deleted, and the
    destructor of the source changes no count and deletes nothing. *)
Theorem shared_move_keeps_count `{alloc : Allocator}
    (st : state) (a b : handle) (sp : SharedPtr.t) :
  shareds st !! a = None →
  shareds st !! b = Some sp →
  ∃ st1 st2,
    step (SNewMove a b) st = Ok st1 ∧
    shareds st1 !! a = Some sp ∧
    shareds st1 !! b = Some empty_shared ∧
    read (SharedPtr_use_count a) st1 = read (SharedPtr_use_count b) st ∧
    read (SharedPtr_use_count b) st1 = Some 0 ∧
    counters st1 = counters st ∧ objects st1 = objects st ∧ trace st1 = trace st ∧
    step (SDelete b) st1 = Ok st2 ∧
    shareds st2 !! a = Some sp ∧ shareds st2 !! b = None ∧
    counters st2 = counters st ∧ objects st2 = objects st ∧ trace st2 = trace st.
Proof.
  intros Ha Hb. assert (a ≠ b) as Hne by congruence.
  eexists _, _. split; [mrun; reflexivity|].
  split; [cbn; rewrite lookup_insert_ne, lookup_insert_ne, lookup_insert_eq, SharedPtr_eta by done;
          reflexivity|].
  split; [cbn; by rewrite lookup_insert_eq|].
  split.
  { destruct (decide (SharedPtr.reference sp = nullptr)) as [Hr|Hr];
      [|destruct (counters st !! SharedPtr.reference sp) as [rc|] eqn:Hrc];
      mrun; reflexivity. }
  split; [mrun; reflexivity|]. split; [done|]. split; [done|]. split; [done|].
  split; [mrun; reflexivity|].
  split; [cbn; rewrite lookup_delete_ne, lookup_insert_ne, lookup_insert_ne,
                 lookup_insert_eq, SharedPtr_eta by done; reflexivity|].
  split; [cbn; by rewrite lookup_delete_eq|]. done.
Qed.

Lemma shared_move_keeps_count_witness :
  ∃ st st1,
    run (H := bump_allocator) [SNewPtr 2%positive 7%N; SNewCopy 3%positive 2%positive] init
      = Ok st ∧
    step (H := bump_allocator) (SNewMove 1%positive 2%positive) st = Ok st1 ∧
    read (SharedPtr_use_count 1%positive) st1 = Some 2 ∧
    read (SharedPtr_use_count 2%positive) st1 = Some 0 ∧
    trace st1 = [].
Proof.
  destruct (shared_move_keeps_count (alloc := bump_allocator)
              {| uniques := ∅;
                 shareds := {[2%positive := {| SharedPtr.object := 7%N;
                                               SharedPtr.reference := 1%N |};
                              3%positive := {| SharedPtr.object := 7%N;
                                               SharedPtr.reference := 1%N |}]};
                 weaks := ∅;
                 counters := {[1%N := {| count := 2; weak := 0 |}]};
                 objects := {[7%N]}; trace := [] |}
              1%positive 2%positive
              {| SharedPtr.object := 7%N; SharedPtr.reference := 1%N |})
    as (st1 & st2 & H1 & _ & _ & H2 & H3 & _ & _ & H4 & _); [reflexivity | reflexivity |].
  eexists _, st1. split; [vm_compute; reflexivity|].
  split; [exact H1|]. split; [rewrite H2; vm_compute; reflexivity|].
  split; [exact H3|exact H4].
Defined.

Lemma SharedPtr_swap_runs `{alloc : Allocator} (st : state) (a b : handle)
    (sa sb : SharedPtr.t) :
  shareds st !! a = Some sa → shareds st !! b = Some sb →
  step (SSwap a b) st = Ok (with_shareds (<[a := sb]> (<[b := sa]> (shareds st))) st).
Proof.
  intros Ha Hb. destruct (decide (a = b)) as [->|Hne].
  - rewrite Ha in Hb. injection Hb as <-. mrun. f_equal.
    apply state_eq; cbn; try done. rewrite SharedPtr_eta.
    by rewrite !insert_insert_eq.
  - mrun. f_equal. apply state_eq; cbn; try done. rewrite !SharedPtr_eta.
    apply map_eq. intros k. rewrite !lookup_insert.
    repeat case_decide; congruence.
Qed.

(** X10: [swap] exchanges pointer and block of two SharedPtr: each then
    reports the use_count() the other reported, no count changes, nothing is
    deleted, swapping the other way round does the same and swapping twice
    restores the store. *)
Theorem shared_swap_involution `{alloc : Allocator}
    (st : state) (a b : handle) (sa sb : SharedPtr.t) :
  shareds st !! a = Some sa →
  shareds st !! b = Some sb →
  ∃ st1,
    step (SSwap a b) st = Ok st1 ∧
    shareds st1 !! a = Some sb ∧ shareds st1 !! b = Some sa ∧
    read (SharedPtr_use_count a) st1 = read (SharedPtr_use_count b) st ∧
    read (SharedPtr_use_count b) st1 = read (SharedPtr_use_count a) st ∧
    counters st1 = counters st ∧ objects st1 = objects st ∧ trace st1 = trace st ∧
    step (SSwap b a) st = Ok st1 ∧
    step (SSwap a b) st1 = Ok st.
Proof.
  intros Ha Hb.
  assert (shareds (with_shareds (<[a := sb]> (<[b := sa]> (shareds st))) st) !! a = Some sb)
    as Ha1 by (cbn; by rewrite lookup_insert_eq).
  assert (shareds (with_shareds (<[a := sb]> (<[b := sa]> (shareds st))) st) !! b = Some sa)
    as Hb1.
  { cbn. rewrite lookup_insert. case_decide; [congruence|]. by rewrite lookup_insert_eq. }
  eexists. split; [by apply SharedPtr_swap_runs|].
  split; [done|]. split; [done|].
  split.
  { destruct (decide (SharedPtr.reference sb = nullptr)) as [Hr|Hr];
      [|destruct (counters st !! SharedPtr.reference sb) as [rc|] eqn:Hrc];
      unfold read, SharedPtr_use_count, shared_reference, get_shared, bind, ret;
      rewrite Ha1, Hb; mrun; reflexivity. }
  split.
  { destruct (decide (SharedPtr.reference sa = nullptr)) as [Hr|Hr];
      [|destruct (counters st !! SharedPtr.reference sa) as [rc|] eqn:Hrc];
      unfold read, SharedPtr_use_count, shared_reference, get_shared, bind, ret;
      rewrite Hb1, Ha; mrun; reflexivity. }
  split; [done|]. split; [done|]. split; [done|]. split.
  - rewrite (SharedPtr_swap_runs st b a sb sa Hb Ha). f_equal.
    apply state_eq; cbn; try done.
    apply map_eq. intros k. rewrite !lookup_insert. repeat case_decide; congruence.
  - rewrite (SharedPtr_swap_runs _ a b sb sa Ha1 Hb1). f_equal.
    apply state_eq; cbn; try done.
    apply map_eq. intros k. rewrite !lookup_insert. repeat case_decide; congruence.
Qed.

Lemma shared_swap_involution_witness :
  ∃ st st1,
    run (H := bump_allocator)
      [SNewPtr 1%positive 7%N; SNew 2%positive; SNewCopy 3%positive 1%positive] init
      = Ok st ∧
    step (H := bump_allocator) (SSwap 1%positive 2%positive) st = Ok st1 ∧
    read (SharedPtr_use_count 1%positive) st1 = Some 0 ∧
    read (SharedPtr_use_count 2%positive) st1 = Some 2 ∧
    step (H := bump_allocator) (SSwap 1%positive 2%positive) st1 = Ok st.
Proof.
  destruct (shared_swap_involution (alloc := bump_allocator)
              {| uniques := ∅;
                 shareds := {[1%positive := {| SharedPtr.object := 7%N;
                                               SharedPtr.reference := 1%N |};
                              2%positive := empty_shared;
                              3%positive := {| SharedPtr.object := 7%N;
                                               SharedPtr.reference := 1%N |}]};
                 weaks := ∅;
                 counters := {[1%N := {| count := 2; weak := 0 |}]};
                 objects := {[7%N]}; trace := [] |}
              1%positive 2%positive
              {| SharedPtr.object := 7%N; SharedPtr.reference := 1%N |} empty_shared)
    as (st1 & H1 & _ & _ & H2 & H3 & _ & _ & _ & _ & H4); [reflexivity | reflexivity |].
  eexists _, st1. split; [vm_compute; reflexivity|].
  split; [exact H1|]. split; [rewrite H2; vm_compute; reflexivity|].
  split; [rewrite H3; vm_compute; reflexivity|]. exact H4.
Defined.

(** [SharedPtr(T *pointer)] on a new variable returns, with a block of its own
    that was not allocated before. *)
Lemma SharedPtr_ctor_ptr_runs `{alloc : Allocator} (st : state) (a : handle) (p : ptr) :
  shareds st !! a = None →
  ∃ r, r ≠ nullptr ∧ counters st !! r = None ∧
    step (SNewPtr a p) st =
      Ok {| uniques := uniques st;
            shareds := <[a := {| SharedPtr.object := p; SharedPtr.reference := r |}]>
                         (shareds st);
            weaks := weaks st;
            counters := <[r := {| count := 1; weak := 0 |}]> (counters st);
            objects := if decide (p = nullptr) then objects st else {[p]} ∪ objects st;
            trace := trace st |}.
Proof.
  intros Ha. destruct (new_address_fresh (dom (counters st))) as [Hnn Hfresh].
  exists (new_address (dom (counters st))). split; [done|].
  split; [by apply not_elem_of_dom|].
  destruct (decide (p = nullptr)) as [->|Hp]; mrun; f_equal;
    apply state_eq; cbn; try done; by rewrite insert_insert_eq.
Qed.

(** X11: handing the same raw pointer to two SharedPtr gives it two blocks,
    each with use_count() 1.  The end of the first handle deletes the object,
    the second handle then dangles and its end deletes the object again. *)
Theorem shared_same_pointer_twice `{alloc : Allocator}
    (st : state) (a b : handle) (p : ptr) :
  a ≠ b →
  shareds st !! a = None →
  shareds st !! b = None →
  p ≠ nullptr →
  ∃ st2 st3 ra rb,
    run [SNewPtr a p; SNewPtr b p] st = Ok st2 ∧
    shareds st2 !! a = Some {| SharedPtr.object := p; SharedPtr.reference := ra |} ∧
    shareds st2 !! b = Some {| SharedPtr.object := p; SharedPtr.reference := rb |} ∧
    ra ≠ rb ∧
    read (SharedPtr_use_count a) st2 = Some 1 ∧
    read (SharedPtr_use_count b) st2 = Some 1 ∧
    step (SDelete a) st2 = Ok st3 ∧
    trace st3 = DeleteCounter ra :: DeleteObject p :: trace st ∧
    SharedPtr_deref b st3 = Fault UseAfterFree ∧
    step (SDelete b) st3 = Fault DoubleFree.
Proof.
  intros Hne Ha Hb Hp.
  destruct (SharedPtr_ctor_ptr_runs st a p Ha) as (ra & Hra & Hfa & Hstep1).
  rewrite decide_False in Hstep1 by done.
  match type of Hstep1 with _ = Ok ?s => set (st1 := s) in * end.
  assert (shareds st1 !! b = None) as Hb1 by (cbn; by rewrite lookup_insert_ne).
  destruct (SharedPtr_ctor_ptr_runs st1 b p Hb1) as (rb & Hrb & Hfb & Hstep2).
  rewrite decide_False in Hstep2 by done.
  assert (ra ≠ rb) as Hab.
  { intros ->. cbn in Hfb. by rewrite lookup_insert_eq in Hfb. }
  assert (counters st !! rb = None) as Hfb'.
  { cbn in Hfb. by rewrite lookup_insert_ne in Hfb. }
  subst st1. cbn [uniques shareds weaks counters objects trace] in Hstep2.
  assert (p ∈ ({[p]} ∪ ({[p]} ∪ objects st) : gset N)) as Hin by set_solver.
  assert (p ∉ (({[p]} ∪ ({[p]} ∪ objects st)) ∖ {[p]} : gset N)) as Hout by set_solver.
  eexists _, _, ra, rb.
  split; [cbn [run]; rewrite Hstep1, Hstep2; reflexivity|].
  split; [cbn; rewrite lookup_insert_ne by done; by rewrite lookup_insert_eq|].
  split; [cbn; by rewrite lookup_insert_eq|].
  split; [done|].
  split; [mrun; reflexivity|]. split; [mrun; reflexivity|].
  split; [mrun; reflexivity|].
  split; [reflexivity|].
  split; [unfold SharedPtr_deref, load_object; mrun; reflexivity|].
  mrun. reflexivity.
Qed.

Lemma shared_same_pointer_twice_witness :
  ∃ st2 st3,
    run (H := bump_allocator) [SNewPtr 1%positive 7%N; SNewPtr 2%positive 7%N] init
      = Ok st2 ∧
    read (SharedPtr_use_count 1%positive) st2 = Some 1 ∧
    read (SharedPtr_use_count 2%positive) st2 = Some 1 ∧
    step (H := bump_allocator) (SDelete 1%positive) st2 = Ok st3 ∧
    step (H := bump_allocator) (SDelete 2%positive) st3 = Fault DoubleFree.
Proof.
  destruct (shared_same_pointer_twice (alloc := bump_allocator) init
              1%positive 2%positive 7%N)
    as (st2 & st3 & ra & rb & H1 & _ & _ & _ & H2 & H3 & H4 & _ & _ & H5);
    [done | reflexivity | reflexivity | done |].
  exists st2, st3. split; [exact H1|]. split; [exact H2|]. split; [exact H3|].
  split; [exact H4|exact H5].
Defined.

(** X12: [SharedPtr(const WeakPtr&)] does not test whether the observer is
    expired.  On an observer whose object is gone (strong count 0) it makes a
    handle on the deleted object with use_count() 1, un-expires the observer,
    [operator*] reads freed memory and the end of the handle deletes the
    object a second time; [lock()] on the same observer returns an empty
    handle. *)
Theorem shared_from_expired_weak `{alloc : Allocator}
    (st : state) (w a : handle) (wp : WeakPtr.t) (rc : ReferenceCounter) :
  weaks st !! w = Some wp →
  WeakPtr.pointer wp ≠ nullptr →
  WeakPtr.reference wp ≠ nullptr →
  counters st !! WeakPtr.reference wp = Some rc →
  count rc = 0 →
  WeakPtr.pointer wp ∉ objects st →
  shareds st !! a = None →
  ∃ st1,
    read (WeakPtr_expired w) st = Some true ∧
    step (WLock w a) st = Ok (with_shareds (<[a := empty_shared]> (shareds st)) st) ∧
    step (SNewWeak a w) st = Ok st1 ∧
    read (SharedPtr_get a) st1 = Some (WeakPtr.pointer wp) ∧
    read (SharedPtr_use_count a) st1 = Some 1 ∧
    read (WeakPtr_expired w) st1 = Some false ∧
    SharedPtr_deref a st1 = Fault UseAfterFree ∧
    step (SDelete a) st1 = Fault DoubleFree.
Proof.
  intros Hw Hp Hr Hrc Hc Hgone Ha.
  destruct rc as [c k]. cbn in Hc. subst c.
  eexists.
  split; [mrun; reflexivity|].
  split; [mrun; reflexivity|].
  split; [mrun; reflexivity|].
  split; [mrun; reflexivity|]. split; [mrun; reflexivity|].
  split; [mrun; reflexivity|].
  split; [unfold SharedPtr_deref, load_object; mrun; reflexivity|].
  mrun. reflexivity.
Qed.

Lemma shared_from_expired_weak_witness :
  ∃ st st1,
    run (H := bump_allocator)
      [SNewPtr 1%positive 7%N; WNewShared 1%positive 1%positive; SDelete 1%positive] init
      = Ok st ∧
    read (WeakPtr_expired 1%positive) st = Some true ∧
    step (H := bump_allocator) (SNewWeak 2%positive 1%positive) st = Ok st1 ∧
    read (SharedPtr_get 2%positive) st1 = Some 7%N ∧
    read (SharedPtr_use_count 2%positive) st1 = Some 1 ∧
    step (H := bump_allocator) (SDelete 2%positive) st1 = Fault DoubleFree.
Proof.
  destruct (shared_from_expired_weak (alloc := bump_allocator)
              {| uniques := ∅; shareds := ∅;
                 weaks := {[1%positive := {| WeakPtr.pointer := 7%N;
                                             WeakPtr.reference := 1%N |}]};
                 counters := {[1%N := {| count := 0; weak := 1 |}]};
                 objects := ∅; trace := [DeleteObject 7%N] |}
              1%positive 2%positive
              {| WeakPtr.pointer := 7%N; WeakPtr.reference := 1%N |}
              {| count := 0; weak := 1 |})
    as (st1 & H1 & _ & H2 & H3 & H4 & _ & _ & H5);
    [reflexivity | done | done | reflexivity | reflexivity | cbn; set_solver
    | reflexivity |].
  eexists _, st1. split; [vm_compute; reflexivity|].
  split; [exact H1|]. split; [exact H2|]. split; [exact H3|].
  split; [exact H4|exact H5].
Defined.

(** ** Without WeakPtr, a block goes with its object *)

Section pairs.
Context `{alloc : Allocator}.

Lemma unobserved_insert st r rc :
  unobserved st → weak rc = 0 →
  ∀ r' rc', <[r := rc]> (counters st) !! r' = Some rc' → weak rc' = 0.
Proof.
  intros Hun Hw r' rc'. rewrite lookup_insert. case_decide; [by intros [= <-]|].
  apply Hun.
Qed.

Lemma atom_paired a st st' :
  shared_atom a = true → atom_step a st st' →
  unobserved st → paired (trace st) →
  unobserved st' ∧ paired (trace st').
Proof.
  intros Hs Ha Hun Hp. destruct Ha; try discriminate; try done.
  - match goal with H : client_object _ _ = _ |- _ =>
      apply client_object_Ok in H; by subst end.
  - match goal with H : shared_released _ _ _ |- _ =>
      destruct H as [sp ? ?|sp rc ? ? ? Hrc ?|sp rc ? ? ? Hrc ? ? Hw|sp rc ? ? ? Hrc ? ? Hw] end.
    + done.
    + split; [|done]. intros r' rc'. cbn. apply unobserved_insert; [done|].
      cbn. by apply (Hun _ _ Hrc).
    + by pose proof (Hun _ _ Hrc).
    + split; [|done]. intros r' rc'. cbn. rewrite lookup_delete.
      case_decide; [done|]. apply Hun.
  - split; [|done]. intros r' rc'. cbn. apply unobserved_insert; [done|].
    cbn. match goal with H : counters _ !! _ = Some _ |- _ => by apply (Hun _ _ H) end.
  - split; [|done]. intros r' rc'. cbn. by apply unobserved_insert.
Qed.

Lemma atoms_run_paired l : ∀ st st',
  atoms_run l st st' → Forall (λ a, shared_atom a = true) l →
  unobserved st → paired (trace st) →
  unobserved st' ∧ paired (trace st').
Proof.
  induction l as [|a l IH]; intros st st' Hrun Hs Hun Hp.
  - by inversion Hrun; subst.
  - inversion Hrun as [|? ? ? st1 ? Ha Hl]; subst. inversion Hs; subst.
    destruct (atom_paired a st st1) as [Hun1 Hp1]; try done.
    by apply (IH st1).
Qed.

Lemma run_paired os : ∀ st st',
  Forall (λ o, shared_op o = true) os → run os st = Ok st' →
  unobserved st → paired (trace st) →
  unobserved st' ∧ paired (trace st').
Proof.
  induction os as [|o os IH]; intros st st' Hos Hrun Hun Hp; cbn in Hrun.
  - by injection Hrun as <-.
  - destruct (step o st) as [st1|] eqn:Hstep; [|done].
    inversion Hos as [|? ? Ho Hrest]; subst.
    assert (unique_op o = false) as Hu by (by destruct o).
    destruct (decompose o st st1 Hu Hstep) as (l & Hplan & Hl).
    destruct (atoms_run_paired l st st1 Hl (plan_shared o l Hplan Ho) Hun Hp).
    by apply (IH st1).
Qed.
End pairs.

Lemma paired_counts (t : list event) :
  paired t →
  ∃ l : list (ptr * ptr),
    t = flat_map (λ pr, [DeleteCounter pr.2; DeleteObject pr.1]) l.
Proof.
  assert (∀ n (t : list event), (length t ≤ n)%nat → paired t →
            ∃ l : list (ptr * ptr),
              t = flat_map (λ pr, [DeleteCounter pr.2; DeleteObject pr.1]) l) as Hall.
  { clear t. induction n as [|n IH]; intros t Hn.
    - destruct t; [|cbn in Hn; lia]. intros _. by exists [].
    - destruct t as [|[p|r] [|[p'|r'] t']]; cbn; try done.
      + intros _. by exists [].
      + intros Hp. destruct (IH t') as [l ->]; [cbn in Hn; lia|done|].
        by exists ((p', r) :: l). }
  by apply (Hall (length t)).
Qed.

(** X13: in a client that uses SharedPtr only, no block ever has an observer,
    and the deletions come in pairs: every deleted object is followed at once
    by the deletion of its block, and no block is deleted otherwise. *)
Theorem shared_clients_free_block_with_object `{alloc : Allocator}
    (os : list op) (st : state) :
  Forall (λ o, shared_op o = true) os →
  run os init = Ok st →
  (∀ r rc, counters st !! r = Some rc → weak rc = 0) ∧
  ∃ l : list (ptr * ptr),
    trace st = flat_map (λ pr, [DeleteCounter pr.2; DeleteObject pr.1]) l.
Proof.
  intros Hos Hrun.
  destruct (run_paired os init st Hos Hrun) as [Hun Hp].
  - intros r rc. cbn. by rewrite lookup_empty.
  - done.
  - split; [exact Hun|]. by apply paired_counts.
Qed.

Lemma shared_clients_free_block_with_object_witness :
  ∃ st,
    run (H := bump_allocator)
      [SNewPtr 1%positive 7%N; SNewCopy 2%positive 1%positive; SResetPtr 1%positive 9%N;
       SDelete 2%positive; SDelete 1%positive] init = Ok st ∧
    trace st = [DeleteCounter 2%N; DeleteObject 9%N; DeleteCounter 1%N; DeleteObject 7%N] ∧
    (∀ r rc, counters st !! r = Some rc → weak rc = 0).
Proof.
  eexists. split; [vm_compute; reflexivity|]. split; [reflexivity|].
  apply (shared_clients_free_block_with_object (alloc := bump_allocator)
           [SNewPtr 1%positive 7%N; SNewCopy 2%positive 1%positive;
            SResetPtr 1%positive 9%N; SDelete 2%positive; SDelete 1%positive]);
    [repeat constructor | vm_compute; reflexivity].
Defined.

(** * Blocks outlive their handles *)

(** X14: whatever a client does with the three classes, as long as it has not
    hit undefined behaviour: a SharedPtr without a block holds no object; the
    block of every SharedPtr and of every WeakPtr that has one is allocated;
    the strong count under a SharedPtr and the weak count under a WeakPtr are
    at least 1 and at most the number of statements run (no count has wrapped
    around); and use_count() reads the strong count. *)
Theorem blocks_outlive_their_handles `{alloc : Allocator} (os : list op) (st : state) :
  run os init = Ok st →
  Z.of_nat (length os) < 2 ^ 64 →
  (∀ a sp, shareds st !! a = Some sp →
     if decide (SharedPtr.reference sp = nullptr)
     then SharedPtr.object sp = nullptr ∧ read (SharedPtr_use_count a) st = Some 0
     else ∃ rc, counters st !! SharedPtr.reference sp = Some rc ∧
                1 ≤ count rc ≤ Z.of_nat (length os) ∧
                read (SharedPtr_use_count a) st = Some (count rc)) ∧
  (∀ w wp, weaks st !! w = Some wp →
     if decide (WeakPtr.reference wp = nullptr)
     then read (WeakPtr_use_count w) st = Some 0
     else ∃ rc, counters st !! WeakPtr.reference wp = Some rc ∧
                0 ≤ count rc ≤ Z.of_nat (length os) ∧
                1 ≤ weak rc ≤ Z.of_nat (length os) ∧
                read (WeakPtr_use_count w) st = Some (count rc)).
Proof.
  intros Hrun HN.
  pose proof (reachable_consistent os st Hrun HN) as HI.
  split.
  - intros a sp Ha. destruct (consistent_shared _ _ _ _ HI Ha) as [Hnull Hblock].
    destruct (decide (SharedPtr.reference sp = nullptr)) as [Hr|Hr].
    + split; [by apply Hnull|]. mrun. reflexivity.
    + destruct (Hblock Hr) as (rc & Hrc & Hc & Hcnt).
      exists rc. split; [done|]. split; [|mrun; reflexivity].
      split; [|lia]. destruct (decide (SharedPtr.object sp = nullptr)); [lia|]. rewrite Hcnt.
      unfold sharing. by apply (tally_lookup _ _ a sp).
  - intros w wp Hw. destruct (decide (WeakPtr.reference wp = nullptr)) as [Hr|Hr].
    + mrun. reflexivity.
    + destruct (consistent_weak _ _ _ _ HI Hw Hr) as (rc & Hrc & Hc & Hk).
      exists rc. split; [done|]. split; [done|]. split; [done|]. mrun. reflexivity.
Qed.

Lemma blocks_outlive_their_handles_witness :
  ∃ st,
    run (H := bump_allocator)
      [SNewPtr 1%positive 7%N; WNewShared 1%positive 1%positive;
       WNewCopy 2%positive 1%positive; WDelete 1%positive; SDelete 1%positive] init
      = Ok st ∧
    weaks st !! 2%positive = Some {| WeakPtr.pointer := 7%N; WeakPtr.reference := 1%N |} ∧
    ∃ rc, counters st !! 1%N = Some rc ∧ 0 ≤ count rc ≤ 5 ∧ 1 ≤ weak rc ≤ 5 ∧
          read (WeakPtr_use_count 2%positive) st = Some (count rc).
Proof.
  eexists. split; [vm_compute; reflexivity|]. split; [reflexivity|].
  exact (proj2 (blocks_outlive_their_handles (alloc := bump_allocator)
                  [SNewPtr 1%positive 7%N; WNewShared 1%positive 1%positive;
                   WNewCopy 2%positive 1%positive; WDelete 1%positive;
                   SDelete 1%positive] _ ltac:(vm_compute; reflexivity) ltac:(cbn; lia))
           2%positive {| WeakPtr.pointer := 7%N; WeakPtr.reference := 1%N |} eq_refl).
Defined.

(** * WeakPtr *)

(** X15: once the strong count is 0, [WeakPtr::deleter] is the release rule of
    the specification: it decrements the weak count and deletes the block
    exactly when the weak count reaches 0; on a handle without a block both do
    nothing. *)
Theorem weak_release_without_owner (st : state) (w : handle) (wp : WeakPtr.t) :
  weaks st !! w = Some wp →
  (WeakPtr.reference wp = nullptr →
   WeakPtr_deleter w st = Ok (tt, st) ∧ WeakPtr_release_spec w st = Ok (tt, st)) ∧
  (∀ rc, WeakPtr.reference wp ≠ nullptr →
     counters st !! WeakPtr.reference wp = Some rc →
     count rc = 0 →
     WeakPtr_deleter w st = WeakPtr_release_spec w st ∧
     ∃ st', WeakPtr_deleter w st = Ok (tt, st') ∧
       uniques st' = uniques st ∧ shareds st' = shareds st ∧ weaks st' = weaks st ∧
       objects st' = objects st ∧
       if decide (wrap (weak rc - 1) = 0)
       then counters st' = delete (WeakPtr.reference wp) (counters st) ∧
            trace st' = DeleteCounter (WeakPtr.reference wp) :: trace st
       else counters st' = <[WeakPtr.reference wp :=
                               {| count := 0; weak := wrap (weak rc - 1) |}]> (counters st) ∧
            trace st' = trace st).
Proof.
  intros Hw. split.
  - intros Hr. split; [mrun; reflexivity|]. unfold WeakPtr_release_spec. mrun. reflexivity.
  - intros rc Hr Hrc Hc. destruct rc as [c k]. cbn in Hc. subst c. cbn.
    destruct (decide (wrap (k - 1) = 0)) as [Hk|Hk].
    + split; [unfold WeakPtr_release_spec; mrun; reflexivity|].
      eexists. split; [mrun; reflexivity|]. cbn.
      repeat split; try done. by rewrite delete_insert_eq.
    + split; [unfold WeakPtr_release_spec; mrun;
              rewrite decide_False by (intros [? _]; done); reflexivity|].
      eexists. split; [mrun; reflexivity|]. cbn. repeat split; done.
Qed.

Lemma weak_release_without_owner_witness :
  ∃ st st',
    run (H := bump_allocator)
      [SNewPtr 1%positive 7%N; WNewShared 1%positive 1%positive; SDelete 1%positive] init
      = Ok st ∧
    WeakPtr_deleter 1%positive st = WeakPtr_release_spec 1%positive st ∧
    WeakPtr_deleter 1%positive st = Ok (tt, st') ∧
    counters st' = delete 1%N (counters st) ∧
    trace st' = [DeleteCounter 1%N; DeleteObject 7%N].
Proof.
  destruct (weak_release_without_owner
              {| uniques := ∅; shareds := ∅;
                 weaks := {[1%positive := {| WeakPtr.pointer := 7%N;
                                             WeakPtr.reference := 1%N |}]};
                 counters := {[1%N := {| count := 0; weak := 1 |}]};
                 objects := ∅; trace := [DeleteObject 7%N] |}
              1%positive {| WeakPtr.pointer := 7%N; WeakPtr.reference := 1%N |})
    as [_ Hrel]; [reflexivity|].
  destruct (Hrel {| count := 0; weak := 1 |})
    as (H1 & st' & H2 & _ & _ & _ & _ & H3); [done | reflexivity | reflexivity |].
  eexists _, st'. split; [vm_compute; reflexivity|].
  split; [exact H1|]. split; [exact H2|]. exact H3.
Defined.

Lemma WeakPtr_eta (wp : WeakPtr.t) :
  {| WeakPtr.pointer := WeakPtr.pointer wp; WeakPtr.reference := WeakPtr.reference wp |} = wp.
Proof. by destruct wp. Qed.

(** X16: move construction of a WeakPtr hands the observation over without
    touching any count: the new handle reports the use_count() the source
    reported, the source is empty and expired, and the destructor of the
    source changes no count and deletes nothing. *)
Theorem weak_move_keeps_counts `{alloc : Allocator}
    (st : state) (w v : handle) (wp : WeakPtr.t) :
  weaks st !! w = None →
  weaks st !! v = Some wp →
  ∃ st1 st2,
    step (WNewMove w v) st = Ok st1 ∧
    weaks st1 !! w = Some wp ∧
    weaks st1 !! v = Some empty_weak ∧
    read (WeakPtr_use_count w) st1 = read (WeakPtr_use_count v) st ∧
    read (WeakPtr_expired v) st1 = Some true ∧
    counters st1 = counters st ∧ objects st1 = objects st ∧ trace st1 = trace st ∧
    step (WDelete v) st1 = Ok st2 ∧
    weaks st2 !! w = Some wp ∧ weaks st2 !! v = None ∧
    counters st2 = counters st ∧ objects st2 = objects st ∧ trace st2 = trace st.
Proof.
  intros Hw Hv. assert (w ≠ v) as Hne by congruence.
  eexists _, _. split; [mrun; reflexivity|].
  split; [cbn; rewrite lookup_insert_ne, lookup_insert_ne, lookup_insert_eq, WeakPtr_eta by done;
          reflexivity|].
  split; [cbn; by rewrite lookup_insert_eq|].
  split.
  { destruct (decide (WeakPtr.reference wp = nullptr)) as [Hr|Hr];
      [|destruct (counters st !! WeakPtr.reference wp) as [rc|] eqn:Hrc];
      mrun; reflexivity. }
  split; [mrun; reflexivity|]. split; [done|]. split; [done|]. split; [done|].
  split; [mrun; reflexivity|].
  split; [cbn; rewrite lookup_delete_ne, lookup_insert_ne, lookup_insert_ne,
                 lookup_insert_eq, WeakPtr_eta by done; reflexivity|].
  split; [cbn; by rewrite lookup_delete_eq|]. done.
Qed.

Lemma weak_move_keeps_counts_witness :
  ∃ st st1 st2,
    run (H := bump_allocator) [SNewPtr 1%positive 7%N; WNewShared 2%positive 1%positive] init
      = Ok st ∧
    step (H := bump_allocator) (WNewMove 1%positive 2%positive) st = Ok st1 ∧
    read (WeakPtr_use_count 1%positive) st1 = Some 1 ∧
    read (WeakPtr_expired 2%positive) st1 = Some true ∧
    step (H := bump_allocator) (WDelete 2%positive) st1 = Ok st2 ∧
    counters st2 = counters st.
Proof.
  destruct (weak_move_keeps_counts (alloc := bump_allocator)
              {| uniques := ∅;
                 shareds := {[1%positive := {| SharedPtr.object := 7%N;
                                               SharedPtr.reference := 1%N |}]};
                 weaks := {[2%positive := {| WeakPtr.pointer := 7%N;
                                             WeakPtr.reference := 1%N |}]};
                 counters := {[1%N := {| count := 1; weak := 1 |}]};
                 objects := {[7%N]}; trace := [] |}
              1%positive 2%positive {| WeakPtr.pointer := 7%N; WeakPtr.reference := 1%N |})
    as (st1 & st2 & H1 & _ & _ & H2 & H3 & _ & _ & _ & H4 & _ & _ & H5 & _);
    [reflexivity | reflexivity |].
  eexists _, st1, st2. split; [vm_compute; reflexivity|].
  split; [exact H1|]. split; [rewrite H2; vm_compute; reflexivity|].
  split; [exact H3|]. split; [exact H4|exact H5].
Defined.

Lemma WeakPtr_swap_runs `{alloc : Allocator} (st : state) (w v : handle)
    (ww wv : WeakPtr.t) :
  weaks st !! w = Some ww → weaks st !! v = Some wv →
  step (WSwap w v) st = Ok (with_weaks (<[w := wv]> (<[v := ww]> (weaks st))) st).
Proof.
  intros Hw Hv. destruct (decide (w = v)) as [->|Hne].
  - rewrite Hw in Hv. injection Hv as <-. mrun. f_equal.
    apply state_eq; cbn; try done. rewrite WeakPtr_eta.
    by rewrite !insert_insert_eq.
  - mrun. f_equal. apply state_eq; cbn; try done. rewrite !WeakPtr_eta.
    apply map_eq. intros k. rewrite !lookup_insert.
    repeat case_decide; congruence.
Qed.

(** X17: [swap] exchanges pointer and block of two WeakPtr: each then reports
    the use_count() the other reported, no count changes, nothing is deleted,
    swapping the other way round does the same and swapping twice restores the
    store. *)
Theorem weak_swap_involution `{alloc : Allocator}
    (st : state) (w v : handle) (ww wv : WeakPtr.t) :
  weaks st !! w = Some ww →
  weaks st !! v = Some wv →
  ∃ st1,
    step (WSwap w v) st = Ok st1 ∧
    weaks st1 !! w = Some wv ∧ weaks st1 !! v = Some ww ∧
    read (WeakPtr_use_count w) st1 = read (WeakPtr_use_count v) st ∧
    read (WeakPtr_use_count v) st1 = read (WeakPtr_use_count w) st ∧
    counters st1 = counters st ∧ objects st1 = objects st ∧ trace st1 = trace st ∧
    step (WSwap v w) st = Ok st1 ∧
    step (WSwap w v) st1 = Ok st.
Proof.
  intros Hw Hv.
  assert (weaks (with_weaks (<[w := wv]> (<[v := ww]> (weaks st))) st) !! w = Some wv)
    as Hw1 by (cbn; by rewrite lookup_insert_eq).
  assert (weaks (with_weaks (<[w := wv]> (<[v := ww]> (weaks st))) st) !! v = Some ww)
    as Hv1.
  { cbn. rewrite lookup_insert. case_decide; [congruence|]. by rewrite lookup_insert_eq. }
  eexists. split; [by apply WeakPtr_swap_runs|].
  split; [done|]. split; [done|].
  split.
  { destruct (decide (WeakPtr.reference wv = nullptr)) as [Hr|Hr];
      [|destruct (counters st !! WeakPtr.reference wv) as [rc|] eqn:Hrc];
      unfold read, WeakPtr_use_count, weak_reference, get_weak, bind, ret;
      rewrite Hw1, Hv; mrun; reflexivity. }
  split.
  { destruct (decide (WeakPtr.reference ww = nullptr)) as [Hr|Hr];
      [|destruct (counters st !! WeakPtr.reference ww) as [rc|] eqn:Hrc];
      unfold read, WeakPtr_use_count, weak_reference, get_weak, bind, ret;
      rewrite Hv1, Hw; mrun; reflexivity. }
  split; [done|]. split; [done|]. split; [done|]. split.
  - rewrite (WeakPtr_swap_runs st v w wv ww Hv Hw). f_equal.
    apply state_eq; cbn; try done.
    apply map_eq. intros k. rewrite !lookup_insert. repeat case_decide; congruence.
  - rewrite (WeakPtr_swap_runs _ w v wv ww Hw1 Hv1). f_equal.
    apply state_eq; cbn; try done.
    apply map_eq. intros k. rewrite !lookup_insert. repeat case_decide; congruence.
Qed.

Lemma weak_swap_involution_witness :
  ∃ st st1,
    run (H := bump_allocator)
      [SNewPtr 1%positive 7%N; WNewShared 1%positive 1%positive; WNew 2%positive] init
      = Ok st ∧
    step (H := bump_allocator) (WSwap 1%positive 2%positive) st = Ok st1 ∧
    read (WeakPtr_use_count 1%positive) st1 = Some 0 ∧
    read (WeakPtr_use_count 2%positive) st1 = Some 1 ∧
    step (H := bump_allocator) (WSwap 1%positive 2%positive) st1 = Ok st.
Proof.
  destruct (weak_swap_involution (alloc := bump_allocator)
              {| uniques := ∅;
                 shareds := {[1%positive := {| SharedPtr.object := 7%N;
                                               SharedPtr.reference := 1%N |}]};
                 weaks := {[1%positive := {| WeakPtr.pointer := 7%N;
                                             WeakPtr.reference := 1%N |};
                            2%positive := empty_weak]};
                 counters := {[1%N := {| count := 1; weak := 1 |}]};
                 objects := {[7%N]}; trace := [] |}
              1%positive 2%positive
              {| WeakPtr.pointer := 7%N; WeakPtr.reference := 1%N |} empty_weak)
    as (st1 & H1 & _ & _ & H2 & H3 & _ & _ & _ & _ & H4); [reflexivity | reflexivity |].
  eexists _, st1. split; [vm_compute; reflexivity|].
  split; [exact H1|]. split; [rewrite H2; vm_compute; reflexivity|].
  split; [rewrite H3; vm_compute; reflexivity|]. exact H4.
Defined.

(** X18: when the last SharedPtr goes before the observers, the protocol
    works: the end of the SharedPtr deletes the object and keeps the block for
    the observers, which are expired from then on; the end of a WeakPtr then
    gives its weak count back and deletes the block if it was the last. *)
Theorem owner_first_then_observer `{alloc : Allocator}
    (st : state) (a w : handle) (sp : SharedPtr.t) (wp : WeakPtr.t)
    (rc : ReferenceCounter) :
  shareds st !! a = Some sp →
  weaks st !! w = Some wp →
  SharedPtr.object sp ≠ nullptr →
  SharedPtr.reference sp ≠ nullptr →
  WeakPtr.reference wp = SharedPtr.reference sp →
  counters st !! SharedPtr.reference sp = Some rc →
  count rc = 1 →
  1 ≤ weak rc < 2 ^ 64 →
  SharedPtr.object sp ∈ objects st →
  ∃ st1 st2,
    step (SDelete a) st = Ok st1 ∧
    trace st1 = DeleteObject (SharedPtr.object sp) :: trace st ∧
    (SharedPtr.object sp ∉ objects st1) ∧
    counters st1 = <[SharedPtr.reference sp := {| count := 0; weak := weak rc |}]>
                     (counters st) ∧
    read (WeakPtr_expired w) st1 = Some true ∧
    step (WDelete w) st1 = Ok st2 ∧
    if decide (weak rc = 1)
    then counters st2 = delete (SharedPtr.reference sp) (counters st) ∧
         trace st2 = DeleteCounter (SharedPtr.reference sp)
                     :: DeleteObject (SharedPtr.object sp) :: trace st
    else counters st2 = <[SharedPtr.reference sp := {| count := 0; weak := weak rc - 1 |}]>
                          (counters st) ∧
         trace st2 = DeleteObject (SharedPtr.object sp) :: trace st.
Proof.
  intros Ha Hw Ho Hr Hwr Hrc Hc Hk Hin.
  destruct rc as [c k]. cbn in Hc, Hk. subst c. cbn.
  assert (k ≠ 0) as Hk0 by lia.
  assert (wrap (k - 1) = k - 1) as Hwrap by (apply wrap_small; lia).
  destruct wp as [q r']. cbn in Hwr. subst r'.
  destruct (decide (k = 1)) as [->|Hk1].
  - eexists _, _. split; [mrun; reflexivity|].
    split; [done|]. split; [cbn; set_solver|].
    split; [reflexivity|].
    split; [mrun; reflexivity|].
    split; [mrun; reflexivity|]. cbn.
    split; [|done]. by rewrite !delete_insert_eq.
  - assert (wrap (k - 1) ≠ 0) as Hnz by lia.
    eexists _, _. split; [mrun; reflexivity|].
    split; [done|]. split; [cbn; set_solver|].
    split; [reflexivity|].
    split; [mrun; reflexivity|].
    split; [mrun; reflexivity|]. cbn.
    split; [|done]. by rewrite !insert_insert_eq, Hwrap.
Qed.

Lemma owner_first_then_observer_witness :
  ∃ st st1 st2,
    run (H := bump_allocator) [SNewPtr 1%positive 7%N; WNewShared 1%positive 1%positive] init
      = Ok st ∧
    step (H := bump_allocator) (SDelete 1%positive) st = Ok st1 ∧
    trace st1 = [DeleteObject 7%N] ∧
    read (WeakPtr_expired 1%positive) st1 = Some true ∧
    step (H := bump_allocator) (WDelete 1%positive) st1 = Ok st2 ∧
    counters st2 = delete 1%N (counters st) ∧
    trace st2 = [DeleteCounter 1%N; DeleteObject 7%N].
Proof.
  destruct (owner_first_then_observer (alloc := bump_allocator)
              {| uniques := ∅;
                 shareds := {[1%positive := {| SharedPtr.object := 7%N;
                                               SharedPtr.reference := 1%N |}]};
                 weaks := {[1%positive := {| WeakPtr.pointer := 7%N;
                                             WeakPtr.reference := 1%N |}]};
                 counters := {[1%N := {| count := 1; weak := 1 |}]};
                 objects := {[7%N]} ∪ ∅; trace := [] |}
              1%positive 1%positive
              {| SharedPtr.object := 7%N; SharedPtr.reference := 1%N |}
              {| WeakPtr.pointer := 7%N; WeakPtr.reference := 1%N |}
              {| count := 1; weak := 1 |})
    as (st1 & st2 & H1 & H2 & _ & _ & H3 & H4 & H5);
    [reflexivity | reflexivity | done | done | reflexivity | reflexivity | reflexivity
    | cbn; lia | cbn; set_solver |].
  eexists _, st1, st2. split; [vm_compute; reflexivity|].
  split; [exact H1|]. split; [exact H2|]. split; [exact H3|]. split; [exact H4|].
  exact H5.
Defined.

(** * Owners and observers keep separate books *)

Lemma leaves_owners_refl st : leaves_owners st st.
Proof. repeat split; try done; [eauto|congruence]. Qed.

Lemma leaves_owners_trans st st1 st2 :
  leaves_owners st st1 → leaves_owners st1 st2 → leaves_owners st st2.
Proof.
  intros (Ho & Hs & Hu & Hocc & Hkeep & Hgone) (Ho' & Hs' & Hu' & Hocc' & Hkeep' & Hgone').
  split; [congruence|]. split; [congruence|]. split; [congruence|].
  split; [intros X; by rewrite Hocc'|]. split.
  - intros r rc2 H2. destruct (Hkeep' r rc2 H2) as (rc1 & H1 & E1).
    destruct (Hkeep r rc1 H1) as (rc & H0 & E0). exists rc. split; [done|congruence].
  - intros r rc H0 H2. destruct (counters st1 !! r) as [rc1|] eqn:H1.
    + destruct (Hkeep r rc1 H1) as (rc' & H0' & E0). simplify_eq.
      rewrite <- E0. by apply (Hgone' r rc1).
    + by apply (Hgone r rc).
Qed.

Lemma leaves_observers_refl st : leaves_observers st st.
Proof.
  repeat split; try done; [|congruence]. intros r rc' H. by rewrite H.
Qed.

Lemma leaves_observers_trans st st1 st2 :
  leaves_observers st st1 → leaves_observers st1 st2 → leaves_observers st st2.
Proof.
  intros (Hw & Hu & Hkeep & Hgone) (Hw' & Hu' & Hkeep' & Hgone').
  split; [congruence|]. split; [congruence|]. split.
  - intros r rc2 H2. specialize (Hkeep' r rc2 H2).
    destruct (counters st1 !! r) as [rc1|] eqn:H1.
    + specialize (Hkeep r rc1 H1). destruct (counters st !! r); congruence.
    + destruct (counters st !! r) as [rc|] eqn:H0; [|done].
      rewrite Hkeep'. symmetry. by apply (Hgone r rc).
  - intros r rc H0 H2. destruct (counters st1 !! r) as [rc1|] eqn:H1.
    + specialize (Hkeep r rc1 H1). rewrite H0 in Hkeep. rewrite <- Hkeep.
      by apply (Hgone' r rc1).
    + by apply (Hgone r rc).
Qed.

Lemma leaves_owners_weaks st m : leaves_owners st (with_weaks m st).
Proof. repeat split; try done; cbn; [eauto|congruence]. Qed.

Lemma leaves_observers_shareds st m : leaves_observers st (with_shareds m st).
Proof. repeat split; try done; cbn; [|congruence]. intros r rc' H. by rewrite H. Qed.

Section books.
Context `{alloc : Allocator}.

Ltac book_insert :=
  cbn; intros r0 rc0; rewrite lookup_insert;
  destruct (decide (_ = r0)) as [<-|?]; intros; simplify_eq/=; eauto.

Lemma atom_leaves_owners a st st' :
  match a with
  | EnterWeak _ | RetireWeak _ | ReleaseWeak _ | Observe _ _ | CopyWeak _ _
  | StealWeak _ _ | ExchangeWeak _ _ => True
  | _ => False
  end →
  atom_step a st st' → leaves_owners st st'.
Proof.
  intros Ha Hstep. destruct Hstep; try done; try apply leaves_owners_weaks.
  - match goal with H : weak_released _ _ _ |- _ =>
      destruct H as [wp ? ?|wp rc ? ? Hrc ? ?|wp rc ? ? Hrc Hc ?] end.
    + apply leaves_owners_weaks.
    + eapply leaves_owners_trans; [|apply leaves_owners_weaks].
      repeat split; try done; book_insert.
    + eapply leaves_owners_trans; [|apply leaves_owners_weaks].
      repeat split; try done.
      * cbn. intros r0 rc0. rewrite lookup_delete. case_decide; [done|]. eauto.
      * cbn. intros r0 rc0 Hr0. rewrite lookup_delete.
        destruct (decide (WeakPtr.reference wp = r0)) as [<-|?]; [|congruence].
        intros _. by simplify_eq.
  - repeat split; try done; book_insert.
  - repeat split; try done; book_insert.
Qed.

Lemma atoms_run_leaves_owners l : ∀ st st',
  Forall (λ a, match a with
               | EnterWeak _ | RetireWeak _ | ReleaseWeak _ | Observe _ _ | CopyWeak _ _
               | StealWeak _ _ | ExchangeWeak _ _ => True
               | _ => False
               end) l →
  atoms_run l st st' → leaves_owners st st'.
Proof.
  induction l as [|a l IH]; intros st st' Hl Hrun.
  - inversion Hrun; subst. apply leaves_owners_refl.
  - inversion Hrun as [|? ? ? st1 ? Ha Hrest]; subst. inversion Hl; subst.
    apply (leaves_owners_trans _ st1); [by apply (atom_leaves_owners a)|by apply IH].
Qed.

Lemma atom_leaves_observers a st st' :
  shared_atom a = true → atom_step a st st' → leaves_observers st st'.
Proof.
  intros Ha Hstep. destruct Hstep; try discriminate; try apply leaves_observers_shareds.
  - match goal with H : client_object _ _ = _ |- _ =>
      apply client_object_Ok in H; subst end.
    repeat split; try done; cbn; [|congruence]. intros r rc' H. by rewrite H.
  - match goal with H : shared_released _ _ _ |- _ =>
      destruct H as [sp ? ?|sp rc ? ? ? Hrc ?|sp rc ? ? ? Hrc ? ? Hw|sp rc ? ? ? Hrc ? ? Hw] end.
    + apply leaves_observers_shareds.
    + repeat split; try done; cbn; intros r0 rc0; rewrite lookup_insert;
        destruct (decide (SharedPtr.reference sp = r0)) as [<-|?]; intros; simplify_eq/=;
        try done.
      * by rewrite Hrc.
      * match goal with H : counters _ !! r0 = Some _ |- _ => by rewrite H end.
    + repeat split; try done; cbn; intros r0 rc0; rewrite lookup_insert;
        destruct (decide (SharedPtr.reference sp = r0)) as [<-|?]; intros; simplify_eq/=;
        try done.
      * by rewrite Hrc.
      * match goal with H : counters _ !! r0 = Some _ |- _ => by rewrite H end.
    + repeat split; try done; cbn; intros r0 rc0; rewrite lookup_delete;
        destruct (decide (SharedPtr.reference sp = r0)) as [<-|?]; intros; simplify_eq/=;
        try done.
      match goal with H : counters _ !! r0 = Some _ |- _ => by rewrite H end.
  - repeat split; try done; cbn; intros r0 rc0; rewrite lookup_insert;
      destruct (decide (SharedPtr.reference sp = r0)) as [<-|?]; intros; simplify_eq/=;
      try done.
    + match goal with H : counters _ !! _ = Some rc |- _ => by rewrite H end.
    + match goal with H : counters _ !! r0 = Some _ |- _ => by rewrite H end.
  - destruct (new_address_fresh (dom (counters st))) as [_ Hfresh].
    apply not_elem_of_dom in Hfresh.
    repeat split; try done; cbn; intros r0 rc0; rewrite lookup_insert;
      destruct (decide (new_address (dom (counters st)) = r0)) as [<-|?];
      intros; simplify_eq/=; try done.
    + by rewrite Hfresh.
    + match goal with H : counters _ !! r0 = Some _ |- _ => by rewrite H end.
Qed.

Lemma atoms_run_leaves_observers l : ∀ st st',
  Forall (λ a, shared_atom a = true) l →
  atoms_run l st st' → leaves_observers st st'.
Proof.
  induction l as [|a l IH]; intros st st' Hl Hrun.
  - inversion Hrun; subst. apply leaves_observers_refl.
  - inversion Hrun as [|? ? ? st1 ? Ha Hrest]; subst. inversion Hl; subst.
    apply (leaves_observers_trans _ st1); [by apply (atom_leaves_observers a)|by apply IH].
Qed.

Lemma plan_observer o l :
  plan o l → observer_op o = true →
  Forall (λ a, match a with
               | EnterWeak _ | RetireWeak _ | ReleaseWeak _ | Observe _ _ | CopyWeak _ _
               | StealWeak _ _ | ExchangeWeak _ _ => True
               | _ => False
               end) l.
Proof. destruct 1; try discriminate; intros _; repeat constructor. Qed.

End books.

(** X19: statements on WeakPtr variables other than [lock()] (constructors,
    assignments, reset, swap, destructor), from any store: they create and
    delete no object, change no SharedPtr and no UniquePtr, leave the strong
    count of every block as it is, and delete a block only if its strong count
    is 0. *)
Theorem observers_leave_owners_alone `{alloc : Allocator}
    (os : list op) (st st' : state) :
  Forall (λ o, observer_op o = true) os →
  run os st = Ok st' →
  leaves_owners st st'.
Proof.
  revert st. induction os as [|o os IH]; intros st Hos Hrun; cbn in Hrun.
  - injection Hrun as <-. apply leaves_owners_refl.
  - destruct (step o st) as [st1|] eqn:Hstep; [|done].
    inversion Hos as [|? ? Ho Hrest]; subst.
    assert (unique_op o = false) as Hu by (by destruct o).
    destruct (decompose o st st1 Hu Hstep) as (l & Hplan & Hl).
    apply (leaves_owners_trans _ st1); [|by apply IH].
    apply (atoms_run_leaves_owners l); [by apply (plan_observer o)|done].
Qed.

Lemma observers_leave_owners_alone_witness :
  ∃ st st',
    run (H := bump_allocator)
      [SNewPtr 1%positive 7%N; WNewShared 1%positive 1%positive; SDelete 1%positive] init
      = Ok st ∧
    run (H := bump_allocator)
      [WNewCopy 2%positive 1%positive; WNew 3%positive; WSwap 3%positive 1%positive;
       WReset 2%positive; WMoveAssign 1%positive 3%positive; WDelete 1%positive] st
      = Ok st' ∧
    counters st' = ∅ ∧
    leaves_owners st st'.
Proof.
  eexists _, _. split; [vm_compute; reflexivity|].
  split; [vm_compute; reflexivity|]. split; [reflexivity|].
  apply (observers_leave_owners_alone (alloc := bump_allocator)
           [WNewCopy 2%positive 1%positive; WNew 3%positive; WSwap 3%positive 1%positive;
            WReset 2%positive; WMoveAssign 1%positive 3%positive; WDelete 1%positive]);
    [repeat constructor | vm_compute; reflexivity].
Defined.

(** X20: statements on SharedPtr variables (constructors from a pointer or a
    SharedPtr, assignments, reset, swap, destructor), from any store: they
    change no WeakPtr and no UniquePtr, leave the weak count of every block as
    it is, start a new block with weak count 0, and delete a block only if its
    weak count is 0. *)
Theorem owners_leave_observers_alone `{alloc : Allocator}
    (os : list op) (st st' : state) :
  Forall (λ o, shared_op o = true) os →
  run os st = Ok st' →
  leaves_observers st st'.
Proof.
  revert st. induction os as [|o os IH]; intros st Hos Hrun; cbn in Hrun.
  - injection Hrun as <-. apply leaves_observers_refl.
  - destruct (step o st) as [st1|] eqn:Hstep; [|done].
    inversion Hos as [|? ? Ho Hrest]; subst.
    assert (unique_op o = false) as Hu by (by destruct o).
    destruct (decompose o st st1 Hu Hstep) as (l & Hplan & Hl).
    apply (leaves_observers_trans _ st1); [|by apply IH].
    apply (atoms_run_leaves_observers l); [by apply (plan_shared o)|done].
Qed.

Lemma owners_leave_observers_alone_witness :
  ∃ st st',
    run (H := bump_allocator)
      [SNewPtr 1%positive 7%N; WNewShared 1%positive 1%positive] init = Ok st ∧
    run (H := bump_allocator)
      [SNewCopy 2%positive 1%positive; SResetPtr 1%positive 9%N; SDelete 2%positive;
       SDelete 1%positive] st = Ok st' ∧
    counters st' = {[1%N := {| count := 0; weak := 1 |}]} ∧
    leaves_observers st st'.
Proof.
  eexists _, _. split; [vm_compute; reflexivity|].
  split; [vm_compute; reflexivity|]. split; [reflexivity|].
  apply (owners_leave_observers_alone (alloc := bump_allocator)
           [SNewCopy 2%positive 1%positive; SResetPtr 1%positive 9%N; SDelete 2%positive;
            SDelete 1%positive]);
    [repeat constructor | vm_compute; reflexivity].
Defined.

(** * SharedPtr: assignment and reset in a running client *)

Ltac invert_atoms :=
  repeat match goal with
  | H : atoms_run [] _ _ |- _ => inversion H; subst; clear H
  | H : atoms_run (_ :: _) _ _ |- _ => inversion H; subst; clear H
  | H : atom_step _ _ _ |- _ => inversion H; subst; clear H
  end.

Lemma obeying_run `{alloc : Allocator} (os : list op) (st : state) :
  obeys os init → Z.of_nat (length os) < 2 ^ 64 → run os init = Ok st →
  consistent (Z.of_nat (length os)) st ∧ sound st.
Proof.
  intros Hob HN Hrun.
  destruct (run_returns os 0 init Hob init_consistent init_sound)
    as (st0 & Hrun0 & HI & Hs); [lia|lia|].
  rewrite Hrun in Hrun0. injection Hrun0 as <-. done.
Qed.

(** X21: in a SharedPtr client that keeps its side, copy assignment [a = b]
    from another handle that holds an object returns; afterwards [a] has the
    pointer and the block of [b], [b] is unchanged, both report as use_count()
    the number of handles on the block, which is one more than before unless
    [a] was on that block already, and the object of [b] is still live. *)
Theorem shared_copy_assign_shares `{alloc : Allocator}
    (os : list op) (st : state) (a b : handle) (sa sb : SharedPtr.t) :
  obeys os init →
  Z.of_nat (length os) + 1 < 2 ^ 64 →
  run os init = Ok st →
  shareds st !! a = Some sa →
  shareds st !! b = Some sb →
  a ≠ b →
  SharedPtr.object sb ≠ nullptr →
  ∃ st',
    step (SAssign a b) st = Ok st' ∧
    shareds st' = <[a := sb]> (shareds st) ∧
    weaks st' = weaks st ∧ uniques st' = uniques st ∧
    read (SharedPtr_use_count a) st' = Some (sharing st' (SharedPtr.reference sb)) ∧
    read (SharedPtr_use_count b) st' = Some (sharing st' (SharedPtr.reference sb)) ∧
    sharing st' (SharedPtr.reference sb) =
      sharing st (SharedPtr.reference sb) +
      (if decide (SharedPtr.reference sa = SharedPtr.reference sb) then 0 else 1) ∧
    SharedPtr.object sb ∈ objects st'.
Proof.
  intros Hob HN Hrun Ha Hb Hne Ho.
  destruct (obeying_run os st Hob ltac:(lia) Hrun) as [HI Hs].
  destruct (consistent_shared _ _ _ _ HI Hb) as [Hnull _].
  assert (SharedPtr.reference sb ≠ nullptr) as Hr by (intros E; by apply Ho, Hnull).
  assert (ready (SAssign a b) st) as Hready.
  { cbn. split; [by eexists|]. exists sb. split; [done|by right]. }
  destruct (step_returns _ _ _ Hready HI ltac:(lia) Hs) as [st' Hstep].
  assert (consistent (Z.of_nat (length os) + 1) st') as HI'
    by (apply (step_consistent _ (SAssign a b) st); [done|done|lia|lia]).
  assert (sound st') as Hs' by (apply (step_sound _ _ _ _ Hstep Hready HI); [lia|done]).
  assert (shareds st' = <[a := sb]> (shareds st) ∧ weaks st' = weaks st ∧
          uniques st' = uniques st) as (Hsh & Hwk & Hun).
  { destruct (decompose (SAssign a b) st st' eq_refl Hstep) as (l & Hp & Hl).
    inversion Hp; subst; [done|]. invert_atoms.
    match goal with H : shared_released _ _ _ |- _ =>
      destruct (shared_released_frame _ _ _ H) as (Eu & Es & Ew & _) end.
    cbn in *. rewrite Es in *. norm_lookups. simplify_eq.
    by rewrite insert_insert_eq. }
  assert (shareds st' !! a = Some sb) as Ha' by (rewrite Hsh; by rewrite lookup_insert_eq).
  assert (shareds st' !! b = Some sb) as Hb' by (rewrite Hsh; by rewrite lookup_insert_ne).
  destruct (consistent_shared _ _ _ _ HI' Hb') as [_ Hblock].
  destruct (Hblock Hr) as (rc & Hrc & _ & Hc). rewrite decide_False in Hc by done.
  exists st'. split; [done|]. split; [done|]. split; [done|]. split; [done|].
  split; [mrun; by rewrite Hc|]. split; [mrun; by rewrite Hc|].
  split.
  - unfold sharing. rewrite Hsh, tally_insert, Ha. cbn.
    rewrite (indicator_True (SharedPtr.reference sb = SharedPtr.reference sb)) by done.
    unfold indicator. repeat case_decide; lia.
  - by apply (proj1 Hs' b sb).
Qed.

Lemma shared_copy_assign_shares_witness :
  ∃ st st',
    run (H := bump_allocator) [SNewPtr 1%positive 7%N; SNewPtr 2%positive 9%N] init = Ok st ∧
    step (H := bump_allocator) (SAssign 1%positive 2%positive) st = Ok st' ∧
    read (SharedPtr_use_count 1%positive) st' = Some (sharing st' 2%N) ∧
    sharing st' 2%N = sharing st 2%N + 1 ∧
    trace st' = [DeleteCounter 1%N; DeleteObject 7%N] ∧
    9%N ∈ objects st'.
Proof.
  assert (obeys (H := bump_allocator)
            [SNewPtr 1%positive 7%N; SNewPtr 2%positive 9%N] init) as Hob by shared_obey.
  destruct (shared_copy_assign_shares (alloc := bump_allocator)
              [SNewPtr 1%positive 7%N; SNewPtr 2%positive 9%N]
              {| uniques := ∅;
                 shareds := {[1%positive := {| SharedPtr.object := 7%N;
                                               SharedPtr.reference := 1%N |};
                              2%positive := {| SharedPtr.object := 9%N;
                                               SharedPtr.reference := 2%N |}]};
                 weaks := ∅;
                 counters := {[1%N := {| count := 1; weak := 0 |};
                               2%N := {| count := 1; weak := 0 |}]};
                 objects := {[7%N; 9%N]}; trace := [] |}
              1%positive 2%positive
              {| SharedPtr.object := 7%N; SharedPtr.reference := 1%N |}
              {| SharedPtr.object := 9%N; SharedPtr.reference := 2%N |} Hob)
    as (st' & H1 & _ & _ & _ & H2 & _ & H3 & H4);
    [cbn; lia | vm_compute; reflexivity | reflexivity | reflexivity | done | done |].
  eexists _, st'. split; [vm_compute; reflexivity|].
  split; [exact H1|]. split; [exact H2|]. split; [exact H3|].
  split; [|exact H4].
  vm_compute in H1. injection H1 as <-. reflexivity.
Defined.

(** X22: in a SharedPtr client that keeps its side, [a.reset(p)] with a new
    object [p] returns; afterwards [a] holds [p] on a block of its own that no
    other handle is on, use_count() is 1, [p] is live, and no other variable
    has changed. *)
Theorem shared_reset_takes_own_block `{alloc : Allocator}
    (os : list op) (st : state) (a : handle) (sa : SharedPtr.t) (p : ptr) :
  obeys os init →
  Z.of_nat (length os) + 1 < 2 ^ 64 →
  run os init = Ok st →
  shareds st !! a = Some sa →
  p ≠ nullptr →
  p ∉ objects st →
  ∃ st' r,
    step (SResetPtr a p) st = Ok st' ∧
    r ≠ nullptr ∧
    shareds st' = <[a := {| SharedPtr.object := p; SharedPtr.reference := r |}]> (shareds st) ∧
    weaks st' = weaks st ∧ uniques st' = uniques st ∧
    read (SharedPtr_get a) st' = Some p ∧
    read (SharedPtr_use_count a) st' = Some 1 ∧
    sharing st' r = 1 ∧
    p ∈ objects st'.
Proof.
  intros Hob HN Hrun Ha Hp Hfresh.
  destruct (obeying_run os st Hob ltac:(lia) Hrun) as [HI Hs].
  assert (ready (SResetPtr a p) st) as Hready by (cbn; split; [by eexists|done]).
  destruct (client_object p st) as [[[] s0]|] eqn:Hc;
    [|by unfold client_object in Hc; case_decide].
  pose proof Hc as Hc'. apply client_object_Ok in Hc'.
  assert (sound s0) as Hs0 by (by eapply sound_live).
  assert (consistent (Z.of_nat (length os)) s0) as HI0
    by (eapply consistent_frame; [| | |done]; by subst).
  assert (shareds s0 !! a = Some sa) as Ha0 by (by subst).
  destruct (SharedPtr_deleter_returns _ s0 a sa Ha0 HI0 (proj1 Hs0)) as [st1 Hdel].
  pose proof (SharedPtr_deleter_Ok _ _ _ _ Hdel) as Hrel.
  destruct (shared_released_frame _ _ _ Hrel) as (Eu & Es & Ew & _).
  rewrite <- Es in Ha0.
  destruct (new_address_fresh (dom (counters st1))) as [Hnn _].
  eassert (step (SResetPtr a p) st = Ok _) as Hstep.
  { cbn. unfold SharedPtr_reset_ptr, exec.
    rewrite (bind_run _ _ _ _ _ Hc), (bind_run _ _ _ _ _ Hdel). mrun. reflexivity. }
  match type of Hstep with _ = Ok ?s => set (st' := s) in * end.
  assert (consistent (Z.of_nat (length os) + 1) st') as HI'
    by (apply (step_consistent _ (SResetPtr a p) st); [done|done|lia|lia]).
  assert (sound st') as Hs' by (apply (step_sound _ _ _ _ Hstep Hready HI); [lia|done]).
  set (r := new_address (dom (counters st1))) in *.
  assert (shareds st' = <[a := {| SharedPtr.object := p; SharedPtr.reference := r |}]>
                          (shareds st)) as Hsh.
  { subst st'. cbn. rewrite Es. subst s0. cbn. by rewrite insert_insert_eq. }
  assert (weaks st' = weaks st) as Hwk by (subst st'; cbn; rewrite Ew; by subst s0).
  assert (uniques st' = uniques st) as Hun by (subst st'; cbn; rewrite Eu; by subst s0).
  assert (counters st' !! r = Some {| count := 1; weak := 0 |}) as Hrc
    by (subst st'; cbn; by rewrite lookup_insert_eq).
  assert (r ≠ nullptr) as Hr by done.
  assert (shareds st' !! a = Some {| SharedPtr.object := p; SharedPtr.reference := r |})
    as Ha' by (rewrite Hsh; by rewrite lookup_insert_eq).
  destruct (consistent_shared _ _ _ _ HI' Ha') as [_ Hblock].
  destruct (Hblock Hr) as (rc & Hrc' & _ & Hcnt).
  cbn [SharedPtr.object SharedPtr.reference] in Hrc', Hcnt.
  rewrite decide_False in Hcnt by done. rewrite Hrc in Hrc'. injection Hrc' as <-.
  exists st', r. split; [done|]. split; [done|]. split; [done|]. split; [done|].
  split; [done|]. split; [mrun; reflexivity|]. split; [mrun; reflexivity|].
  split; [by rewrite <- Hcnt|].
  by apply (proj1 Hs' a _ Ha').
Qed.

Lemma shared_reset_takes_own_block_witness :
  ∃ st st',
    run (H := bump_allocator) [SNewPtr 1%positive 7%N; SNewCopy 2%positive 1%positive] init
      = Ok st ∧
    step (H := bump_allocator) (SResetPtr 1%positive 9%N) st = Ok st' ∧
    read (SharedPtr_get 1%positive) st' = Some 9%N ∧
    read (SharedPtr_use_count 1%positive) st' = Some 1 ∧
    read (SharedPtr_use_count 2%positive) st' = Some 1 ∧
    9%N ∈ objects st'.
Proof.
  assert (obeys (H := bump_allocator)
            [SNewPtr 1%positive 7%N; SNewCopy 2%positive 1%positive] init) as Hob
    by shared_obey.
  destruct (shared_reset_takes_own_block (alloc := bump_allocator)
              [SNewPtr 1%positive 7%N; SNewCopy 2%positive 1%positive]
              {| uniques := ∅;
                 shareds := {[1%positive := {| SharedPtr.object := 7%N;
                                               SharedPtr.reference := 1%N |};
                              2%positive := {| SharedPtr.object := 7%N;
                                               SharedPtr.reference := 1%N |}]};
                 weaks := ∅;
                 counters := {[1%N := {| count := 2; weak := 0 |}]};
                 objects := {[7%N]}; trace := [] |}
              1%positive {| SharedPtr.object := 7%N; SharedPtr.reference := 1%N |} 9%N Hob)
    as (st' & r & H1 & _ & _ & _ & _ & H2 & H3 & _ & H4);
    [cbn; lia | vm_compute; reflexivity | reflexivity | done | cbn; set_solver |].
  eexists _, st'. split; [vm_compute; reflexivity|].
  split; [exact H1|]. split; [exact H2|]. split; [exact H3|]. split; [|exact H4].
  vm_compute in H1. injection H1 as <-. vm_compute. reflexivity.
Defined.

(** X23: in a SharedPtr client that keeps its side, move assignment
    [a = std::move(b)] from another handle that holds an object returns;
    afterwards [a] has the pointer and the block of [b], [b] is empty and
    reports use_count() 0, [a] reports the number of handles on the block,
    which is what it was before, or one less if [a] was on that block already,
    and the object is still live. *)
Theorem shared_move_assign_transfers `{alloc : Allocator}
    (os : list op) (st : state) (a b : handle) (sa sb : SharedPtr.t) :
  obeys os init →
  Z.of_nat (length os) + 1 < 2 ^ 64 →
  run os init = Ok st →
  shareds st !! a = Some sa →
  shareds st !! b = Some sb →
  a ≠ b →
  SharedPtr.object sb ≠ nullptr →
  ∃ st',
    step (SMoveAssign a b) st = Ok st' ∧
    shareds st' = <[b := empty_shared]> (<[a := sb]> (shareds st)) ∧
    weaks st' = weaks st ∧ uniques st' = uniques st ∧
    read (SharedPtr_use_count a) st' = Some (sharing st' (SharedPtr.reference sb)) ∧
    read (SharedPtr_use_count b) st' = Some 0 ∧
    sharing st' (SharedPtr.reference sb) =
      sharing st (SharedPtr.reference sb) -
      (if decide (SharedPtr.reference sa = SharedPtr.reference sb) then 1 else 0) ∧
    SharedPtr.object sb ∈ objects st'.
Proof.
  intros Hob HN Hrun Ha Hb Hne Ho.
  destruct (obeying_run os st Hob ltac:(lia) Hrun) as [HI Hs].
  destruct (consistent_shared _ _ _ _ HI Hb) as [Hnull _].
  assert (SharedPtr.reference sb ≠ nullptr) as Hr by (intros E; by apply Ho, Hnull).
  assert (ready (SMoveAssign a b) st) as Hready by (cbn; split; by eexists).
  destruct (step_returns _ _ _ Hready HI ltac:(lia) Hs) as [st' Hstep].
  assert (consistent (Z.of_nat (length os) + 1) st') as HI'
    by (apply (step_consistent _ (SMoveAssign a b) st); [done|done|lia|lia]).
  assert (sound st') as Hs' by (apply (step_sound _ _ _ _ Hstep Hready HI); [lia|done]).
  assert (shareds st' = <[b := empty_shared]> (<[a := sb]> (shareds st)) ∧
          weaks st' = weaks st ∧ uniques st' = uniques st) as (Hsh & Hwk & Hun).
  { destruct (decompose (SMoveAssign a b) st st' eq_refl Hstep) as (l & Hp & Hl).
    inversion Hp; subst; [done|]. invert_atoms.
    match goal with H : shared_released _ _ _ |- _ =>
      destruct (shared_released_frame _ _ _ H) as (Eu & Es & Ew & _) end.
    cbn in *. rewrite Es in *. norm_lookups. simplify_eq.
    by rewrite insert_insert_eq. }
  assert (shareds st' !! a = Some sb) as Ha'.
  { rewrite Hsh. rewrite lookup_insert_ne by done. by rewrite lookup_insert_eq. }
  assert (shareds st' !! b = Some empty_shared) as Hb'
    by (rewrite Hsh; by rewrite lookup_insert_eq).
  destruct (consistent_shared _ _ _ _ HI' Ha') as [_ Hblock].
  destruct (Hblock Hr) as (rc & Hrc & _ & Hc). rewrite decide_False in Hc by done.
  exists st'. split; [done|]. split; [done|]. split; [done|]. split; [done|].
  split; [mrun; by rewrite Hc|]. split; [mrun; reflexivity|].
  split.
  - unfold sharing. rewrite Hsh, !tally_insert, Ha.
    rewrite lookup_insert_ne, Hb by done. cbn.
    rewrite (indicator_True (SharedPtr.reference sb = SharedPtr.reference sb)) by done.
    rewrite (indicator_False (nullptr = SharedPtr.reference sb)) by done.
    unfold indicator. repeat case_decide; lia.
  - by apply (proj1 Hs' a sb).
Qed.

Lemma shared_move_assign_transfers_witness :
  ∃ st st',
    run (H := bump_allocator)
      [SNewPtr 1%positive 7%N; SNewPtr 2%positive 9%N; SNewCopy 3%positive 2%positive] init
      = Ok st ∧
    step (H := bump_allocator) (SMoveAssign 1%positive 2%positive) st = Ok st' ∧
    read (SharedPtr_use_count 1%positive) st' = Some (sharing st' 2%N) ∧
    read (SharedPtr_use_count 2%positive) st' = Some 0 ∧
    sharing st' 2%N = sharing st 2%N - 0 ∧
    trace st' = [DeleteCounter 1%N; DeleteObject 7%N] ∧
    9%N ∈ objects st'.
Proof.
  assert (obeys (H := bump_allocator)
            [SNewPtr 1%positive 7%N; SNewPtr 2%positive 9%N;
             SNewCopy 3%positive 2%positive] init) as Hob by shared_obey.
  destruct (shared_move_assign_transfers (alloc := bump_allocator)
              [SNewPtr 1%positive 7%N; SNewPtr 2%positive 9%N;
               SNewCopy 3%positive 2%positive]
              {| uniques := ∅;
                 shareds := {[1%positive := {| SharedPtr.object := 7%N;
                                               SharedPtr.reference := 1%N |};
                              2%positive := {| SharedPtr.object := 9%N;
                                               SharedPtr.reference := 2%N |};
                              3%positive := {| SharedPtr.object := 9%N;
                                               SharedPtr.reference := 2%N |}]};
                 weaks := ∅;
                 counters := {[1%N := {| count := 1; weak := 0 |};
                               2%N := {| count := 2; weak := 0 |}]};
                 objects := {[7%N; 9%N]}; trace := [] |}
              1%positive 2%positive
              {| SharedPtr.object := 7%N; SharedPtr.reference := 1%N |}
              {| SharedPtr.object := 9%N; SharedPtr.reference := 2%N |} Hob)
    as (st' & H1 & _ & _ & _ & H2 & H3 & H4 & H5);
    [cbn; lia | vm_compute; reflexivity | reflexivity | reflexivity | done | done |].
  eexists _, st'. split; [vm_compute; reflexivity|].
  split; [exact H1|]. split; [exact H2|]. split; [exact H3|]. split; [exact H4|].
  split; [|exact H5].
  vm_compute in H1. injection H1 as <-. reflexivity.
Defined.

(** X24: in every state a client can reach, copy assignment [w = v] between
    two different WeakPtr calls [addWeak] through the null pointer when [v]
    has no block, and returns when it has one; move assignment
    [w = std::move(v)] returns for every source, leaves [w] with what [v]
    had and [v] empty. *)
Theorem weak_assign_needs_nonempty_source `{alloc : Allocator}
    (os : list op) (st : state) (w v : handle) (wp : WeakPtr.t) :
  run os init = Ok st →
  Z.of_nat (length os) < 2 ^ 64 →
  is_Some (weaks st !! w) →
  weaks st !! v = Some wp →
  w ≠ v →
  (if decide (WeakPtr.reference wp = nullptr)
   then step (WAssign w v) st = Fault NullDeref
   else ∃ st', step (WAssign w v) st = Ok st') ∧
  ∃ st', step (WMoveAssign w v) st = Ok st' ∧
         weaks st' !! w = Some wp ∧ weaks st' !! v = Some empty_weak.
Proof.
  intros Hrun HN [ww Hw] Hv Hne.
  pose proof (reachable_consistent os st Hrun HN) as HI.
  destruct (WeakPtr_deleter_returns st w ww Hw) as [st1 Hdel].
  { intros Hr. destruct (consistent_weak _ _ _ _ HI Hw Hr) as (rc & Hrc & _). eauto. }
  pose proof (WeakPtr_deleter_Ok _ _ _ _ Hdel) as Hrel.
  destruct (weak_released_frame _ _ _ Hrel) as (_ & Hsh & Hwk & _ & _).
  assert (consistent (Z.of_nat (length os))
            (with_weaks (<[w := empty_weak]> (weaks st1)) st1)) as HI1
    by (by eapply consistent_wrelease).
  assert (weaks (with_weaks (<[w := empty_weak]> (weaks st1)) st1) !! v = Some wp)
    as Hv1 by (cbn; rewrite Hwk; by rewrite lookup_insert_ne).
  rewrite <- Hwk in Hw, Hv.
  split.
  - destruct (decide (WeakPtr.reference wp = nullptr)) as [Hr|Hr].
    + cbn. unfold WeakPtr_assign, exec. rewrite decide_False by done.
      rewrite (bind_run _ _ _ _ _ Hdel). mrun. reflexivity.
    + destruct (consistent_weak _ _ _ _ HI1 Hv1 Hr) as (rc & Hrc & _). cbn in Hrc.
      eexists. cbn. unfold WeakPtr_assign, exec. rewrite decide_False by done.
      rewrite (bind_run _ _ _ _ _ Hdel). mrun. reflexivity.
  - eexists. split.
    + cbn. unfold WeakPtr_move_assign, exec. rewrite decide_False by done.
      rewrite (bind_run _ _ _ _ _ Hdel). mrun. reflexivity.
    + cbn. split.
      * rewrite lookup_insert_ne, lookup_insert_ne, lookup_insert_eq by done.
        by rewrite WeakPtr_eta.
      * by rewrite lookup_insert_eq.
Qed.

Lemma weak_assign_needs_nonempty_source_witness :
  ∃ st,
    run (H := bump_allocator)
      [SNewPtr 1%positive 7%N; WNewShared 1%positive 1%positive; WNew 2%positive] init
      = Ok st ∧
    step (H := bump_allocator) (WAssign 1%positive 2%positive) st = Fault NullDeref ∧
    (∃ st', step (H := bump_allocator) (WAssign 2%positive 1%positive) st = Ok st') ∧
    (∃ st', step (H := bump_allocator) (WMoveAssign 1%positive 2%positive) st = Ok st' ∧
            weaks st' !! 1%positive = Some empty_weak ∧
            weaks st' !! 2%positive = Some empty_weak).
Proof.
  eexists. split; [vm_compute; reflexivity|].
  pose proof (weak_assign_needs_nonempty_source (alloc := bump_allocator)
    [SNewPtr 1%positive 7%N; WNewShared 1%positive 1%positive; WNew 2%positive] _
    1%positive 2%positive empty_weak
    ltac:(vm_compute; reflexivity) ltac:(cbn; lia) ltac:(by eexists) eq_refl ltac:(done))
    as [H1 H2].
  pose proof (weak_assign_needs_nonempty_source (alloc := bump_allocator)
    [SNewPtr 1%positive 7%N; WNewShared 1%positive 1%positive; WNew 2%positive] _
    2%positive 1%positive {| WeakPtr.pointer := 7%N; WeakPtr.reference := 1%N |}
    ltac:(vm_compute; reflexivity) ltac:(cbn; lia) ltac:(by eexists) eq_refl ltac:(done))
    as [H3 _].
  split; [exact H1|]. split; [exact H3|exact H2].
Defined.
